(** * Flattened COO sparse matrix-vector multiply (cusp/device/spmv_coo_flat.h)

    A shallow embedding of the four [spmv_coo_flat*] entry points, their
    kernels and the launch planner, and the properties of the
    specification proved about them; then further properties of the same
    code, and of the assertions of testing/unittest/assertions.h with which
    its results are compared.

    Conventions of the embedding.
    - [ValueType] is a template parameter of every kernel: the kernels are
      written once over a type [T] with a zero, an addition and a
      multiplication ([ValueOps]); results are stated at [Z] (exact
      arithmetic) and, for bookkeeping of which entry went where, at
      multisets of entry numbers.
    - [IndexType] values stored in device arrays (rows, columns) are [Z];
      positions in arrays, thread and warp numbers are [nat].  The host
      planner, written with [unsigned int] in the source, is in [Z] with the
      reduction modulo [2^32] written out.
    - A device array is a list.  A read outside the array yields the zero of
      the element type and a write outside it is dropped; the source has
      undefined behaviour there.
    - A kernel touches [y] only through [y[r] += v] and [atomicAdd(y+r, v)]
      and never branches on [y], so a kernel is described by the sequence of
      these accumulation events; [replay] applies them to the array.  The
      lanes of a warp run in lockstep (one list operation per statement);
      warps, and launches on the one stream, are replayed in order.
    - Inside the kernels the positions [begin], [end] and [n] are natural
      numbers: their arithmetic is exact, where the source computes in
      [IndexType], a signed 32-bit integer.  The two agree as long as no
      value of the launch reaches [2^31]; past that the source overflows and
      a warp can take the early return with work left.  So a statement of
      what a level-1 launch or a run of a driver adds up to, writes or
      leaves behind is made for launches that stay in range, for the
      drivers those on fewer than [2^30] entries; a statement that only
      restricts the accumulations that are made needs no bound, a warp lost
      to the overflow makes none.
    - The literal [32] of the kernels stands for [WARP_SIZE], as do the
      [31] and the five steps of [segreduce_warp] that the source writes
      out. *)

From stdpp Require Import list numbers gmultiset strings.
From AAC_tactics Require Import AAC.
From Stdlib Require Import Floats.

(** ** Value types *)

Class ValueOps (T : Type) := {
  vzero : T;
  vadd : T -> T -> T;
  vmul : T -> T -> T
}.

Class ValueLaws (T : Type) `{ValueOps T} : Prop := {
  vadd_assoc : forall a b c : T, vadd a (vadd b c) = vadd (vadd a b) c;
  vadd_comm : forall a b : T, vadd a b = vadd b a;
  vadd_zero_l : forall a : T, vadd vzero a = a
}.

#[export] Instance Z_ops : ValueOps Z :=
  {| vzero := 0%Z; vadd := Z.add; vmul := Z.mul |}.

(** Entry tags: a value is the multiset of the entries summed into it.  The
    matrix value of entry [n] is the singleton of [n], the vector is empty
    everywhere, and both operations are the multiset sum. *)
#[export] Instance tag_ops : ValueOps (gmultiset nat) :=
  {| vzero := ∅; vadd := (⊎); vmul := (⊎) |}.

(** ** Device arrays *)

Definition ldi (l : list Z) (i : nat) : Z := default 0%Z (l !! i).

Definition ld {T} `{ValueOps T} (l : list T) (i : nat) : T :=
  default vzero (l !! i).

(** A read at an [IndexType] position (a column index). *)
Definition ldz {T} `{ValueOps T} (l : list T) (j : Z) : T :=
  if bool_decide (j < 0)%Z then vzero else ld l (Z.to_nat j).

(** [tab n f] is the array [f 0, ..., f (n-1)]: what [n] lanes store when
    lane [t] stores [f t]. *)
Definition tab {A} (n : nat) (f : nat -> A) : list A := f <$> seq 0 n.

(** ** Accumulation events *)

Inductive AddKind := PlainAdd | AtomicAdd.

Inductive Kernel := K_flat | K_atomic | K_reduce | K_scatter | K_serial.

#[export] Instance AddKind_eq_dec : EqDecision AddKind.
Proof. solve_decision. Defined.

#[export] Instance Kernel_eq_dec : EqDecision Kernel.
Proof. solve_decision. Defined.

(** [ev_unit] is the warp number in the two level-1 kernels, the carry slot
    [i] in the level-2 kernels and the entry number in the serial kernel. *)
Record Event (T : Type) := mkEvent {
  ev_kernel : Kernel;
  ev_unit : nat;
  ev_kind : AddKind;
  ev_row : Z;
  ev_val : T
}.
Arguments mkEvent {T}.
Arguments ev_kernel {T}.
Arguments ev_unit {T}.
Arguments ev_kind {T}.
Arguments ev_row {T}.
Arguments ev_val {T}.

Section Generic.
Context {T : Type} `{ValueOps T}.

(** [y[r] += v] *)
Definition y_add (y : list T) (r : Z) (v : T) : list T :=
  if bool_decide (r < 0)%Z then y
  else alter (fun a => vadd a v) (Z.to_nat r) y.

Definition apply_event (y : list T) (e : Event T) : list T :=
  y_add y (ev_row e) (ev_val e).

Definition replay (evs : list (Event T)) (y : list T) : list T :=
  foldl apply_event y evs.

Definition vsum (l : list T) : T := foldr vadd vzero l.

(** The part of a list of events that lands in row [r]. *)
Definition ev_total (r : Z) (evs : list (Event T)) : T :=
  vsum ((fun e => if bool_decide (ev_row e = r) then ev_val e else vzero) <$> evs).

(** ** Segmented reduction in shared memory *)

(** One line of [segreduce_warp] or [segreduce_block]: every lane [t] with
    [t >= d] and [idx[t] == idx[t-d]] adds the value [d] lanes to its left,
    all lanes reading before any lane writes. *)
Definition seg_step (d : nat) (idx : list Z) (val : list T) : list T :=
  imap (fun t v =>
          if bool_decide (d <= t) && bool_decide (ldi idx t = ldi idx (t - d))
          then vadd v (ld val (t - d)) else v) val.

Definition segreduce_warp (idx : list Z) (val : list T) : list T :=
  seg_step 16 idx (seg_step 8 idx (seg_step 4 idx (seg_step 2 idx (seg_step 1 idx val)))).

Definition segreduce_block (idx : list Z) (val : list T) : list T :=
  seg_step 256 idx (seg_step 128 idx (seg_step 64 idx (seg_step 32 idx
    (seg_step 16 idx (seg_step 8 idx (seg_step 4 idx (seg_step 2 idx
      (seg_step 1 idx val)))))))).

(** ** Reading the input vector *)

(** Modelled from the spec: [bind_x], [unbind_x] and [fetch_x] live in
    cusp/device/texture.h, which is not part of the sources at hand.  The
    spec (4.5) has two interchangeable read policies, a direct read of
    [x[col]] and a read of the same element through the cache bound to [x]
    for the duration of the call. *)
Definition bind_x (x : list T) : list T := x.

Definition fetch_x (UseCache : bool) (x_tex : list T) (j : Z) (x : list T) : T :=
  if UseCache then ldz x_tex j else ldz x j.

(** ** The sequential kernel *)

(** Modelled from the spec: [spmv_coo_serial_kernel] lives in
    cusp/device/spmv_coo_serial.h, which is not part of the sources at hand.
    The spec (4.4) has a single worker that iterates over the entries in
    order and accumulates [val * x[col]] into [y[row]] with plain addition. *)
Definition spmv_coo_serial_kernel (num_entries : nat) (I J : list Z)
    (V x : list T) : list (Event T) :=
  tab num_entries (fun n =>
    mkEvent K_serial n PlainAdd (ldi I n) (vmul (ld V n) (ldz x (ldi J n)))).

(** ** Level 1: one warp over its interval *)

Record Carry := mkCarry { carry_idx : Z; carry_val : T }.

(** [begin] and [end] of a thread, as computed at the top of both level-1
    kernels.  The source computes both in the signed 32-bit [IndexType];
    these are its values when [begin + interval_size] is below [2^31]. *)
Definition thread_begin (warp_id interval_size thread_lane : nat) : nat :=
  warp_id * interval_size + thread_lane.

Definition thread_end (begin interval_size num_entries : nat) : nat :=
  Nat.min (begin + interval_size) num_entries.

(** The body of the [for] loop of [spmv_coo_flat_kernel] and of
    [spmv_coo_flat_atomic_kernel] for the 32 lanes of one warp; [n] is the
    [n] of lane 0, lane [l] works on entry [n + l].  The two kernels differ
    only in how a terminated row is added to [y]: [kind r] is [PlainAdd] for
    every row in the first, and [AtomicAdd] exactly for [r = first_idx] in
    the second. *)
Definition warp_stride (k : Kernel) (kind : Z -> AddKind) (UseCache : bool)
    (x_tex : list T) (I J : list Z) (V x : list T) (warp_id n : nat)
    (c : Carry) : list (Event T) * Carry :=
  let idx := tab 32 (fun l => ldi I (n + l)) in
  let val := tab 32 (fun l =>
               vmul (ld V (n + l)) (fetch_x UseCache x_tex (ldi J (n + l)) x)) in
  (* thread_lane == 0 *)
  let continues := bool_decide (ldi idx 0 = carry_idx c) in
  let val := if continues then <[0 := vadd (ld val 0) (carry_val c)]> val else val in
  let ev0 := if continues then []
             else [mkEvent k warp_id (kind (carry_idx c)) (carry_idx c) (carry_val c)] in
  let val := segreduce_warp idx val in
  (* thread_lane == 31 saves the carry, the others write terminated rows *)
  let ev1 := mjoin (tab 31 (fun l =>
               if bool_decide (ldi idx l <> ldi idx (l + 1))
               then [mkEvent k warp_id (kind (ldi idx l)) (ldi idx l) (ld val l)]
               else [])) in
  (ev0 ++ ev1, mkCarry (ldi idx 31) (ld val 31)).

(** [for(n = begin; n < end; n += WARP_SIZE)], with the loop test in the
    body; [fuel] bounds the number of iterations from above. *)
Fixpoint warp_loop (fuel : nat) (k : Kernel) (kind : Z -> AddKind)
    (UseCache : bool) (x_tex : list T) (I J : list Z) (V x : list T)
    (warp_id n end_ : nat) (c : Carry) : list (Event T) * Carry :=
  match fuel with
  | 0 => ([], c)
  | S fuel' =>
      if bool_decide (n < end_) then
        let '(ev, c') := warp_stride k kind UseCache x_tex I J V x warp_id n c in
        let '(evs, c'') :=
          warp_loop fuel' k kind UseCache x_tex I J V x warp_id (n + 32) end_ c' in
        (ev ++ evs, c'')
      else ([], c)
  end.

(** One warp of [spmv_coo_flat_kernel]: [None] when the warp has no work,
    else its writes to [y] and its final carry. *)
Definition flat_warp (UseCache : bool) (x_tex : list T)
    (num_entries interval_size : nat) (I J : list Z) (V x : list T)
    (warp_id : nat) : option (list (Event T) * Carry) :=
  let begin := thread_begin warp_id interval_size 0 in
  let end_ := thread_end begin interval_size num_entries in
  if bool_decide (end_ <= begin) then None
  else Some (warp_loop (end_ - begin) K_flat (fun _ => PlainAdd) UseCache x_tex
               I J V x warp_id begin end_ (mkCarry (ldi I begin) vzero)).

(** The grid of [spmv_coo_flat_kernel<BLOCK_SIZE> <<<num_blocks, BLOCK_SIZE>>>]:
    warps [0 .. num_blocks * (BLOCK_SIZE / 32)).  The result is the writes to
    [y] and the carry buffer. *)
Definition spmv_coo_flat_kernel (BLOCK_SIZE num_blocks : nat) (UseCache : bool)
    (x_tex : list T) (num_entries interval_size : nat) (I J : list Z)
    (V x : list T) (temp_rows : list Z) (temp_vals : list T)
    : list (Event T) * (list Z * list T) :=
  foldl (fun st warp_id =>
           match flat_warp UseCache x_tex num_entries interval_size I J V x warp_id with
           | None => st
           | Some (ev, c) =>
               (st.1 ++ ev,
                (<[warp_id := carry_idx c]> (st.2.1),
                 <[warp_id := carry_val c]> (st.2.2)))
           end)
        ([], (temp_rows, temp_vals))
        (seq 0 (num_blocks * (BLOCK_SIZE / 32))).

(** One warp of [spmv_coo_flat_atomic_kernel]. *)
Definition atomic_kind (first_idx : Z) (r : Z) : AddKind :=
  if bool_decide (r <> first_idx) then PlainAdd else AtomicAdd.

Definition atomic_warp (UseCache : bool) (x_tex : list T)
    (num_entries interval_size : nat) (I J : list Z) (V x : list T)
    (warp_id : nat) : list (Event T) :=
  let begin := thread_begin warp_id interval_size 0 in
  let end_ := thread_end begin interval_size num_entries in
  if bool_decide (end_ <= begin) then []
  else
    let first_idx := ldi I (warp_id * interval_size) in
    let '(ev, c) :=
      warp_loop (end_ - begin) K_atomic (atomic_kind first_idx) UseCache x_tex
        I J V x warp_id begin end_ (mkCarry first_idx vzero) in
    (* final carry *)
    ev ++ [mkEvent K_atomic warp_id AtomicAdd (carry_idx c) (carry_val c)].

Definition spmv_coo_flat_atomic_kernel (BLOCK_SIZE num_blocks : nat)
    (UseCache : bool) (x_tex : list T) (num_entries interval_size : nat)
    (I J : list Z) (V x : list T) : list (Event T) :=
  mjoin (tab (num_blocks * (BLOCK_SIZE / 32))
           (atomic_warp UseCache x_tex num_entries interval_size I J V x)).

(** ** Level 2: the carry buffer *)

(** One pass of the [while] loop of [spmv_coo_reduce_update_kernel] for the
    [BLOCK_SIZE] threads of the block; [base] is the [i] of thread 0, thread
    [t] works on carry [base + t].  [rows] has the sentinel [-1] in its last
    cell; the last cell of [vals] is never read and is left out. *)
Definition reduce_full_block (BLOCK_SIZE base : nat) (temp_rows : list Z)
    (temp_vals : list T) : list (Event T) :=
  let rows := tab BLOCK_SIZE (fun t => ldi temp_rows (base + t)) ++ [(-1)%Z] in
  let vals := tab BLOCK_SIZE (fun t => ld temp_vals (base + t)) in
  let vals := segreduce_block rows vals in
  mjoin (tab BLOCK_SIZE (fun t =>
    if bool_decide (ldi rows t <> ldi rows (t + 1))
    then [mkEvent K_reduce (base + t) PlainAdd (ldi rows t) (ld vals t)]
    else [])).

(** The block after the loop, when [end < num_warps]: the shared arrays as
    the threads fill them, a carry in the lanes with [i < num_warps], the
    sentinel row [-1] and the value [0] in the others. *)
Definition partial_rows (BLOCK_SIZE base num_warps : nat) (temp_rows : list Z)
    : list Z :=
  tab BLOCK_SIZE (fun t =>
    if bool_decide (base + t < num_warps)
    then ldi temp_rows (base + t) else (-1)%Z) ++ [(-1)%Z].

Definition partial_vals (BLOCK_SIZE base num_warps : nat) (temp_vals : list T)
    : list T :=
  tab BLOCK_SIZE (fun t =>
    if bool_decide (base + t < num_warps)
    then ld temp_vals (base + t) else vzero).

Definition reduce_partial_block (BLOCK_SIZE base num_warps : nat)
    (temp_rows : list Z) (temp_vals : list T) : list (Event T) :=
  let rows := partial_rows BLOCK_SIZE base num_warps temp_rows in
  let vals := partial_vals BLOCK_SIZE base num_warps temp_vals in
  let vals := segreduce_block rows vals in
  mjoin (tab BLOCK_SIZE (fun t =>
    if bool_decide (base + t < num_warps)
    then if bool_decide (ldi rows t <> ldi rows (t + 1))
         then [mkEvent K_reduce (base + t) PlainAdd (ldi rows t) (ld vals t)]
         else []
    else [])).

(** [while (i < end) { ...; i += BLOCK_SIZE; }], returning the writes and the
    [i] of thread 0 at the exit. *)
Fixpoint reduce_loop (fuel BLOCK_SIZE i end_ : nat) (temp_rows : list Z)
    (temp_vals : list T) : list (Event T) * nat :=
  match fuel with
  | 0 => ([], i)
  | S fuel' =>
      if bool_decide (i < end_) then
        let ev := reduce_full_block BLOCK_SIZE i temp_rows temp_vals in
        let '(evs, i') :=
          reduce_loop fuel' BLOCK_SIZE (i + BLOCK_SIZE) end_ temp_rows temp_vals in
        (ev ++ evs, i')
      else ([], i)
  end.

Definition spmv_coo_reduce_update_kernel (BLOCK_SIZE num_warps : nat)
    (temp_rows : list Z) (temp_vals : list T) : list (Event T) :=
  let end_ := num_warps - Nat.land num_warps (BLOCK_SIZE - 1) in
  let '(ev, i) := reduce_loop end_ BLOCK_SIZE 0 end_ temp_rows temp_vals in
  if bool_decide (end_ < num_warps)
  then ev ++ reduce_partial_block BLOCK_SIZE i num_warps temp_rows temp_vals
  else ev.

(** [spmv_coo_scatter_update_kernel]: thread [t] walks [i = t, t + BLOCK_SIZE,
    ...]; pass by pass and thread by thread this is [i = 0, 1, ...]. *)
Definition spmv_coo_scatter_update_kernel (BLOCK_SIZE num_warps : nat)
    (temp_rows : list Z) (temp_vals : list T) : list (Event T) :=
  tab num_warps (fun i =>
    mkEvent K_scatter i PlainAdd (ldi temp_rows i) (ld temp_vals i)).

End Generic.

(** ** The matrix *)

Record coo_matrix (T : Type) := mkCoo {
  num_rows : Z;
  num_cols : Z;
  num_entries : Z;
  row_indices : list Z;
  column_indices : list Z;
  values : list T
}.
Arguments mkCoo {T}.
Arguments num_rows {T}.
Arguments num_cols {T}.
Arguments num_entries {T}.
Arguments row_indices {T}.
Arguments column_indices {T}.
Arguments values {T}.

Fixpoint nondecreasing (l : list Z) : bool :=
  match l with
  | a :: l' =>
      match l' with
      | b :: _ => (a <=? b)%Z && nondecreasing l'
      | [] => true
      end
  | [] => true
  end.

(** The contract of the input (spec 3): the three arrays have [num_entries]
    cells, the row indices are non-negative and non-decreasing. *)
Definition sorted_coo {T} (A : coo_matrix T) : bool :=
  bool_decide (Z.of_nat (length (row_indices A)) = num_entries A)
  && bool_decide (Z.of_nat (length (column_indices A)) = num_entries A)
  && bool_decide (Z.of_nat (length (values A)) = num_entries A)
  && forallb (fun r => (0 <=? r)%Z) (row_indices A)
  && nondecreasing (row_indices A).

(** ** Host side: the launch planner and the two drivers *)

(** Modelled from the spec: the macro [WARP_SIZE] lives in
    cusp/device/common.h, which is not part of the sources at hand.  The spec
    (4.1) has a fixed group width, 32 in its examples; the kernels at hand
    compare [thread_lane] with the literal 31 and reduce a warp in the five
    steps 1, 2, 4, 8, 16. *)
Definition WARP_SIZE : Z := 32.

Definition u32 (z : Z) : Z := (z mod 2 ^ 32)%Z.

(** Conversion of an [unsigned int] to a 32-bit [IndexType]. *)
Definition s32 (z : Z) : Z := ((z + 2 ^ 31) mod 2 ^ 32 - 2 ^ 31)%Z.

(** Modelled from the spec: the macro [DIVIDE_INTO] lives in
    cusp/device/utils.h, which is not part of the sources at hand.  The spec
    (4.1) has it round the quotient up; on [unsigned int] operands that is
    [(x + y - 1) / y]. *)
Definition DIVIDE_INTO (x y : Z) : Z := (u32 (x + y - 1) / y)%Z.

Record Plan := mkPlan {
  num_units : Z;
  num_warps : Z;
  num_blocks : Z;
  num_iters : Z;
  interval_size : Z;
  tail : Z
}.

(** The sizing lines shared by [__spmv_coo_flat] and
    [__spmv_coo_flat_atomic]; the two differ in [BLOCK_SIZE] and
    [MAX_BLOCKS]. *)
Definition launch_plan (BLOCK_SIZE MAX_BLOCKS n_entries : Z) : Plan :=
  let WARPS_PER_BLOCK := (BLOCK_SIZE / WARP_SIZE)%Z in
  let num_units := u32 (n_entries `quot` WARP_SIZE) in
  let num_warps := Z.min num_units (u32 (WARPS_PER_BLOCK * MAX_BLOCKS)) in
  let num_blocks := DIVIDE_INTO num_warps WARPS_PER_BLOCK in
  let num_iters := DIVIDE_INTO num_units num_warps in
  let interval_size := u32 (WARP_SIZE * num_iters) in
  let tail := s32 (u32 (num_units * WARP_SIZE)) in
  mkPlan num_units num_warps num_blocks num_iters interval_size tail.

(** [const bool host_method = false;] in [__spmv_coo_flat]. *)
Definition host_method : bool := false.

Section Host.
Context {T : Type} `{ValueOps T}.

(** [MAX_THREADS] is a macro of cusp/device/utils.h, which is not part of the
    sources at hand; the drivers take it as a parameter. *)
Variable MAX_THREADS : Z.

(** Device memory seen by the drivers: the output vector, and the record of
    the accumulations made into it. *)
Record Device := mkDevice {
  dev_y : list T;
  dev_log : list (Event T)
}.

(** A kernel launch on the stream: its accumulations reach [y] before the
    next launch starts. *)
Definition launch (evs : list (Event T)) (d : Device) : Device :=
  mkDevice (replay evs (dev_y d)) (dev_log d ++ evs).

(** Modelled from the spec: [new_device_array] lives in cusp/memory.h, which
    is not part of the sources at hand.  The spec (6) has a device-memory
    allocator for the transient carry buffer; the array of [n] cells it
    returns is filled with [a] here. *)
Definition new_device_array {A} (a : A) (n : nat) : list A := replicate n a.

Definition memcpy_to_device {A} (dst src : list A) (n : nat) : list A :=
  take n src ++ drop n dst.

(** The merge loop of the [host_method] branch: returns the two host arrays
    and [unique_rows] after its final increment. *)
Definition host_merge (active_warps : nat) (h_temp_rows : list Z)
    (h_temp_vals : list T) : list Z * list T * nat :=
  let st :=
    foldl (fun st start =>
             let r := st.1.1 in
             let v := st.1.2 in
             let unique_rows := st.2 in
             if bool_decide (ldi r unique_rows = ldi r start)
             then (r, <[unique_rows := vadd (ld v unique_rows) (ld v start)]> v,
                   unique_rows)
             else (<[S unique_rows := ldi r start]> r,
                   <[S unique_rows := ld v start]> v,
                   S unique_rows))
          (h_temp_rows, h_temp_vals, 0)
          (seq 1 (active_warps - 1)) in
  (st.1.1, st.1.2, S st.2).

(** The [host_method] branch of [__spmv_coo_flat]. *)
Definition level2_host (active_warps : nat) (temp_rows : list Z)
    (temp_vals : list T) : list (Event T) :=
  let m := host_merge active_warps temp_rows temp_vals in
  let unique_rows := m.2 in
  let temp_rows := memcpy_to_device temp_rows m.1.1 unique_rows in
  let temp_vals := memcpy_to_device temp_vals m.1.2 unique_rows in
  spmv_coo_scatter_update_kernel 512 unique_rows temp_rows temp_vals.

Definition __spmv_coo_flat (UseCache : bool) (d_coo : coo_matrix T)
    (d_x : list T) (dev : Device) : Device :=
  if bool_decide (num_entries d_coo = 0)%Z then dev
  else if bool_decide (num_entries d_coo < WARP_SIZE)%Z then
    launch (spmv_coo_serial_kernel (Z.to_nat (num_entries d_coo))
              (row_indices d_coo) (column_indices d_coo) (values d_coo) d_x) dev
  else
    let BLOCK_SIZE := 256%Z in
    let MAX_BLOCKS := (u32 MAX_THREADS / u32 (2 * BLOCK_SIZE))%Z in
    let p := launch_plan BLOCK_SIZE MAX_BLOCKS (num_entries d_coo) in
    let active_warps :=
      if bool_decide (interval_size p = 0)%Z then 0%Z
      else DIVIDE_INTO (u32 (tail p)) (interval_size p) in
    let x_tex := if UseCache then bind_x d_x else [] in
    let temp_rows := new_device_array 0%Z (Z.to_nat active_warps) in
    let temp_vals := new_device_array vzero (Z.to_nat active_warps) in
    let k1 :=
      spmv_coo_flat_kernel 256 (Z.to_nat (num_blocks p)) UseCache x_tex
        (Z.to_nat (tail p)) (Z.to_nat (interval_size p))
        (row_indices d_coo) (column_indices d_coo) (values d_coo) d_x
        temp_rows temp_vals in
    let dev := launch k1.1 dev in
    let dev :=
      launch (spmv_coo_serial_kernel (Z.to_nat (num_entries d_coo - tail p))
                (drop (Z.to_nat (tail p)) (row_indices d_coo))
                (drop (Z.to_nat (tail p)) (column_indices d_coo))
                (drop (Z.to_nat (tail p)) (values d_coo)) d_x) dev in
    if host_method
    then launch (level2_host (Z.to_nat active_warps) k1.2.1 k1.2.2) dev
    else launch (spmv_coo_reduce_update_kernel 512 (Z.to_nat active_warps)
                   k1.2.1 k1.2.2) dev.

Definition __spmv_coo_flat_atomic (UseCache : bool) (d_coo : coo_matrix T)
    (d_x : list T) (dev : Device) : Device :=
  if bool_decide (num_entries d_coo = 0)%Z then dev
  else if bool_decide (num_entries d_coo < WARP_SIZE)%Z then
    launch (spmv_coo_serial_kernel (Z.to_nat (num_entries d_coo))
              (row_indices d_coo) (column_indices d_coo) (values d_coo) d_x) dev
  else
    let BLOCK_SIZE := 128%Z in
    let MAX_BLOCKS := (u32 (4 * MAX_THREADS) / BLOCK_SIZE)%Z in
    let p := launch_plan BLOCK_SIZE MAX_BLOCKS (num_entries d_coo) in
    let x_tex := if UseCache then bind_x d_x else [] in
    let dev :=
      launch (spmv_coo_flat_atomic_kernel 128 (Z.to_nat (num_blocks p)) UseCache
                x_tex (Z.to_nat (tail p)) (Z.to_nat (interval_size p))
                (row_indices d_coo) (column_indices d_coo) (values d_coo) d_x)
             dev in
    launch (spmv_coo_serial_kernel (Z.to_nat (num_entries d_coo - tail p))
              (drop (Z.to_nat (tail p)) (row_indices d_coo))
              (drop (Z.to_nat (tail p)) (column_indices d_coo))
              (drop (Z.to_nat (tail p)) (values d_coo)) d_x) dev.

Definition spmv_coo_flat := __spmv_coo_flat false.
Definition spmv_coo_flat_tex := __spmv_coo_flat true.
Definition spmv_coo_flat_atomic := __spmv_coo_flat_atomic false.
Definition spmv_coo_flat_atomic_tex := __spmv_coo_flat_atomic true.

(** The serial reference: the sum, over the entries of row [r] in the order
    of the arrays, of [val * x[col]]. *)
Definition row_sum (d_coo : coo_matrix T) (d_x : list T) (r : Z) : T :=
  vsum ((fun n => vmul (ld (values d_coo) n)
                       (ldz d_x (ldi (column_indices d_coo) n)))
        <$> filter (fun n => ldi (row_indices d_coo) n = r)
              (seq 0 (Z.to_nat (num_entries d_coo)))).

End Host.

(** * Vocabulary of the statements *)

Section Vocabulary.
Context {T : Type} `{ValueOps T}.

(** Equal keys are adjacent among the first [n] cells. *)
Definition contiguous (n : nat) (idx : list Z) : Prop :=
  forall i j k, i <= j -> j <= k -> k < n ->
    ldi idx i = ldi idx k -> ldi idx j = ldi idx k.

Definition same_row (idx : list Z) (val : list T) (t j : nat) : T :=
  if bool_decide (ldi idx j = ldi idx t) then ld val j else vzero.

(** The sum over the window of [w] lanes that ends at lane [t]. *)
Definition window (idx : list Z) (val : list T) (t w : nat) : T :=
  vsum (same_row idx val t <$> seq (S t - w) (S t - (S t - w))).

(** The sum of the values of the lanes up to and including [t] that share
    the key of lane [t]. *)
Definition seg_sum (idx : list Z) (val : list T) (t : nat) : T :=
  vsum (ld val <$> filter (fun j => ldi idx j = ldi idx t) (seq 0 (S t))).

(** The same sum with a zero for every lane of another key. *)
Definition seg_total (idx : list Z) (val : list T) (t : nat) : T :=
  vsum (same_row idx val t <$> seq 0 (S t)).

(** The lanes [0 .. m) that hold row [r], summed. *)
Definition lane_total (idx : list Z) (val : list T) (r : Z) (m : nat) : T :=
  vsum ((fun j => if bool_decide (ldi idx j = r) then ld val j else vzero)
        <$> seq 0 m).

(** The writes of lanes [0 .. m): lane [l] writes [mk l] when its row
    differs from the row of its right neighbour. *)
Definition flushes (idx : list Z) (mk : nat -> Event T) (m : nat)
    : list (Event T) :=
  mjoin (tab m (fun l =>
    if bool_decide (ldi idx l <> ldi idx (l + 1)) then [mk l] else [])).

(** The product computed for entry [n], and the sum of these products over
    the entries [lo .. lo + len) of row [r]. *)
Definition entry_term (UseCache : bool) (x_tex : list T) (J : list Z)
    (V x : list T) (n : nat) : T :=
  vmul (ld V n) (fetch_x UseCache x_tex (ldi J n) x).

Definition range_total (UseCache : bool) (x_tex : list T) (I J : list Z)
    (V x : list T) (r : Z) (lo len : nat) : T :=
  vsum ((fun n => if bool_decide (ldi I n = r)
                  then entry_term UseCache x_tex J V x n else vzero)
        <$> seq lo len).

(** What a carry holds for row [r]. *)
Definition carry_at (r : Z) (c : Carry) : T :=
  if bool_decide (carry_idx c = r) then carry_val c else vzero.

(** The carries [lo .. lo + len) of row [r], summed. *)
Definition carry_total (temp_rows : list Z) (temp_vals : list T) (r : Z)
    (lo len : nat) : T :=
  vsum ((fun w => if bool_decide (ldi temp_rows w = r)
                  then ld temp_vals w else vzero)
        <$> seq lo len).

(** What the spec (4.1) says of a plan [p] for [n_entries] entries, warps of
    width [W] and at most [U] warps: the number of full warps, the active
    warps, the rounded-up number of strides per warp, the interval, the
    tail, and fewer than [W] entries after the tail. *)
Definition plan_as_specified (W U n_entries : Z) (p : Plan) : Prop :=
  (num_units p = n_entries / W
   /\ num_warps p = Z.min (num_units p) U
   /\ num_iters p = (num_units p + num_warps p - 1) / num_warps p
   /\ (num_iters p - 1) * num_warps p < num_units p <= num_iters p * num_warps p
   /\ interval_size p = W * num_iters p
   /\ tail p = num_units p * W
   /\ 0 <= n_entries - tail p < W)%Z.

End Vocabulary.

(** ** Entry tags *)

(** The matrix [A] with the value of entry [n] replaced by the tag of [n].
    Run on it with an empty vector, a driver records in every accumulation
    the entries that went into it. *)
Definition tagged {T} (A : coo_matrix T) : coo_matrix (gmultiset nat) :=
  mkCoo (num_rows A) (num_cols A) (num_entries A)
    (row_indices A) (column_indices A)
    (tab (Z.to_nat (num_entries A)) (fun n => {[+ n +]})).

(** The value that stands for a multiset of entries: the sum of their
    products [val * x[col]]. *)
Definition entry_sum {T} `{ValueOps T} (A : coo_matrix T) (d_x : list T)
    (m : gmultiset nat) : T :=
  vsum ((fun n => vmul (ld (values A) n) (ldz d_x (ldi (column_indices A) n)))
        <$> elements m).

(** Two accumulations, of two runs over different value types, that agree
    on everything but the value, with the values related by [R]. *)
Definition ev_rel {T1 T2} (R : T1 -> T2 -> Prop) (e1 : Event T1)
    (e2 : Event T2) : Prop :=
  ev_kernel e1 = ev_kernel e2 /\ ev_unit e1 = ev_unit e2
  /\ ev_kind e1 = ev_kind e2 /\ ev_row e1 = ev_row e2
  /\ R (ev_val e1) (ev_val e2).

(** ** The level-2 policy *)

(** The number of carries the deferred driver allocates for [n_entries]
    entries ([active_warps] in [__spmv_coo_flat]). *)
Definition carry_buffer_size (MAX_THREADS n_entries : Z) : Z :=
  let p := launch_plan 256 (u32 MAX_THREADS / u32 (2 * 256)) n_entries in
  if bool_decide (interval_size p = 0)%Z then 0%Z
  else DIVIDE_INTO (u32 (tail p)) (interval_size p).

(** A run has used a kernel when its log has an accumulation of it. *)
Definition kernel_used {T} (k : Kernel) (log : list (Event T)) : Prop :=
  exists e, e ∈ log /\ ev_kernel e = k.

(** ** Concrete inputs *)

(** The 3 x 3 matrix of the spec (8): entries (0,0,2), (0,1,3), (1,1,4),
    (2,0,1), (2,2,5). *)
Definition example_coo : coo_matrix Z :=
  mkCoo 3 3 5 [0; 0; 1; 2; 2]%Z [0; 1; 1; 0; 2]%Z [2; 3; 4; 1; 5]%Z.

(** A matrix with [n] entries, twelve to a row, over five columns. *)
Definition sample_coo (n : nat) : coo_matrix Z :=
  mkCoo 10 5 (Z.of_nat n)
    (tab n (fun k => Z.of_nat (k / 12)))
    (tab n (fun k => Z.of_nat (k mod 5)))
    (tab n (fun k => Z.of_nat k + 1)%Z).

Definition sample_x : list Z := [1; 2; 3; 4; 5]%Z.

Definition sample_dev : Device := mkDevice (replicate 10 0%Z) [].


(** ** Vocabulary of the further properties *)

(** The rows of a sequence of accumulations grow strictly: no row is
    written twice. *)
Definition rows_increasing {T} (evs : list (Event T)) : Prop :=
  forall i j e1 e2, i < j -> evs !! i = Some e1 -> evs !! j = Some e2 ->
    (ev_row e1 < ev_row e2)%Z.

(** A launch of a level-1 kernel keeps its index arithmetic inside the
    signed 32-bit [IndexType]: [num_entries], every [thread_id] and every
    [begin + interval_size] of the grid, the largest being that of lane 31
    of the last warp, are below [2^31].  For such a launch the natural
    numbers of [thread_begin] and [thread_end] are the values the source
    computes. *)
Definition fits_IndexType (BLOCK_SIZE num_blocks num_entries interval_size : nat)
    : bool :=
  (Z.of_nat num_entries <? 2 ^ 31)%Z
  && (Z.of_nat (num_blocks * BLOCK_SIZE) <? 2 ^ 31)%Z
  && (Z.of_nat (thread_begin (num_blocks * (BLOCK_SIZE / 32) - 1) interval_size 31
                + interval_size) <? 2 ^ 31)%Z.

(** [begin] and [end] as the source computes them: the product, the sums
    and the minimum in the signed 32-bit [IndexType], a result out of range
    wrapped around as the device does. *)
Definition thread_begin32 (warp_id interval_size thread_lane : Z) : Z :=
  s32 (s32 (warp_id * interval_size) + thread_lane).

Definition thread_end32 (begin interval_size num_entries : Z) : Z :=
  Z.min (s32 (begin + interval_size)) num_entries.

(** [__spmv_coo_flat] with the two arrays of the carry buffer as the
    allocator hands them out.  The source does not fill them before the
    level-1 kernel runs, so what the level-2 kernel finds in a cell that no
    warp has written is whatever the memory held: [fresh_rows n] and
    [fresh_vals n] are the contents of a fresh array of [n] cells.
    [__spmv_coo_flat] is the run that finds zeros. *)
Definition __spmv_coo_flat_fresh {T} `{ValueOps T} (MAX_THREADS : Z)
    (fresh_rows : nat -> list Z) (fresh_vals : nat -> list T)
    (UseCache : bool) (d_coo : coo_matrix T) (d_x : list T) (dev : Device)
    : Device :=
  if bool_decide (num_entries d_coo = 0)%Z then dev
  else if bool_decide (num_entries d_coo < WARP_SIZE)%Z then
    launch (spmv_coo_serial_kernel (Z.to_nat (num_entries d_coo))
              (row_indices d_coo) (column_indices d_coo) (values d_coo) d_x) dev
  else
    let BLOCK_SIZE := 256%Z in
    let MAX_BLOCKS := (u32 MAX_THREADS / u32 (2 * BLOCK_SIZE))%Z in
    let p := launch_plan BLOCK_SIZE MAX_BLOCKS (num_entries d_coo) in
    let active_warps :=
      if bool_decide (interval_size p = 0)%Z then 0%Z
      else DIVIDE_INTO (u32 (tail p)) (interval_size p) in
    let x_tex := if UseCache then bind_x d_x else [] in
    let temp_rows := fresh_rows (Z.to_nat active_warps) in
    let temp_vals := fresh_vals (Z.to_nat active_warps) in
    let k1 :=
      spmv_coo_flat_kernel 256 (Z.to_nat (num_blocks p)) UseCache x_tex
        (Z.to_nat (tail p)) (Z.to_nat (interval_size p))
        (row_indices d_coo) (column_indices d_coo) (values d_coo) d_x
        temp_rows temp_vals in
    let dev := launch k1.1 dev in
    let dev :=
      launch (spmv_coo_serial_kernel (Z.to_nat (num_entries d_coo - tail p))
                (drop (Z.to_nat (tail p)) (row_indices d_coo))
                (drop (Z.to_nat (tail p)) (column_indices d_coo))
                (drop (Z.to_nat (tail p)) (values d_coo)) d_x) dev in
    if host_method
    then launch (level2_host (Z.to_nat active_warps) k1.2.1 k1.2.2) dev
    else launch (spmv_coo_reduce_update_kernel 512 (Z.to_nat active_warps)
                   k1.2.1 k1.2.2) dev.

(** * The test assertions (testing/unittest/assertions.h) *)

(** A [double] is a binary64 number of the kernel ([float]); every
    operation of the source is one IEEE operation rounded to nearest, which
    is what a compiler emits when it neither fuses a multiplication with an
    addition nor keeps intermediate results in a wider format. *)

Module unittest.

(** The literal [1e-4] denotes the binary64 number nearest to it. *)
Definition DEFAULT_RELATIVE_TOL : float := 0x1.a36e2eb1c432dp-14.
Definition DEFAULT_ABSOLUTE_TOL : float := 0x1.a36e2eb1c432dp-14.

Definition MAX_OUTPUT_LINES : nat := 10.

(** [abs] at [T = double]: [x > 0 ? x : -x]. *)
Definition abs (x : float) : float :=
  if (0 <? x)%float then x else (- x)%float.

Definition almost_equal (a b a_tol r_tol : float) : bool :=
  if (r_tol * (abs a + abs b) + a_tol <? abs (a - b))%float then false else true.

(** [UnitTestFailure] and its [operator<<] live in unittest/exceptions.h,
    which is not part of the sources at hand: a failure is represented by
    the sequence of the operands streamed into it with [<<], each a string,
    a [size_t], an [int] or an element of the sequences. *)
Inductive piece (A : Type) :=
  | text (s : string)
  | index (n : nat)
  | lineno (z : Z)
  | element (a : A).
Arguments text {A}.
Arguments index {A}.
Arguments lineno {A}.
Arguments element {A}.

(** How a call ends: it returns, it throws a [UnitTestFailure] with the
    message streamed so far, or it reads the second sequence past its end
    (undefined behaviour in the source, which has no end iterator for it). *)
Inductive outcome (A : Type) :=
  | returned
  | thrown (f : list (piece A))
  | out_of_range.
Arguments returned {A}.
Arguments thrown {A}.
Arguments out_of_range {A}.

Definition nl : string := String (Ascii.ascii_of_nat 10) EmptyString.

(** The [while (first1 != last1)] loop of the sequence [assert_equal]. *)
Fixpoint assert_equal_loop {A} (op : A -> A -> bool) (l1 l2 : list A)
    (i mismatches : nat) (f : list (piece A))
    : option (nat * nat * list (piece A)) :=
  match l1 with
  | [] => Some (i, mismatches, f)
  | a :: l1' =>
      match l2 with
      | [] => None
      | b :: l2' =>
          if negb (op a b) then
            let mismatches := S mismatches in
            let f :=
              if bool_decide (mismatches <= MAX_OUTPUT_LINES)
              then f ++ [text "  ["; index i; text "] "; element a; text "  ";
                         element b; text nl]
              else f in
            assert_equal_loop op l1' l2' (S i) mismatches f
          else assert_equal_loop op l1' l2' (S i) mismatches f
      end
  end.

(** [assert_equal(first1, last1, first2, op, filename, lineno)]; the name of
    the element type, [type_name<InputType>()] of unittest/util.h, is the
    argument [type_name]. *)
Definition assert_equal {A} (op : A -> A -> bool) (l1 l2 : list A)
    (filename : string) (line : Z) (type_name : string) : outcome A :=
  let f := [text "["; text filename; text ":"; lineno line; text "] ";
            text "Sequences are not equal [type='"; text type_name;
            text ("']" +:+ nl);
            text ("--------------------------------" +:+ nl)] in
  match assert_equal_loop op l1 l2 0 0 f with
  | None => out_of_range
  | Some (i, mismatches, f) =>
      if bool_decide (0 < mismatches) then
        let f := if bool_decide (MAX_OUTPUT_LINES < mismatches)
                 then f ++ [text ("  (output limit reached)" +:+ nl)] else f in
        let f := f ++ [text ("--------------------------------" +:+ nl)] in
        let f := f ++ [text "Sequences differ at "; index mismatches;
                       text " of "; index i; text " positions"; text nl] in
        thrown f
      else returned
  end.

(** The sequence [assert_almost_equal]: [assert_equal] with the functor
    [almost_equal_to<InputType>(a_tol, r_tol)], at [InputType = double]. *)
Definition assert_almost_equal (l1 l2 : list float) (filename : string)
    (line : Z) (type_name : string) (a_tol r_tol : float) : outcome float :=
  assert_equal (fun a b => almost_equal a b a_tol r_tol) l1 l2
    filename line type_name.

End unittest.

(** ** Vocabulary for binary64 numbers *)

(** Zero of either sign, a positive number, plus infinity or a NaN. *)
Definition sf_nonneg (f : spec_float) : bool :=
  match f with
  | S754_zero _ | S754_nan => true
  | S754_infinity s | S754_finite s _ _ => negb s
  end.

(** Plus infinity or a NaN. *)
Definition sf_top (f : spec_float) : bool :=
  match f with
  | S754_infinity false | S754_nan => true
  | _ => false
  end.

(** What [unittest.abs] does to a number. *)
Definition sf_abs (f : spec_float) : spec_float :=
  match f with
  | S754_zero s => S754_zero (negb s)
  | S754_infinity _ => S754_infinity false
  | S754_nan => S754_nan
  | S754_finite _ m e => S754_finite false m e
  end.

(** The positions where two sequences differ under [op], with the two
    elements found there. *)
Definition mismatch_list {A} (op : A -> A -> bool) (l1 l2 : list A)
    : list (nat * (A * A)) :=
  filter (fun p => op p.2.1 p.2.2 = false) (imap (fun i ab => (i, ab)) (zip l1 l2)).

(** The line of the report for one of them. *)
Definition mismatch_line {A} (p : nat * (A * A)) : list (unittest.piece A) :=
  [unittest.text "  ["; unittest.index p.1; unittest.text "] ";
   unittest.element p.2.1; unittest.text "  "; unittest.element p.2.2;
   unittest.text unittest.nl].

(** * Properties *)

#[export] Instance Z_laws : ValueLaws Z.
Proof. split; intros; simpl; lia. Qed.

#[export] Instance tag_laws : ValueLaws (gmultiset nat).
Proof. split; intros; simpl; multiset_solver. Qed.


(** ** The launch planner *)

Lemma u32_small z : (0 <= z < 2 ^ 32)%Z -> u32 z = z.
Proof. intros Hz. unfold u32. apply Z.mod_small. exact Hz. Qed.

Lemma s32_small z : (0 <= z < 2 ^ 31)%Z -> s32 z = z.
Proof. intros Hz. unfold s32. rewrite Z.mod_small by lia. lia. Qed.

Lemma below_2_30 z : (z < 2 ^ 30)%Z -> (z < 2 ^ 31)%Z.
Proof.
  change (2 ^ 30)%Z with 1073741824%Z. change (2 ^ 31)%Z with 2147483648%Z. lia.
Qed.

Lemma DIVIDE_INTO_spec x y :
  (0 <= x)%Z -> (0 < y)%Z -> (x + y - 1 < 2 ^ 32)%Z ->
  (DIVIDE_INTO x y = (x + y - 1) / y
   /\ x <= DIVIDE_INTO x y * y < x + y)%Z.
Proof.
  intros Hx Hy Hb. unfold DIVIDE_INTO. rewrite u32_small by lia.
  split; [reflexivity|].
  pose proof (Z.div_mod (x + y - 1) y ltac:(lia)) as Hdm.
  pose proof (Z.mod_pos_bound (x + y - 1) y Hy) as Hm.
  nia.
Qed.

(** The quantities computed by the sizing lines, for an entry count that
    fills at least one warp and a positive warp limit [U]. *)
Lemma launch_plan_spec BLOCK_SIZE MAX_BLOCKS n_entries :
  (32 <= n_entries < 2 ^ 31)%Z ->
  (32 <= BLOCK_SIZE <= 1024)%Z ->
  (1 <= BLOCK_SIZE / 32 * MAX_BLOCKS < 2 ^ 31)%Z ->
  let p := launch_plan BLOCK_SIZE MAX_BLOCKS n_entries in
  let U := (BLOCK_SIZE / 32 * MAX_BLOCKS)%Z in
  (num_units p = n_entries / 32
   /\ num_warps p = Z.min (num_units p) U
   /\ num_iters p = (num_units p + num_warps p - 1) / num_warps p
   /\ num_units p <= num_iters p * num_warps p < num_units p + num_warps p
   /\ interval_size p = 32 * num_iters p
   /\ tail p = num_units p * 32
   /\ tail p <= n_entries < tail p + 32
   /\ 1 <= num_units p /\ 1 <= num_warps p /\ 1 <= num_iters p
   /\ num_iters p <= num_units p
   /\ num_warps p <= num_blocks p * (BLOCK_SIZE / 32)
   /\ 0 <= num_blocks p)%Z.
Proof.
  intros HN HB HU p U. unfold p, launch_plan, WARP_SIZE.
  cbn [num_units num_warps num_iters interval_size tail num_blocks].
  rewrite Z.quot_div_nonneg by lia.
  pose proof (Z.div_mod n_entries 32 ltac:(lia)) as Hdm.
  pose proof (Z.mod_pos_bound n_entries 32 ltac:(lia)) as Hm.
  set (u := (n_entries / 32)%Z) in *.
  assert (Hu : (1 <= u < 2 ^ 26)%Z) by (change (2 ^ 26)%Z with 67108864%Z;
    change (2 ^ 31)%Z with 2147483648%Z in HN; lia).
  rewrite (u32_small u) by lia.
  fold U. rewrite (u32_small U) by lia.
  set (nw := Z.min u U).
  assert (Hnw : (1 <= nw <= u)%Z) by lia.
  assert (HW : (1 <= BLOCK_SIZE / 32 <= 32)%Z).
  { split; [apply Z.div_le_lower_bound; lia | apply Z.div_le_upper_bound; lia]. }
  destruct (DIVIDE_INTO_spec u nw ltac:(lia) ltac:(lia) ltac:(lia)) as [Hq1 Hq2].
  destruct (DIVIDE_INTO_spec nw (BLOCK_SIZE / 32) ltac:(lia) ltac:(lia) ltac:(lia))
    as [Hb1 Hb2].
  set (q := DIVIDE_INTO u nw) in *.
  set (nb := DIVIDE_INTO nw (BLOCK_SIZE / 32)) in *.
  assert (Hq : (1 <= q <= u)%Z) by nia.
  rewrite (u32_small (32 * q)) by lia.
  rewrite (u32_small (u * 32)) by lia.
  rewrite s32_small by lia.
  repeat split; try lia; try nia.
Qed.

(** The warps that find work are those below [ceil(tail / interval_size)],
    and the grid has at least that many. *)
Lemma active_warps_spec u q :
  (1 <= q <= u)%Z -> (u < 2 ^ 26)%Z ->
  let A := DIVIDE_INTO (u32 (u * 32)) (32 * q) in
  (0 <= A /\ forall w, 0 <= w -> (w < A <-> w * (32 * q) < u * 32))%Z.
Proof.
  intros Hq Hu A. unfold A. rewrite u32_small by lia.
  destruct (DIVIDE_INTO_spec (u * 32) (32 * q) ltac:(lia) ltac:(lia) ltac:(lia))
    as [_ Ha].
  set (a := DIVIDE_INTO (u * 32) (32 * q)) in *.
  split; [nia|]. intros w Hw. split; intros Hlt; nia.
Qed.

(** The same quantities as positions in the arrays. *)
Lemma plan_geometry BLOCK_SIZE MAX_BLOCKS n_entries :
  (32 <= n_entries < 2 ^ 31)%Z ->
  (32 <= BLOCK_SIZE <= 1024)%Z ->
  (1 <= BLOCK_SIZE / 32 * MAX_BLOCKS < 2 ^ 31)%Z ->
  let p := launch_plan BLOCK_SIZE MAX_BLOCKS n_entries in
  exists u q : nat,
    0 < q /\ q <= u
    /\ Z.to_nat (tail p) = 32 * u
    /\ Z.to_nat (interval_size p) = 32 * q
    /\ tail p = (Z.of_nat u * 32)%Z
    /\ interval_size p = (32 * Z.of_nat q)%Z
    /\ 32 * u <= Z.to_nat n_entries < 32 * u + 32
    /\ Z.to_nat (n_entries - tail p) = Z.to_nat n_entries - 32 * u
    /\ 32 * u <= Z.to_nat (num_blocks p) * Z.to_nat (BLOCK_SIZE / 32) * (32 * q)
    /\ (Z.of_nat u < 2 ^ 26)%Z.
Proof.
  intros HN HB HU p.
  destruct (launch_plan_spec BLOCK_SIZE MAX_BLOCKS n_entries HN HB HU)
    as (Hu & Hnw & Hq & Hqw & His & Htl & Htn & Hu1 & Hw1 & Hq1 & Hqu & Hnb & Hnb0).
  fold p in Hu, Hnw, Hq, Hqw, His, Htl, Htn, Hu1, Hw1, Hq1, Hqu, Hnb, Hnb0.
  exists (Z.to_nat (num_units p)), (Z.to_nat (num_iters p)).
  assert (HW : (1 <= BLOCK_SIZE / 32)%Z) by (apply Z.div_le_lower_bound; lia).
  change (2 ^ 26)%Z with 67108864%Z. change (2 ^ 31)%Z with 2147483648%Z in HN.
  repeat split; try lia.
  assert (Hz : (num_units p <=
            num_blocks p * (BLOCK_SIZE / 32) * num_iters p)%Z) by nia.
  apply Nat2Z.inj_le. rewrite !Nat2Z.inj_mul, !Z2Nat.id by lia. lia.
Qed.
(** ** Arrays and sums *)

Lemma length_tab {A} n (f : nat -> A) : length (tab n f) = n.
Proof. unfold tab. rewrite length_fmap, length_seq. reflexivity. Qed.

Lemma lookup_tab {A} n (f : nat -> A) t : t < n -> tab n f !! t = Some (f t).
Proof.
  intros Ht. unfold tab. rewrite list_lookup_fmap, lookup_seq_lt by lia.
  reflexivity.
Qed.

Lemma ldi_tab n f t : t < n -> ldi (tab n f) t = f t.
Proof. intros Ht. unfold ldi. rewrite lookup_tab by lia. reflexivity. Qed.

Lemma tab_S {A} n (f : nat -> A) : tab (S n) f = tab n f ++ [f n].
Proof. unfold tab. rewrite seq_S, fmap_app. reflexivity. Qed.

Lemma ldi_insert_eq l i a : i < length l -> ldi (<[i := a]> l) i = a.
Proof. intros Hi. unfold ldi. rewrite list_lookup_insert_eq by lia. reflexivity. Qed.

Lemma ldi_insert_ne l i j a : i <> j -> ldi (<[i := a]> l) j = ldi l j.
Proof. intros Hi. unfold ldi. rewrite list_lookup_insert_ne by lia. reflexivity. Qed.

Lemma ldi_drop l n i : ldi (drop n l) i = ldi l (n + i).
Proof. unfold ldi. rewrite lookup_drop. reflexivity. Qed.

Lemma nondecreasing_step l i :
  nondecreasing l = true -> S i < length l -> (ldi l i <= ldi l (S i))%Z.
Proof.
  revert i. induction l as [|a l IH]; intros i Hs Hi; [simpl in Hi; lia|].
  destruct l as [|b l]; [simpl in Hi; lia|].
  simpl in Hs. apply andb_true_iff in Hs as [Hab Hs]. apply Z.leb_le in Hab.
  destruct i as [|i]; [exact Hab|].
  apply (IH i); [exact Hs | simpl in *; lia].
Qed.

Lemma nondecreasing_le l i j :
  nondecreasing l = true -> i <= j -> j < length l -> (ldi l i <= ldi l j)%Z.
Proof.
  intros Hs Hij. induction Hij as [|j Hij IH]; intros Hj; [lia|].
  etrans; [apply IH; lia|]. apply nondecreasing_step; [exact Hs|lia].
Qed.

(** ** The input contract *)

Lemma sorted_coo_spec {T} (A : coo_matrix T) :
  sorted_coo A = true ->
  Z.of_nat (length (row_indices A)) = num_entries A
  /\ Z.of_nat (length (column_indices A)) = num_entries A
  /\ Z.of_nat (length (values A)) = num_entries A
  /\ (forall n, n < length (row_indices A) -> (0 <= ldi (row_indices A) n)%Z)
  /\ (forall i j, i <= j -> j < length (row_indices A) ->
        (ldi (row_indices A) i <= ldi (row_indices A) j)%Z).
Proof.
  unfold sorted_coo. rewrite !andb_true_iff, !bool_decide_eq_true.
  intros [[[[HI HJ] HV] Hpos] Hs].
  repeat split; try assumption.
  - intros n Hn. destruct (lookup_lt_is_Some_2 _ _ Hn) as [r Hr].
    unfold ldi. rewrite Hr. simpl.
    rewrite forallb_forall in Hpos. apply Z.leb_le, Hpos.
    apply list_elem_of_In. eapply list_elem_of_lookup_2. exact Hr.
  - intros i j Hij Hj. apply nondecreasing_le; assumption.
Qed.

Section GenericFacts.
Context {T : Type} `{ValueLaws T}.

#[local] Instance vadd_aac_assoc : Associative eq vadd.
Proof. intros a b c. apply vadd_assoc. Qed.

#[local] Instance vadd_aac_comm : Commutative eq vadd.
Proof. intros a b. apply vadd_comm. Qed.

#[local] Instance vadd_aac_unit : Unit eq vadd vzero.
Proof.
  split; intros a; [apply vadd_zero_l | rewrite vadd_comm; apply vadd_zero_l].
Qed.

#[local] Instance vadd_aac_proper : Proper (eq ==> eq ==> eq) vadd.
Proof. intros a a' -> b b' ->. reflexivity. Qed.

#[local] Instance vadd_aac_lift : AAC_lift (@eq T) eq.
Proof. split; [apply _ | intros a a' -> b b' ->; reflexivity]. Qed.

Lemma vadd_zero_r (a : T) : vadd a vzero = a.
Proof. aac_reflexivity. Qed.

Lemma ld_tab n (f : nat -> T) t : t < n -> ld (tab n f) t = f t.
Proof. intros Ht. unfold ld. rewrite lookup_tab by lia. reflexivity. Qed.

Lemma ld_insert_eq (l : list T) i a : i < length l -> ld (<[i := a]> l) i = a.
Proof. intros Hi. unfold ld. rewrite list_lookup_insert_eq by lia. reflexivity. Qed.

Lemma ld_insert_ne (l : list T) i j a : i <> j -> ld (<[i := a]> l) j = ld l j.
Proof. intros Hi. unfold ld. rewrite list_lookup_insert_ne by lia. reflexivity. Qed.

Lemma ld_drop (l : list T) n i : ld (drop n l) i = ld l (n + i).
Proof. unfold ld. rewrite lookup_drop. reflexivity. Qed.

Lemma vsum_app (l k : list T) : vsum (l ++ k) = vadd (vsum l) (vsum k).
Proof.
  induction l as [|a l IH]; simpl; [aac_reflexivity|].
  unfold vsum in *. simpl. rewrite IH. aac_reflexivity.
Qed.

Lemma vsum_zero (l : list T) : Forall (fun a => a = vzero) l -> vsum l = vzero.
Proof.
  induction 1 as [|a l -> _ IH]; [reflexivity|].
  unfold vsum in *. simpl. rewrite IH. aac_reflexivity.
Qed.

Lemma vsum_fmap_zero {A} (f : A -> T) (l : list A) :
  (forall a, a ∈ l -> f a = vzero) -> vsum (f <$> l) = vzero.
Proof.
  intros Hf. apply vsum_zero. apply Forall_fmap.
  induction l as [|a l IH]; constructor.
  - apply Hf. left.
  - apply IH. intros b Hb. apply Hf. right. exact Hb.
Qed.

Lemma vsum_fmap_ext {A} (f g : A -> T) (l : list A) :
  (forall a, a ∈ l -> f a = g a) -> vsum (f <$> l) = vsum (g <$> l).
Proof.
  intros Hf. f_equal. apply list_fmap_ext. intros i a Ha. apply Hf.
  eapply list_elem_of_lookup_2. exact Ha.
Qed.

Lemma vsum_fmap_one {A} (f : A -> T) (a : A) : vsum (f <$> [a]) = f a.
Proof. unfold vsum. simpl. apply vadd_zero_r. Qed.

Lemma vsum_filter {A} (P : A -> Prop) `{forall a, Decision (P a)} (f : A -> T)
    (l : list A) :
  vsum (f <$> filter P l)
  = vsum ((fun a => if bool_decide (P a) then f a else vzero) <$> l).
Proof.
  induction l as [|a l IH]; [reflexivity|].
  rewrite filter_cons. cbn [fmap list_fmap].
  destruct (decide (P a)) as [Ha|Ha].
  - rewrite bool_decide_eq_true_2 by exact Ha.
    cbn [fmap list_fmap]. unfold vsum in *. simpl. rewrite IH. reflexivity.
  - rewrite bool_decide_eq_false_2 by exact Ha. unfold vsum in *. simpl.
    rewrite IH. aac_reflexivity.
Qed.

Lemma ev_total_nil r : ev_total r [] = vzero.
Proof. reflexivity. Qed.

Lemma ev_total_app r (e1 e2 : list (Event T)) :
  ev_total r (e1 ++ e2) = vadd (ev_total r e1) (ev_total r e2).
Proof. unfold ev_total. rewrite fmap_app. apply vsum_app. Qed.

Lemma ev_total_one r (e : Event T) :
  ev_total r [e] = if bool_decide (ev_row e = r) then ev_val e else vzero.
Proof. unfold ev_total, vsum. simpl. apply vadd_zero_r. Qed.

(** ** Replaying events *)

Lemma length_y_add (y : list T) r v : length (y_add y r v) = length y.
Proof. unfold y_add. case_bool_decide; [reflexivity | apply length_alter]. Qed.

Lemma length_replay (evs : list (Event T)) y : length (replay evs y) = length y.
Proof.
  revert y. induction evs as [|e evs IH]; intros y; [reflexivity|].
  unfold replay in *. simpl. rewrite IH. apply length_y_add.
Qed.

Lemma replay_app (e1 e2 : list (Event T)) y :
  replay (e1 ++ e2) y = replay e2 (replay e1 y).
Proof. unfold replay. apply foldl_app. Qed.

Lemma ld_y_add (y : list T) r v i :
  i < length y ->
  ld (y_add y r v) i =
  vadd (ld y i) (if bool_decide (r = Z.of_nat i) then v else vzero).
Proof.
  intros Hi. unfold y_add, ld.
  destruct (lookup_lt_is_Some_2 y i Hi) as [a Ha].
  case_bool_decide as Hneg.
  - rewrite bool_decide_eq_false_2 by lia. rewrite Ha. simpl.
    symmetry. apply vadd_zero_r.
  - destruct (decide (Z.to_nat r = i)) as [<-|Hne].
    + rewrite list_lookup_alter_eq, Ha. simpl.
      rewrite bool_decide_eq_true_2 by lia. reflexivity.
    + rewrite list_lookup_alter_ne by exact Hne. rewrite Ha. simpl.
      rewrite bool_decide_eq_false_2 by lia. symmetry. apply vadd_zero_r.
Qed.

(** What [replay] leaves in cell [i]: the old content plus the events of row
    [i], in the order of the log. *)
Lemma ld_replay (evs : list (Event T)) y i :
  i < length y ->
  ld (replay evs y) i = vadd (ld y i) (ev_total (Z.of_nat i) evs).
Proof.
  revert y. induction evs as [|e evs IH]; intros y Hi.
  - simpl. rewrite ev_total_nil. symmetry. apply vadd_zero_r.
  - change (e :: evs) with ([e] ++ evs). rewrite replay_app, ev_total_app.
    rewrite IH by (rewrite length_replay; exact Hi).
    unfold replay at 1. simpl. unfold apply_event.
    rewrite ld_y_add by exact Hi. rewrite ev_total_one. aac_reflexivity.
Qed.

(** ** The segmented scan *)

Lemma length_seg_step d idx (val : list T) :
  length (seg_step d idx val) = length val.
Proof. unfold seg_step. apply length_imap. Qed.

Lemma ld_seg_step d idx (val : list T) t :
  t < length val ->
  ld (seg_step d idx val) t =
  if bool_decide (d <= t) && bool_decide (ldi idx t = ldi idx (t - d))
  then vadd (ld val t) (ld val (t - d)) else ld val t.
Proof.
  intros Ht. unfold seg_step, ld at 1. rewrite list_lookup_imap.
  destruct (lookup_lt_is_Some_2 val t Ht) as [a Ha].
  unfold ld at 2 4. rewrite Ha. simpl. reflexivity.
Qed.

Lemma window_one idx (val : list T) t : window idx val t 1 = ld val t.
Proof.
  unfold window. replace (S t - 1) with t by lia.
  replace (S t - t) with 1 by lia. simpl. unfold same_row.
  rewrite bool_decide_eq_true_2 by reflexivity. unfold vsum. simpl.
  apply vadd_zero_r.
Qed.

Lemma seg_sum_total idx (val : list T) t : seg_sum idx val t = seg_total idx val t.
Proof. unfold seg_sum, seg_total. apply vsum_filter. Qed.

Lemma window_all idx (val : list T) t w :
  t < w -> window idx val t w = seg_total idx val t.
Proof.
  intros Ht. unfold window, seg_total.
  replace (S t - w) with 0 by lia. replace (S t - 0) with (S t) by lia.
  reflexivity.
Qed.

Lemma seg_step_window n w w2 idx (val0 val : list T) :
  0 < w -> w2 = 2 * w -> n <= length val -> contiguous n idx ->
  (forall t, t < n -> ld val t = window idx val0 t w) ->
  forall t, t < n -> ld (seg_step w idx val) t = window idx val0 t w2.
Proof.
  intros Hw -> Hlen Hc Hinv t Ht. rewrite ld_seg_step by lia.
  rewrite Hinv by lia.
  destruct (decide (w <= t)) as [Hwt|Hwt].
  - rewrite (bool_decide_eq_true_2 (w <= t)) by exact Hwt. cbn [andb].
    assert (Hsplit : window idx val0 t (2 * w) =
      vadd (vsum (same_row idx val0 t <$>
                    seq (S (t - w) - w) (S (t - w) - (S (t - w) - w))))
           (window idx val0 t w)).
    { unfold window. rewrite <- vsum_app, <- fmap_app. f_equal. f_equal.
      replace (S t - 2 * w) with (S (t - w) - w) by lia.
      replace (S t - (S (t - w) - w))
        with ((S (t - w) - (S (t - w) - w)) + (S t - (S t - w))) by lia.
      rewrite seq_app. f_equal. f_equal. lia. }
    rewrite Hsplit. case_bool_decide as Heq.
    + rewrite Hinv by lia. unfold window at 2.
      rewrite (vsum_fmap_ext (same_row idx val0 (t - w)) (same_row idx val0 t)).
      * aac_reflexivity.
      * intros j _. unfold same_row. rewrite Heq. reflexivity.
    + rewrite vsum_fmap_zero; [aac_reflexivity|].
      intros j Hj. apply elem_of_seq in Hj. unfold same_row.
      rewrite bool_decide_eq_false_2; [reflexivity|].
      intros Hjt. apply Heq. symmetry. apply (Hc j (t - w) t); [lia..|exact Hjt].
  - rewrite (bool_decide_eq_false_2 (w <= t)) by exact Hwt. cbn [andb].
    unfold window. replace (S t - 2 * w) with (S t - w) by lia. reflexivity.
Qed.

Lemma segreduce_warp_total n idx (val : list T) :
  n <= 32 -> n <= length val -> contiguous n idx ->
  forall t, t < n -> ld (segreduce_warp idx val) t = seg_total idx val t.
Proof.
  intros Hn Hlen Hc t Ht. rewrite <- (window_all idx val t 32) by lia.
  unfold segreduce_warp.
  repeat (first
    [ apply (seg_step_window n 1 _ idx val val);
        [lia | lia | exact Hlen | exact Hc
        | intros; symmetry; apply window_one | exact Ht]
    | eapply (seg_step_window n _ _ idx val);
        [lia | reflexivity | rewrite ?length_seg_step; exact Hlen | exact Hc
        | clear t Ht; intros t Ht | exact Ht] ]).
Qed.

Lemma segreduce_block_total n idx (val : list T) :
  n <= 512 -> n <= length val -> contiguous n idx ->
  forall t, t < n -> ld (segreduce_block idx val) t = seg_total idx val t.
Proof.
  intros Hn Hlen Hc t Ht. rewrite <- (window_all idx val t 512) by lia.
  unfold segreduce_block.
  repeat (first
    [ apply (seg_step_window n 1 _ idx val val);
        [lia | lia | exact Hlen | exact Hc
        | intros; symmetry; apply window_one | exact Ht]
    | eapply (seg_step_window n _ _ idx val);
        [lia | reflexivity | rewrite ?length_seg_step; exact Hlen | exact Hc
        | clear t Ht; intros t Ht | exact Ht] ]).
Qed.

(** ** Writing terminated rows *)

Lemma mjoin_tab_S {A} n (f : nat -> list A) :
  mjoin (tab (S n) f) = mjoin (tab n f) ++ f n.
Proof. rewrite tab_S, join_app. simpl. rewrite app_nil_r. reflexivity. Qed.

Lemma lane_total_S idx (val : list T) r m :
  lane_total idx val r (S m) =
  vadd (lane_total idx val r m)
       (if bool_decide (ldi idx m = r) then ld val m else vzero).
Proof.
  unfold lane_total. rewrite seq_S, fmap_app, vsum_app, vsum_fmap_one.
  reflexivity.
Qed.

Lemma seg_total_S_same idx (val : list T) m :
  ldi idx m = ldi idx (S m) ->
  seg_total idx val (S m) = vadd (seg_total idx val m) (ld val (S m)).
Proof.
  intros Heq. unfold seg_total.
  rewrite (seq_S (S m)), fmap_app, vsum_app, vsum_fmap_one, Nat.add_0_l.
  f_equal.
  - apply vsum_fmap_ext. intros j _. unfold same_row. rewrite Heq. reflexivity.
  - unfold same_row. rewrite bool_decide_eq_true_2 by reflexivity. reflexivity.
Qed.

Lemma seg_total_S_new n idx (val : list T) m :
  contiguous n idx -> S m < n -> ldi idx m <> ldi idx (S m) ->
  seg_total idx val (S m) = ld val (S m).
Proof.
  intros Hc Hm Hne. unfold seg_total.
  rewrite (seq_S (S m)), fmap_app, vsum_app, vsum_fmap_one, Nat.add_0_l.
  rewrite vsum_fmap_zero.
  - unfold same_row.
    rewrite bool_decide_eq_true_2 by reflexivity. aac_reflexivity.
  - intros j Hj. apply elem_of_seq in Hj. unfold same_row.
    rewrite bool_decide_eq_false_2; [reflexivity|].
    intros Hjm. apply Hne. apply (Hc j m (S m)); [lia..|exact Hjm].
Qed.

(** After the scan, the rows written by lanes [0 .. m) together with what
    lane [m] holds account for the first [m + 1] lanes, row by row. *)
Lemma flush_total n idx (val0 val : list T) (mk : nat -> Event T) :
  contiguous n idx ->
  (forall t, t < n -> ld val t = seg_total idx val0 t) ->
  (forall l, ev_row (mk l) = ldi idx l) ->
  (forall l, ev_val (mk l) = ld val l) ->
  forall m r, m < n ->
    vadd (ev_total r (flushes idx mk m))
         (if bool_decide (ldi idx m = r) then ld val m else vzero)
    = lane_total idx val0 r (S m).
Proof.
  intros Hc Hval Hrow Hv m r. induction m as [|m IH]; intros Hm.
  - unfold flushes. simpl. rewrite ev_total_nil, Hval by lia.
    unfold seg_total, lane_total. change (seq 0 1) with [0].
    rewrite !vsum_fmap_one. unfold same_row.
    rewrite (bool_decide_eq_true_2 (ldi idx 0 = ldi idx 0)) by reflexivity.
    case_bool_decide; aac_reflexivity.
  - rewrite (lane_total_S idx val0 r (S m)). rewrite <- IH by lia.
    unfold flushes. rewrite mjoin_tab_S. fold (flushes idx mk m). cbv beta.
    rewrite ev_total_app. replace (m + 1) with (S m) by lia.
    rewrite (Hval (S m)) by lia.
    destruct (decide (ldi idx m = ldi idx (S m))) as [He|Hne].
    + rewrite (bool_decide_eq_false_2 (ldi idx m <> ldi idx (S m))) by auto.
      rewrite ev_total_nil, seg_total_S_same by exact He.
      rewrite <- Hval by lia. rewrite He.
      destruct (bool_decide (ldi idx (S m) = r)); aac_reflexivity.
    + rewrite (bool_decide_eq_true_2 (ldi idx m <> ldi idx (S m))) by exact Hne.
      rewrite ev_total_one, Hrow, Hv.
      rewrite (seg_total_S_new n) by (auto; lia).
      reflexivity.
Qed.

(** ** One stride of a warp *)

Lemma lane_total_insert0 idx (val : list T) a r m :
  0 < length val ->
  lane_total idx (<[0 := vadd (ld val 0) a]> val) r (S m) =
  vadd (if bool_decide (ldi idx 0 = r) then a else vzero)
       (lane_total idx val r (S m)).
Proof.
  intros Hlen. unfold lane_total.
  change (seq 0 (S m)) with ([0] ++ seq 1 m).
  rewrite !fmap_app, !vsum_app, !vsum_fmap_one.
  rewrite (vsum_fmap_ext _
    (fun j => if bool_decide (ldi idx j = r) then ld val j else vzero) (seq 1 m)).
  - unfold ld at 1. rewrite list_lookup_insert_eq by exact Hlen. simpl.
    case_bool_decide; aac_reflexivity.
  - intros j Hj. apply elem_of_seq in Hj. unfold ld.
    rewrite list_lookup_insert_ne by lia. reflexivity.
Qed.

Lemma lane_total_tab UseCache x_tex I J (V x : list T) r n N :
  lane_total (tab N (fun l => ldi I (n + l)))
             (tab N (fun l => entry_term UseCache x_tex J V x (n + l))) r N
  = range_total UseCache x_tex I J V x r n N.
Proof.
  unfold lane_total, range_total.
  replace (seq n N) with (seq (n + 0) N) by (f_equal; lia).
  rewrite <- (fmap_add_seq n 0 N), <- list_fmap_compose.
  apply vsum_fmap_ext. intros j Hj. apply elem_of_seq in Hj. simpl.
  rewrite ldi_tab, ld_tab by lia. reflexivity.
Qed.

Lemma range_total_app UseCache x_tex I J (V x : list T) r lo a b :
  range_total UseCache x_tex I J V x r lo (a + b) =
  vadd (range_total UseCache x_tex I J V x r lo a)
       (range_total UseCache x_tex I J V x r (lo + a) b).
Proof. unfold range_total. rewrite seq_app, fmap_app, vsum_app. reflexivity. Qed.

Lemma warp_stride_total k kind UseCache x_tex I J (V x : list T) warp_id n c r :
  (forall i j, n <= i -> i <= j -> j < n + 32 -> (ldi I i <= ldi I j)%Z) ->
  vadd (ev_total r (warp_stride k kind UseCache x_tex I J V x warp_id n c).1)
       (carry_at r (warp_stride k kind UseCache x_tex I J V x warp_id n c).2)
  = vadd (carry_at r c) (range_total UseCache x_tex I J V x r n 32).
Proof.
  intros Hs.
  set (idx := tab 32 (fun l => ldi I (n + l))).
  set (val0 := tab 32 (fun l => entry_term UseCache x_tex J V x (n + l))).
  set (val1 := if bool_decide (ldi idx 0 = carry_idx c)
               then <[0 := vadd (ld val0 0) (carry_val c)]> val0 else val0).
  set (val := segreduce_warp idx val1).
  change (warp_stride k kind UseCache x_tex I J V x warp_id n c) with
    ((if bool_decide (ldi idx 0 = carry_idx c) then []
      else [mkEvent k warp_id (kind (carry_idx c)) (carry_idx c) (carry_val c)])
     ++ flushes idx (fun l =>
          mkEvent k warp_id (kind (ldi idx l)) (ldi idx l) (ld val l)) 31,
     mkCarry (ldi idx 31) (ld val 31)).
  cbn [fst snd].
  assert (Hc : contiguous 32 idx).
  { intros i j k' Hij Hjk Hk Heq. unfold idx in *.
    rewrite !ldi_tab in * by lia.
    pose proof (Hs (n + i) (n + j)). pose proof (Hs (n + j) (n + k')). lia. }
  assert (Hlen1 : length val1 = 32).
  { unfold val1. case_bool_decide; rewrite ?length_insert; apply length_tab. }
  assert (Hval : forall t, t < 32 -> ld val t = seg_total idx val1 t).
  { apply segreduce_warp_total; [lia | lia | exact Hc]. }
  pose proof (flush_total 32 idx val1 val
    (fun l => mkEvent k warp_id (kind (ldi idx l)) (ldi idx l) (ld val l))
    Hc Hval (fun _ => eq_refl) (fun _ => eq_refl) 31 r ltac:(lia)) as Hfl.
  cbv beta in Hfl.
  rewrite ev_total_app. unfold carry_at at 1. cbn [carry_idx carry_val].
  rewrite <- vadd_assoc, Hfl.
  assert (H1 : lane_total idx val1 r 32 =
    vadd (if bool_decide (ldi idx 0 = carry_idx c) then carry_at r c else vzero)
         (range_total UseCache x_tex I J V x r n 32)).
  { rewrite <- lane_total_tab. fold idx val0. unfold val1.
    destruct (decide (ldi idx 0 = carry_idx c)) as [He|Hne].
    - rewrite !(bool_decide_eq_true_2 _ He).
      rewrite lane_total_insert0 by (unfold val0; rewrite length_tab; lia).
      unfold carry_at. rewrite He. reflexivity.
    - rewrite !(bool_decide_eq_false_2 _ Hne). aac_reflexivity. }
  rewrite H1.
  destruct (bool_decide (ldi idx 0 = carry_idx c)).
  - rewrite ev_total_nil. aac_reflexivity.
  - rewrite ev_total_one. cbn [ev_row ev_val]. fold (carry_at r c). aac_reflexivity.
Qed.

Lemma warp_stride_carry_idx k kind UseCache x_tex I J (V x : list T) warp_id n c :
  carry_idx (warp_stride k kind UseCache x_tex I J V x warp_id n c).2
  = ldi I (n + 31).
Proof.
  unfold warp_stride. cbn [snd carry_idx].
  exact (ldi_tab 32 (fun l => ldi I (n + l)) 31 ltac:(lia)).
Qed.

(** ** A warp over its interval *)

Lemma range_total_0 UseCache x_tex I J (V x : list T) r lo :
  range_total UseCache x_tex I J V x r lo 0 = vzero.
Proof. reflexivity. Qed.

Lemma warp_loop_done fuel k kind UseCache x_tex I J (V x : list T) warp_id n end_ c :
  end_ <= n ->
  warp_loop fuel k kind UseCache x_tex I J V x warp_id n end_ c = ([], c).
Proof.
  intros Hn. destruct fuel; [reflexivity|]. simpl.
  rewrite bool_decide_eq_false_2 by lia. reflexivity.
Qed.

Lemma warp_loop_total k kind UseCache x_tex I J (V x : list T) warp_id r iters :
  forall fuel n end_ c,
  end_ = n + 32 * iters -> iters <= fuel ->
  (forall i j, n <= i -> i <= j -> j < end_ -> (ldi I i <= ldi I j)%Z) ->
  vadd (ev_total r (warp_loop fuel k kind UseCache x_tex I J V x warp_id n end_ c).1)
       (carry_at r (warp_loop fuel k kind UseCache x_tex I J V x warp_id n end_ c).2)
  = vadd (carry_at r c) (range_total UseCache x_tex I J V x r n (32 * iters))
  /\ (0 < iters ->
      carry_idx (warp_loop fuel k kind UseCache x_tex I J V x warp_id n end_ c).2
      = ldi I (end_ - 1)).
Proof.
  induction iters as [|iters IH]; intros fuel n end_ c Hend Hfuel Hs.
  - rewrite warp_loop_done by lia. cbn [fst snd]. split; [|lia].
    rewrite ev_total_nil. replace (32 * 0) with 0 by lia.
    rewrite range_total_0. aac_reflexivity.
  - destruct fuel as [|fuel]; [lia|]. cbn [warp_loop].
    rewrite bool_decide_eq_true_2 by lia.
    pose proof (warp_stride_total k kind UseCache x_tex I J V x warp_id n c r) as Hst.
    pose proof (warp_stride_carry_idx k kind UseCache x_tex I J V x warp_id n c) as Hci.
    destruct (warp_stride k kind UseCache x_tex I J V x warp_id n c) as [ev c'].
    cbn [fst snd] in Hst, Hci.
    destruct (IH fuel (n + 32) end_ c' ltac:(lia) ltac:(lia)
                ltac:(intros; apply Hs; lia)) as [Hl Hc].
    destruct (warp_loop fuel k kind UseCache x_tex I J V x warp_id (n + 32) end_ c')
      as [evs c''] eqn:Eloop.
    cbn [fst snd] in *. split.
    + rewrite ev_total_app.
      replace (32 * S iters) with (32 + 32 * iters) by lia.
      rewrite range_total_app.
      rewrite <- vadd_assoc, Hl. rewrite vadd_assoc, Hst.
      aac_reflexivity. intros; apply Hs; lia.
    + intros _. destruct iters as [|iters].
      * rewrite warp_loop_done in Eloop by lia. inversion Eloop; subst.
        rewrite Hci. f_equal. lia.
      * apply Hc. lia.
Qed.

Lemma interval_iters w q u :
  0 < q -> w * (32 * q) < 32 * u ->
  exists it, 0 < it /\
    Nat.min (w * (32 * q) + 0 + 32 * q) (32 * u) = w * (32 * q) + 0 + 32 * it.
Proof.
  intros Hq Hw. exists (Nat.min q (u - w * q)). split; nia.
Qed.

Lemma flat_warp_active UseCache x_tex I J (V x : list T) warp_id q u :
  0 < q -> warp_id * (32 * q) < 32 * u ->
  (forall i j, i <= j -> j < 32 * u -> (ldi I i <= ldi I j)%Z) ->
  exists ev c,
    flat_warp UseCache x_tex (32 * u) (32 * q) I J V x warp_id = Some (ev, c)
    /\ (forall r, vadd (ev_total r ev) (carry_at r c)
       = range_total UseCache x_tex I J V x r (warp_id * (32 * q))
           (Nat.min (warp_id * (32 * q) + 32 * q) (32 * u) - warp_id * (32 * q)))
    /\ carry_idx c = ldi I (Nat.min (warp_id * (32 * q) + 32 * q) (32 * u) - 1).
Proof.
  intros Hq Hw Hs. destruct (interval_iters warp_id q u Hq Hw) as (it & Hit & Hend).
  unfold flat_warp, thread_begin, thread_end. rewrite Hend.
  rewrite bool_decide_eq_false_2 by lia.
  pose proof (fun r => warp_loop_total K_flat (fun _ => PlainAdd) UseCache x_tex
    I J V x warp_id r it
    (warp_id * (32 * q) + 0 + 32 * it - (warp_id * (32 * q) + 0))
    (warp_id * (32 * q) + 0) (warp_id * (32 * q) + 0 + 32 * it)
    (mkCarry (ldi I (warp_id * (32 * q) + 0)) vzero)
    eq_refl ltac:(lia) ltac:(intros; apply Hs; lia)) as Hl.
  eexists _, _. split; [f_equal; apply surjective_pairing|]. split.
  - intros r. destruct (Hl r) as [Ht _].
    rewrite Ht. unfold carry_at at 1. cbn [carry_idx carry_val].
    replace (Nat.min (warp_id * (32 * q) + 32 * q) (32 * u) - warp_id * (32 * q))
      with (32 * it) by lia.
    replace (warp_id * (32 * q) + 0) with (warp_id * (32 * q)) by lia.
    case_bool_decide; aac_reflexivity.
  - destruct (Hl 0%Z) as [_ Hc]. rewrite Hc by lia. f_equal. lia.
Qed.

Lemma flat_warp_idle UseCache x_tex I J (V x : list T) warp_id is_ tail_ :
  tail_ <= warp_id * is_ ->
  flat_warp UseCache x_tex tail_ is_ I J V x warp_id = None.
Proof.
  intros Hw. unfold flat_warp, thread_begin, thread_end.
  rewrite bool_decide_eq_true_2 by lia. reflexivity.
Qed.

(** ** The level-1 grid and its carry buffer *)

Lemma carry_total_S temp_rows (temp_vals : list T) r lo len :
  carry_total temp_rows temp_vals r lo (S len) =
  vadd (carry_total temp_rows temp_vals r lo len)
       (if bool_decide (ldi temp_rows (lo + len) = r)
        then ld temp_vals (lo + len) else vzero).
Proof.
  unfold carry_total. rewrite seq_S, fmap_app, vsum_app, vsum_fmap_one.
  reflexivity.
Qed.

Lemma carry_total_app temp_rows (temp_vals : list T) r lo a b :
  carry_total temp_rows temp_vals r lo (a + b) =
  vadd (carry_total temp_rows temp_vals r lo a)
       (carry_total temp_rows temp_vals r (lo + a) b).
Proof. unfold carry_total. rewrite seq_app, fmap_app, vsum_app. reflexivity. Qed.

Lemma carry_total_insert_ge temp_rows (temp_vals : list T) r lo len w a b :
  lo + len <= w ->
  carry_total (<[w := a]> temp_rows) (<[w := b]> temp_vals) r lo len =
  carry_total temp_rows temp_vals r lo len.
Proof.
  intros Hw. unfold carry_total. apply vsum_fmap_ext. intros j Hj.
  apply elem_of_seq in Hj. unfold ldi, ld.
  rewrite !list_lookup_insert_ne by lia. reflexivity.
Qed.

Lemma spmv_coo_flat_kernel_total BLOCK_SIZE num_blocks UseCache x_tex I J
    (V x : list T) temp_rows temp_vals q u A :
  0 < q ->
  (forall i j, i <= j -> j < 32 * u -> (ldi I i <= ldi I j)%Z) ->
  (forall w, w < A <-> w * (32 * q) < 32 * u) ->
  A <= length temp_rows -> A <= length temp_vals ->
  A <= num_blocks * (BLOCK_SIZE / 32) ->
  let k1 := spmv_coo_flat_kernel BLOCK_SIZE num_blocks UseCache x_tex
              (32 * u) (32 * q) I J V x temp_rows temp_vals in
  length k1.2.1 = length temp_rows /\ length k1.2.2 = length temp_vals
  /\ (forall r, vadd (ev_total r k1.1) (carry_total k1.2.1 k1.2.2 r 0 A)
               = range_total UseCache x_tex I J V x r 0 (32 * u))
  /\ (forall w, w < A ->
        ldi k1.2.1 w = ldi I (Nat.min (w * (32 * q) + 32 * q) (32 * u) - 1)).
Proof.
  intros Hq Hs HA Hlr Hlv HL. unfold spmv_coo_flat_kernel.
  set (step := fun (st : list (Event T) * (list Z * list T)) warp_id => _).
  assert (Hinv : forall m,
    let st := foldl step ([], (temp_rows, temp_vals)) (seq 0 m) in
    length st.2.1 = length temp_rows /\ length st.2.2 = length temp_vals
    /\ (forall r, vadd (ev_total r st.1)
                      (carry_total st.2.1 st.2.2 r 0 (Nat.min m A))
                 = range_total UseCache x_tex I J V x r 0
                     (Nat.min (m * (32 * q)) (32 * u)))
    /\ (forall w, w < Nat.min m A ->
          ldi st.2.1 w = ldi I (Nat.min (w * (32 * q) + 32 * q) (32 * u) - 1))).
  { induction m as [|m IH].
    - change (seq 0 0) with (@nil nat). cbn [foldl fst snd].
      rewrite Nat.min_0_l, Nat.mul_0_l, Nat.min_0_l.
      split; [reflexivity|]. split; [reflexivity|]. split; [|intros; lia].
      intros r. rewrite ev_total_nil. unfold carry_total, range_total.
      change (seq 0 0) with (@nil nat). unfold vsum. simpl.
      aac_reflexivity.
    - rewrite seq_S, foldl_app. cbn [foldl]. rewrite Nat.add_0_l.
      cbv zeta in IH.
      destruct (foldl step ([], (temp_rows, temp_vals)) (seq 0 m))
        as [evs [tr tv]].
      cbn [fst snd] in IH. destruct IH as (Hl1 & Hl2 & Htot & Hrows).
      destruct (decide (m * (32 * q) < 32 * u)) as [Hact|Hidle].
      + destruct (flat_warp_active UseCache x_tex I J V x m q u Hq Hact Hs)
          as (ev & c & Hfw & Hw & Hci).
        assert (Hst : step (evs, (tr, tv)) m =
          (evs ++ ev, (<[m := carry_idx c]> tr, <[m := carry_val c]> tv))).
        { unfold step. rewrite Hfw. reflexivity. }
        rewrite Hst. cbn [fst snd].
        assert (HmA : m < A) by (apply HA; exact Hact).
        rewrite !length_insert. split; [exact Hl1|]. split; [exact Hl2|].
        replace (Nat.min (S m) A) with (S m) by lia.
        replace (Nat.min m A) with m in * by lia.
        split.
        * intros r. rewrite carry_total_S, carry_total_insert_ge by lia.
          rewrite Nat.add_0_l, ldi_insert_eq, ld_insert_eq by lia.
          fold (carry_at r c).
          replace (Nat.min (S m * (32 * q)) (32 * u))
            with (m * (32 * q) +
                  (Nat.min (m * (32 * q) + 32 * q) (32 * u) - m * (32 * q)))
            by lia.
          rewrite range_total_app, Nat.add_0_l. rewrite <- Hw.
          specialize (Htot r).
          replace (Nat.min (m * (32 * q)) (32 * u)) with (m * (32 * q)) in Htot
            by lia.
          rewrite <- Htot, ev_total_app. aac_reflexivity.
        * intros w Hw'. destruct (decide (w = m)) as [->|Hne].
          -- rewrite ldi_insert_eq by lia. exact Hci.
          -- rewrite ldi_insert_ne by lia. apply Hrows. lia.
      + assert (Hst : step (evs, (tr, tv)) m = (evs, (tr, tv))).
        { unfold step. rewrite flat_warp_idle by lia. reflexivity. }
        rewrite Hst. cbn [fst snd].
        assert (HmA : ~ m < A) by (intros Hm; apply HA in Hm; lia).
        split; [exact Hl1|]. split; [exact Hl2|].
        replace (Nat.min (S m) A) with (Nat.min m A) by lia.
        replace (Nat.min (S m * (32 * q)) (32 * u))
          with (Nat.min (m * (32 * q)) (32 * u)) by lia.
        split; assumption. }
  specialize (Hinv (num_blocks * (BLOCK_SIZE / 32))). cbv zeta in Hinv.
  destruct Hinv as (Hl1 & Hl2 & Htot & Hrows).
  replace (Nat.min (num_blocks * (BLOCK_SIZE / 32)) A) with A in * by lia.
  assert (HLt : 32 * u <= num_blocks * (BLOCK_SIZE / 32) * (32 * q)).
  { destruct (decide (32 * u <= num_blocks * (BLOCK_SIZE / 32) * (32 * q)));
      [assumption|].
    assert (num_blocks * (BLOCK_SIZE / 32) < A) by (apply HA; lia). lia. }
  replace (Nat.min (num_blocks * (BLOCK_SIZE / 32) * (32 * q)) (32 * u))
    with (32 * u) in Htot by lia.
  cbv zeta. auto.
Qed.

(** ** The level-2 reduction *)

Lemma mjoin_tab_trunc {A} (f g : nat -> list A) live B :
  live <= B ->
  (forall t, t < live -> f t = g t) ->
  (forall t, live <= t -> t < B -> f t = []) ->
  mjoin (tab B f) = mjoin (tab live g).
Proof.
  intros HB Hfg Hnil. induction B as [|B IH].
  - replace live with 0 by lia. reflexivity.
  - destruct (decide (live = S B)) as [->|Hne].
    + f_equal. unfold tab. apply list_fmap_ext. intros i t Ht.
      apply lookup_seq in Ht. apply Hfg. lia.
    + rewrite mjoin_tab_S, Hnil, app_nil_r by lia.
      apply IH; [lia|]. intros t Ht1 Ht2. apply Hnil; lia.
Qed.

(** A block of lanes whose first [live] lanes hold carries and whose lane
    [live] holds another key: the writes of the live lanes account for the
    live lanes, row by row. *)
Lemma block_total (rows : list Z) (vals0 : list T) (mk : nat -> Event T) live r :
  0 < live -> live <= 512 -> live <= length vals0 ->
  contiguous live rows ->
  ldi rows (live - 1) <> ldi rows live ->
  (forall l, ev_row (mk l) = ldi rows l) ->
  (forall l, ev_val (mk l) = ld (segreduce_block rows vals0) l) ->
  ev_total r (flushes rows mk live) = lane_total rows vals0 r live.
Proof.
  intros Hl0 Hl Hlen Hc Hlast Hrow Hval.
  destruct live as [|m]; [lia|].
  replace (S m - 1) with m in Hlast by lia.
  unfold flushes. rewrite mjoin_tab_S. fold (flushes rows mk m). cbv beta.
  replace (m + 1) with (S m) by lia.
  rewrite (bool_decide_eq_true_2 _ Hlast), ev_total_app, ev_total_one.
  rewrite Hrow, Hval.
  apply (flush_total (S m) rows vals0 (segreduce_block rows vals0) mk);
    [exact Hc | | exact Hrow | exact Hval | lia].
  apply segreduce_block_total; [lia | lia | exact Hc].
Qed.

Lemma reduce_full_block_total base temp_rows (temp_vals : list T) r :
  (forall i j k, base <= i -> i <= j -> j <= k -> k < base + 512 ->
     ldi temp_rows i = ldi temp_rows k -> ldi temp_rows j = ldi temp_rows k) ->
  ldi temp_rows (base + 511) <> (-1)%Z ->
  ev_total r (reduce_full_block 512 base temp_rows temp_vals)
  = carry_total temp_rows temp_vals r base 512.
Proof.
  intros Hc Hlast.
  set (rows := tab 512 (fun t => ldi temp_rows (base + t)) ++ [(-1)%Z]).
  set (vals0 := tab 512 (fun t => ld temp_vals (base + t))).
  set (mk := fun t => mkEvent K_reduce (base + t) PlainAdd (ldi rows t)
                        (ld (segreduce_block rows vals0) t)).
  change (reduce_full_block 512 base temp_rows temp_vals) with
    (mjoin (tab 512 (fun t =>
       if bool_decide (ldi rows t <> ldi rows (t + 1)) then [mk t] else []))).
  fold (flushes rows mk 512).
  assert (Hrows : forall t, t < 512 -> ldi rows t = ldi temp_rows (base + t)).
  { intros t Ht. unfold rows, ldi.
    rewrite lookup_app_l by (rewrite length_tab; lia).
    rewrite lookup_tab by lia. reflexivity. }
  assert (Hsent : ldi rows 512 = (-1)%Z).
  { unfold rows, ldi. rewrite lookup_app_r by (rewrite length_tab; lia).
    rewrite length_tab. reflexivity. }
  rewrite (block_total rows vals0 mk 512 r);
    [ | lia | lia | unfold vals0; rewrite length_tab; lia | |
      | intros; reflexivity | intros; reflexivity ].
  - unfold lane_total, carry_total.
    replace (seq base 512) with (seq (base + 0) 512) by (f_equal; lia).
    rewrite <- (fmap_add_seq base 0 512), <- list_fmap_compose.
    apply vsum_fmap_ext. intros j Hj. apply elem_of_seq in Hj. simpl.
    rewrite Hrows by lia. unfold vals0. rewrite ld_tab by lia. reflexivity.
  - intros i j k Hij Hjk Hk. rewrite !Hrows by lia. apply Hc; lia.
  - rewrite Hsent, Hrows by lia. exact Hlast.
Qed.

Lemma reduce_partial_block_total base num_warps temp_rows (temp_vals : list T) r :
  base < num_warps -> num_warps < base + 512 ->
  (forall i j k, base <= i -> i <= j -> j <= k -> k < num_warps ->
     ldi temp_rows i = ldi temp_rows k -> ldi temp_rows j = ldi temp_rows k) ->
  ldi temp_rows (num_warps - 1) <> (-1)%Z ->
  ev_total r (reduce_partial_block 512 base num_warps temp_rows temp_vals)
  = carry_total temp_rows temp_vals r base (num_warps - base).
Proof.
  intros Hb1 Hb2 Hc Hlast.
  set (rows := tab 512 (fun t => if bool_decide (base + t < num_warps)
                                 then ldi temp_rows (base + t) else (-1)%Z)
               ++ [(-1)%Z]).
  set (vals0 := tab 512 (fun t => if bool_decide (base + t < num_warps)
                                  then ld temp_vals (base + t) else vzero)).
  set (mk := fun t => mkEvent K_reduce (base + t) PlainAdd (ldi rows t)
                        (ld (segreduce_block rows vals0) t)).
  change (reduce_partial_block 512 base num_warps temp_rows temp_vals) with
    (mjoin (tab 512 (fun t =>
       if bool_decide (base + t < num_warps)
       then if bool_decide (ldi rows t <> ldi rows (t + 1)) then [mk t] else []
       else []))).
  rewrite (mjoin_tab_trunc _
    (fun t => if bool_decide (ldi rows t <> ldi rows (t + 1)) then [mk t] else [])
    (num_warps - base) 512); [ | lia | | ].
  2:{ intros t Ht. rewrite bool_decide_eq_true_2 by lia. reflexivity. }
  2:{ intros t Ht1 Ht2. rewrite bool_decide_eq_false_2 by lia. reflexivity. }
  fold (flushes rows mk (num_warps - base)).
  assert (Hrows : forall t, t < num_warps - base ->
            ldi rows t = ldi temp_rows (base + t)).
  { intros t Ht. unfold rows, ldi.
    rewrite lookup_app_l by (rewrite length_tab; lia).
    rewrite lookup_tab by lia. rewrite bool_decide_eq_true_2 by lia. reflexivity. }
  assert (Hsent : ldi rows (num_warps - base) = (-1)%Z).
  { unfold rows, ldi. rewrite lookup_app_l by (rewrite length_tab; lia).
    rewrite lookup_tab by lia. rewrite bool_decide_eq_false_2 by lia. reflexivity. }
  rewrite (block_total rows vals0 mk (num_warps - base) r);
    [ | lia | lia | unfold vals0; rewrite length_tab; lia | |
      | intros; reflexivity | intros; reflexivity ].
  - unfold lane_total, carry_total.
    replace (seq base (num_warps - base))
      with (seq (base + 0) (num_warps - base)) by (f_equal; lia).
    rewrite <- (fmap_add_seq base 0), <- list_fmap_compose.
    apply vsum_fmap_ext. intros j Hj. apply elem_of_seq in Hj. simpl.
    rewrite Hrows by lia. unfold vals0. rewrite ld_tab by lia.
    rewrite (bool_decide_eq_true_2 (base + j < num_warps)) by lia. reflexivity.
  - intros i j k Hij Hjk Hk. rewrite !Hrows by lia. apply Hc; lia.
  - rewrite Hsent, Hrows by lia.
    replace (base + (num_warps - base - 1)) with (num_warps - 1) by lia.
    exact Hlast.
Qed.

Ltac contig_from Hc :=
  let a := fresh "a" in let b := fresh "b" in let c := fresh "c" in
  intros a b c; intros; apply (Hc a b c); first [lia | assumption].

Lemma reduce_loop_done fuel i end_ temp_rows (temp_vals : list T) :
  end_ <= i -> reduce_loop fuel 512 i end_ temp_rows temp_vals = ([], i).
Proof.
  intros Hi. destruct fuel; [reflexivity|]. cbn [reduce_loop].
  rewrite bool_decide_eq_false_2 by lia. reflexivity.
Qed.

Lemma reduce_loop_total temp_rows (temp_vals : list T) r k :
  forall fuel i end_,
  end_ = i + 512 * k -> k <= fuel ->
  (forall a b c, i <= a -> a <= b -> b <= c -> c < end_ ->
     ldi temp_rows a = ldi temp_rows c -> ldi temp_rows b = ldi temp_rows c) ->
  (forall w, w < end_ -> ldi temp_rows w <> (-1)%Z) ->
  ev_total r (reduce_loop fuel 512 i end_ temp_rows temp_vals).1
  = carry_total temp_rows temp_vals r i (512 * k)
  /\ (reduce_loop fuel 512 i end_ temp_rows temp_vals).2 = end_.
Proof.
  induction k as [|k IH]; intros fuel i end_ Hend Hfuel Hc Hv.
  - rewrite reduce_loop_done by lia. cbn [fst snd]. split; [|lia].
    rewrite ev_total_nil. reflexivity.
  - destruct fuel as [|fuel]; [lia|]. cbn [reduce_loop].
    rewrite bool_decide_eq_true_2 by lia.
    destruct (IH fuel (i + 512) end_ ltac:(lia) ltac:(lia)
                ltac:(contig_from Hc) Hv) as [Ht Hi].
    destruct (reduce_loop fuel 512 (i + 512) end_ temp_rows temp_vals)
      as [evs i'].
    cbn [fst snd] in *. split; [|exact Hi].
    rewrite ev_total_app, Ht.
    rewrite reduce_full_block_total;
      [ | contig_from Hc | apply Hv; lia ].
    replace (512 * S k) with (512 + 512 * k) by lia.
    rewrite carry_total_app. reflexivity.
Qed.

(** The level-2 kernel adds, row by row, exactly what the carry buffer
    holds. *)
Lemma spmv_coo_reduce_update_kernel_total num_warps temp_rows
    (temp_vals : list T) r :
  contiguous num_warps temp_rows ->
  (forall w, w < num_warps -> ldi temp_rows w <> (-1)%Z) ->
  ev_total r (spmv_coo_reduce_update_kernel 512 num_warps temp_rows temp_vals)
  = carry_total temp_rows temp_vals r 0 num_warps.
Proof.
  intros Hc Hv. unfold spmv_coo_reduce_update_kernel.
  change (512 - 1) with (Nat.ones 9). rewrite Nat.land_ones.
  change (2 ^ 9) with 512.
  pose proof (Nat.div_mod_eq num_warps 512) as Hdm.
  pose proof (Nat.mod_upper_bound num_warps 512 ltac:(lia)) as Hmod.
  set (k := num_warps / 512) in *. set (m := num_warps mod 512) in *.
  replace (num_warps - m) with (512 * k) by lia.
  destruct (reduce_loop_total temp_rows temp_vals r k (512 * k) 0 (512 * k)
              ltac:(lia) ltac:(lia)
              ltac:(contig_from Hc)
              ltac:(intros; apply Hv; lia)) as [Ht Hi].
  destruct (reduce_loop (512 * k) 512 0 (512 * k) temp_rows temp_vals)
    as [ev i].
  cbn [fst snd] in *. subst i.
  case_bool_decide as Hlt.
  - rewrite ev_total_app, Ht.
    rewrite reduce_partial_block_total;
      [ | lia | lia
        | contig_from Hc
        | apply Hv; lia ].
    transitivity (carry_total temp_rows temp_vals r 0
                    (512 * k + (num_warps - 512 * k)));
      [rewrite carry_total_app; reflexivity | f_equal; lia].
  - rewrite Ht. f_equal. lia.
Qed.

(** ** The atomic kernel *)

Lemma atomic_warp_active UseCache x_tex I J (V x : list T) warp_id q u r :
  0 < q -> warp_id * (32 * q) < 32 * u ->
  (forall i j, i <= j -> j < 32 * u -> (ldi I i <= ldi I j)%Z) ->
  ev_total r (atomic_warp UseCache x_tex (32 * u) (32 * q) I J V x warp_id)
  = range_total UseCache x_tex I J V x r (warp_id * (32 * q))
      (Nat.min (warp_id * (32 * q) + 32 * q) (32 * u) - warp_id * (32 * q)).
Proof.
  intros Hq Hw Hs. destruct (interval_iters warp_id q u Hq Hw) as (it & Hit & Hend).
  unfold atomic_warp, thread_begin, thread_end. rewrite Hend.
  rewrite bool_decide_eq_false_2 by lia.
  destruct (warp_loop_total K_atomic
    (atomic_kind (ldi I (warp_id * (32 * q)))) UseCache x_tex
    I J V x warp_id r it
    (warp_id * (32 * q) + 0 + 32 * it - (warp_id * (32 * q) + 0))
    (warp_id * (32 * q) + 0) (warp_id * (32 * q) + 0 + 32 * it)
    (mkCarry (ldi I (warp_id * (32 * q))) vzero)
    eq_refl ltac:(lia) ltac:(intros; apply Hs; lia)) as [Ht _].
  destruct (warp_loop _ _ _ _ _ _ _ _ _ _ _ _ _) as [ev c].
  cbn [fst snd] in Ht.
  rewrite ev_total_app, ev_total_one. cbn [ev_row ev_val]. fold (carry_at r c).
  rewrite Ht. unfold carry_at. cbn [carry_idx carry_val].
  replace (Nat.min (warp_id * (32 * q) + 32 * q) (32 * u) - warp_id * (32 * q))
    with (32 * it) by lia.
  replace (warp_id * (32 * q) + 0) with (warp_id * (32 * q)) by lia.
  case_bool_decide; aac_reflexivity.
Qed.

Lemma atomic_warp_idle UseCache x_tex I J (V x : list T) warp_id is_ tail_ :
  tail_ <= warp_id * is_ ->
  atomic_warp UseCache x_tex tail_ is_ I J V x warp_id = [].
Proof.
  intros Hw. unfold atomic_warp, thread_begin, thread_end.
  rewrite bool_decide_eq_true_2 by lia. reflexivity.
Qed.

Lemma spmv_coo_flat_atomic_kernel_total BLOCK_SIZE num_blocks UseCache x_tex
    I J (V x : list T) q u r :
  0 < q ->
  (forall i j, i <= j -> j < 32 * u -> (ldi I i <= ldi I j)%Z) ->
  32 * u <= num_blocks * (BLOCK_SIZE / 32) * (32 * q) ->
  ev_total r (spmv_coo_flat_atomic_kernel BLOCK_SIZE num_blocks UseCache x_tex
                (32 * u) (32 * q) I J V x)
  = range_total UseCache x_tex I J V x r 0 (32 * u).
Proof.
  intros Hq Hs HL. unfold spmv_coo_flat_atomic_kernel.
  set (aw := atomic_warp UseCache x_tex (32 * u) (32 * q) I J V x).
  assert (Hinv : forall m, ev_total r (mjoin (tab m aw))
            = range_total UseCache x_tex I J V x r 0
                (Nat.min (m * (32 * q)) (32 * u))).
  { induction m as [|m IH].
    - rewrite Nat.mul_0_l, Nat.min_0_l. reflexivity.
    - rewrite mjoin_tab_S, ev_total_app, IH.
      destruct (decide (m * (32 * q) < 32 * u)) as [Hact|Hidle].
      + unfold aw. rewrite atomic_warp_active by assumption.
        replace (Nat.min (S m * (32 * q)) (32 * u))
          with (Nat.min (m * (32 * q)) (32 * u) +
                (Nat.min (m * (32 * q) + 32 * q) (32 * u) - m * (32 * q)))
          by lia.
        rewrite range_total_app, Nat.add_0_l.
        replace (Nat.min (m * (32 * q)) (32 * u)) with (m * (32 * q)) by lia.
        reflexivity.
      + unfold aw. rewrite atomic_warp_idle, ev_total_nil by lia.
        replace (Nat.min (S m * (32 * q)) (32 * u))
          with (Nat.min (m * (32 * q)) (32 * u)) by lia.
        apply vadd_zero_r. }
  rewrite Hinv. f_equal. lia.
Qed.

(** ** The sequential kernel *)

Lemma range_total_cache I J (V x : list T) r lo len :
  range_total true (bind_x x) I J V x r lo len
  = range_total false [] I J V x r lo len.
Proof. reflexivity. Qed.

Lemma spmv_coo_serial_kernel_total n off I J (V x : list T) r :
  ev_total r (spmv_coo_serial_kernel n (drop off I) (drop off J) (drop off V) x)
  = range_total false [] I J V x r off n.
Proof.
  unfold spmv_coo_serial_kernel, ev_total, range_total, tab.
  rewrite <- list_fmap_compose.
  replace (seq off n) with (seq (off + 0) n) by (f_equal; lia).
  rewrite <- (fmap_add_seq off 0 n), <- list_fmap_compose.
  apply vsum_fmap_ext. intros j _. simpl.
  rewrite !ldi_drop, ld_drop. reflexivity.
Qed.

(** ** The two drivers *)

Lemma row_sum_range (d_coo : coo_matrix T) (d_x : list T) r :
  row_sum d_coo d_x r
  = range_total false [] (row_indices d_coo) (column_indices d_coo)
      (values d_coo) d_x r 0 (Z.to_nat (num_entries d_coo)).
Proof. unfold row_sum. apply vsum_filter. Qed.

Lemma range_total_any_cache UseCache I J (V x : list T) r lo len :
  range_total UseCache (if UseCache then bind_x x else []) I J V x r lo len
  = range_total false [] I J V x r lo len.
Proof. destruct UseCache; reflexivity. Qed.

(** The carries of the level-1 kernel are sorted, so equal rows are
    adjacent in the buffer. *)
Lemma carries_contiguous I (temp_rows : list Z) q u A :
  0 < q ->
  (forall i j, i <= j -> j < 32 * u -> (ldi I i <= ldi I j)%Z) ->
  (forall w, w < A <-> w * (32 * q) < 32 * u) ->
  (forall w, w < A ->
     ldi temp_rows w = ldi I (Nat.min (w * (32 * q) + 32 * q) (32 * u) - 1)) ->
  contiguous A temp_rows.
Proof.
  intros Hq Hs HA Hrows i j k Hij Hjk Hk Heq.
  assert (Hmono : forall a b, a <= b -> b < A ->
            (ldi temp_rows a <= ldi temp_rows b)%Z).
  { intros a b Hab Hb. rewrite !Hrows by lia.
    assert (b * (32 * q) < 32 * u) by (apply HA; lia).
    assert (a * (32 * q) <= b * (32 * q)) by nia.
    apply Hs; lia. }
  pose proof (Hmono i j Hij ltac:(lia)). pose proof (Hmono j k Hjk Hk). lia.
Qed.

(** What a run of [__spmv_coo_flat] adds to the log and to [y]: row by row,
    the sum over the entries of the row. *)
Lemma spmv_coo_flat_run MAX_THREADS UseCache (d_coo : coo_matrix T) d_x dev :
  sorted_coo d_coo = true ->
  (num_entries d_coo < 2 ^ 31)%Z ->
  (512 <= MAX_THREADS < 2 ^ 30)%Z ->
  exists evs,
    __spmv_coo_flat MAX_THREADS UseCache d_coo d_x dev = launch evs dev
    /\ forall r, ev_total r evs = row_sum d_coo d_x r.
Proof.
  intros Hwf HN HMT.
  destruct (sorted_coo_spec d_coo Hwf) as (HlI & HlJ & HlV & Hpos & Hsort).
  unfold __spmv_coo_flat.
  case_bool_decide as Hzero.
  { exists []. split.
    - unfold launch, replay. simpl. rewrite app_nil_r. destruct dev; reflexivity.
    - intros r. rewrite row_sum_range, Hzero. reflexivity. }
  case_bool_decide as H32.
  { eexists. split; [reflexivity|]. intros r.
    rewrite row_sum_range.
    apply (spmv_coo_serial_kernel_total _ 0). }
  unfold WARP_SIZE in H32.
  assert (Hrange : (32 <= num_entries d_coo < 2 ^ 31)%Z) by lia.
  change (2 ^ 30)%Z with 1073741824%Z in HMT.
  assert (HMB : (u32 MAX_THREADS / u32 (2 * 256) = MAX_THREADS / 512)%Z).
  { rewrite !u32_small by (change (2 ^ 32)%Z with 4294967296%Z; lia).
    reflexivity. }
  rewrite HMB.
  assert (HU : (1 <= 256 / 32 * (MAX_THREADS / 512) < 2 ^ 31)%Z).
  { change (256 / 32)%Z with 8%Z. change (2 ^ 31)%Z with 2147483648%Z.
    pose proof (Z.div_le_lower_bound MAX_THREADS 512 1 ltac:(lia) ltac:(lia)).
    pose proof (Z.div_le_upper_bound MAX_THREADS 512 2097152 ltac:(lia) ltac:(lia)).
    lia. }
  destruct (plan_geometry 256 (MAX_THREADS / 512) (num_entries d_coo)
              Hrange ltac:(lia) HU)
    as (u & q & Hq & Hqu & Htl & His & HtlZ & HisZ & HuN & Hrest & HL & Hu26).
  set (p := launch_plan 256 (MAX_THREADS / 512) (num_entries d_coo)) in *.
  rewrite (bool_decide_eq_false_2 (interval_size p = 0)%Z) by lia.
  destruct (active_warps_spec (Z.of_nat u) (Z.of_nat q) ltac:(lia) Hu26)
    as [HA0 HA].
  set (A := DIVIDE_INTO (u32 (Z.of_nat u * 32)) (32 * Z.of_nat q)) in *.
  change host_method with false. cbv iota.
  replace (DIVIDE_INTO (u32 (tail p)) (interval_size p)) with A
    by (unfold A; rewrite <- HtlZ, <- HisZ; reflexivity).
  rewrite Htl, His, Hrest.
  change (Z.to_nat (256 / 32)) with 8 in HL.
  assert (HA' : forall w, w < Z.to_nat A <-> w * (32 * q) < 32 * u).
  { intros w. specialize (HA (Z.of_nat w) ltac:(lia)). split; intros Hw.
    - apply Nat2Z.inj_lt. rewrite !Nat2Z.inj_mul. simpl Z.of_nat. lia.
    - apply Nat2Z.inj_lt in Hw. rewrite !Nat2Z.inj_mul in Hw.
      simpl Z.of_nat in Hw. lia. }
  assert (HAL : Z.to_nat A <= Z.to_nat (num_blocks p) * (256 / 32)).
  { change (256 / 32) with 8.
    destruct (decide (Z.to_nat A <= Z.to_nat (num_blocks p) * 8)); [assumption|].
    assert (Z.to_nat (num_blocks p) * 8 < Z.to_nat A) as Hlt by lia.
    apply HA' in Hlt. lia. }
  assert (Hs32 : forall i j, i <= j -> j < 32 * u ->
            (ldi (row_indices d_coo) i <= ldi (row_indices d_coo) j)%Z).
  { intros i j Hij Hj. apply Hsort; lia. }
  destruct (spmv_coo_flat_kernel_total 256 (Z.to_nat (num_blocks p)) UseCache
              (if UseCache then bind_x d_x else [])
              (row_indices d_coo) (column_indices d_coo) (values d_coo) d_x
              (new_device_array 0%Z (Z.to_nat A))
              (new_device_array vzero (Z.to_nat A)) q u (Z.to_nat A)
              Hq Hs32 HA'
              ltac:(unfold new_device_array; rewrite length_replicate; lia)
              ltac:(unfold new_device_array; rewrite length_replicate; lia)
              HAL)
    as (Hl1 & Hl2 & Htot & Hrows).
  set (k1 := spmv_coo_flat_kernel _ _ _ _ _ _ _ _ _ _ _ _) in *.
  eexists. split.
  { unfold launch. cbn [dev_y dev_log]. rewrite <- !replay_app, <- !app_assoc.
    reflexivity. }
  intros r. rewrite !ev_total_app.
  rewrite spmv_coo_reduce_update_kernel_total.
  - rewrite spmv_coo_serial_kernel_total.
    rewrite row_sum_range.
    replace (Z.to_nat (num_entries d_coo))
      with (32 * u + (Z.to_nat (num_entries d_coo) - 32 * u)) at 2 by lia.
    rewrite range_total_app, Nat.add_0_l.
    rewrite <- (range_total_any_cache UseCache _ _ _ _ r 0 (32 * u)).
    rewrite <- Htot. aac_reflexivity.
  - eapply carries_contiguous; eassumption.
  - intros w Hw. rewrite Hrows by exact Hw.
    assert (w * (32 * q) < 32 * u) by (apply HA'; exact Hw).
    pose proof (Hpos (Nat.min (w * (32 * q) + 32 * q) (32 * u) - 1) ltac:(lia)).
    lia.
Qed.

Lemma spmv_coo_flat_atomic_run MAX_THREADS UseCache (d_coo : coo_matrix T) d_x dev :
  sorted_coo d_coo = true ->
  (num_entries d_coo < 2 ^ 31)%Z ->
  (512 <= MAX_THREADS < 2 ^ 30)%Z ->
  exists evs,
    __spmv_coo_flat_atomic MAX_THREADS UseCache d_coo d_x dev = launch evs dev
    /\ forall r, ev_total r evs = row_sum d_coo d_x r.
Proof.
  intros Hwf HN HMT.
  destruct (sorted_coo_spec d_coo Hwf) as (HlI & HlJ & HlV & Hpos & Hsort).
  unfold __spmv_coo_flat_atomic.
  case_bool_decide as Hzero.
  { exists []. split.
    - unfold launch, replay. simpl. rewrite app_nil_r. destruct dev; reflexivity.
    - intros r. rewrite row_sum_range, Hzero. reflexivity. }
  case_bool_decide as H32.
  { eexists. split; [reflexivity|]. intros r.
    rewrite row_sum_range.
    apply (spmv_coo_serial_kernel_total _ 0). }
  unfold WARP_SIZE in H32.
  assert (Hrange : (32 <= num_entries d_coo < 2 ^ 31)%Z) by lia.
  change (2 ^ 30)%Z with 1073741824%Z in HMT.
  assert (HMB : (u32 (4 * MAX_THREADS) / 128 = 4 * MAX_THREADS / 128)%Z).
  { rewrite !u32_small by (change (2 ^ 32)%Z with 4294967296%Z; lia).
    reflexivity. }
  rewrite HMB.
  assert (HU : (1 <= 128 / 32 * (4 * MAX_THREADS / 128) < 2 ^ 31)%Z).
  { change (128 / 32)%Z with 4%Z. change (2 ^ 31)%Z with 2147483648%Z.
    pose proof (Z.div_le_lower_bound (4 * MAX_THREADS) 128 1 ltac:(lia) ltac:(lia)).
    pose proof (Z.div_le_upper_bound (4 * MAX_THREADS) 128 33554432
                  ltac:(lia) ltac:(lia)).
    lia. }
  destruct (plan_geometry 128 (4 * MAX_THREADS / 128) (num_entries d_coo)
              Hrange ltac:(lia) HU)
    as (u & q & Hq & Hqu & Htl & His & HtlZ & HisZ & HuN & Hrest & HL & Hu26).
  set (p := launch_plan 128 (4 * MAX_THREADS / 128) (num_entries d_coo)) in *.
  rewrite Htl, His, Hrest.
  change (Z.to_nat (128 / 32)) with 4 in HL.
  assert (Hs32 : forall i j, i <= j -> j < 32 * u ->
            (ldi (row_indices d_coo) i <= ldi (row_indices d_coo) j)%Z).
  { intros i j Hij Hj. apply Hsort; lia. }
  eexists. split.
  { unfold launch. cbn [dev_y dev_log]. rewrite <- !replay_app, <- !app_assoc.
    reflexivity. }
  intros r. rewrite !ev_total_app.
  rewrite spmv_coo_flat_atomic_kernel_total;
    [ | exact Hq | exact Hs32 | change (128 / 32) with 4; exact HL ].
  rewrite spmv_coo_serial_kernel_total, row_sum_range.
  replace (Z.to_nat (num_entries d_coo))
    with (32 * u + (Z.to_nat (num_entries d_coo) - 32 * u)) at 2 by lia.
  rewrite range_total_app, Nat.add_0_l, range_total_any_cache. reflexivity.
Qed.

(** The output vector after a run that added [evs]. *)
Lemma ld_launch evs (dev : Device) i :
  i < length (dev_y dev) ->
  ld (dev_y (launch evs dev)) i
  = vadd (ld (dev_y dev) i) (ev_total (Z.of_nat i) evs).
Proof. intros Hi. unfold launch. cbn [dev_y]. apply ld_replay. exact Hi. Qed.

Lemma length_launch evs (dev : Device) :
  length (dev_y (launch evs dev)) = length (dev_y dev).
Proof. unfold launch. cbn [dev_y]. apply length_replay. Qed.

Lemma list_eq_ld (l k : list T) :
  length l = length k -> (forall i, i < length l -> ld l i = ld k i) -> l = k.
Proof.
  intros Hlen Hld. apply list_eq. intros i.
  destruct (decide (i < length l)) as [Hi|Hi].
  - destruct (lookup_lt_is_Some_2 l i Hi) as [a Ha].
    destruct (lookup_lt_is_Some_2 k i ltac:(lia)) as [b Hb].
    specialize (Hld i Hi). unfold ld in Hld. rewrite Ha, Hb in Hld.
    simpl in Hld. rewrite Ha, Hb, Hld. reflexivity.
  - rewrite !lookup_ge_None_2 by lia. reflexivity.
Qed.

(** Two runs that add the same amount to every row leave the same vector. *)
Lemma launch_same_y evs1 evs2 (dev : Device) :
  (forall r, ev_total r evs1 = ev_total r evs2) ->
  dev_y (launch evs1 dev) = dev_y (launch evs2 dev).
Proof.
  intros Heq. apply list_eq_ld.
  - rewrite !length_launch. reflexivity.
  - intros i Hi. rewrite length_launch in Hi.
    rewrite !ld_launch by exact Hi. rewrite Heq. reflexivity.
Qed.

(** The cached and the direct reads return the same element, so the two
    drivers do not depend on [UseCache] at all. *)
Lemma warp_stride_cache k kind I J (V x : list T) warp_id n c :
  warp_stride k kind true (bind_x x) I J V x warp_id n c
  = warp_stride k kind false [] I J V x warp_id n c.
Proof. reflexivity. Qed.

Lemma warp_loop_cache fuel k kind I J (V x : list T) warp_id n end_ c :
  warp_loop fuel k kind true (bind_x x) I J V x warp_id n end_ c
  = warp_loop fuel k kind false [] I J V x warp_id n end_ c.
Proof.
  revert n c. induction fuel as [|fuel IH]; intros n c; [reflexivity|].
  cbn [warp_loop]. rewrite warp_stride_cache.
  destruct (bool_decide (n < end_)); [|reflexivity].
  destruct (warp_stride _ _ _ _ _ _ _ _ _ _ _) as [ev c'].
  rewrite IH. reflexivity.
Qed.

Lemma flat_warp_cache tail_ is_ I J (V x : list T) warp_id :
  flat_warp true (bind_x x) tail_ is_ I J V x warp_id
  = flat_warp false [] tail_ is_ I J V x warp_id.
Proof. unfold flat_warp. rewrite warp_loop_cache. reflexivity. Qed.

Lemma atomic_warp_cache tail_ is_ I J (V x : list T) warp_id :
  atomic_warp true (bind_x x) tail_ is_ I J V x warp_id
  = atomic_warp false [] tail_ is_ I J V x warp_id.
Proof. unfold atomic_warp. rewrite warp_loop_cache. reflexivity. Qed.

Lemma foldl_step_ext {A B} (f g : A -> B -> A) (l : list B) (a : A) :
  (forall a b, f a b = g a b) -> foldl f a l = foldl g a l.
Proof.
  intros Hfg. revert a. induction l as [|b l IH]; intros a; [reflexivity|].
  simpl. rewrite Hfg. apply IH.
Qed.

Lemma spmv_coo_flat_kernel_cache BLOCK_SIZE num_blocks tail_ is_ I J (V x : list T)
    temp_rows temp_vals :
  spmv_coo_flat_kernel BLOCK_SIZE num_blocks true (bind_x x) tail_ is_ I J V x
    temp_rows temp_vals
  = spmv_coo_flat_kernel BLOCK_SIZE num_blocks false [] tail_ is_ I J V x
      temp_rows temp_vals.
Proof.
  unfold spmv_coo_flat_kernel. apply foldl_step_ext. intros st w.
  rewrite flat_warp_cache. reflexivity.
Qed.

Lemma spmv_coo_flat_atomic_kernel_cache BLOCK_SIZE num_blocks tail_ is_ I J
    (V x : list T) :
  spmv_coo_flat_atomic_kernel BLOCK_SIZE num_blocks true (bind_x x) tail_ is_
    I J V x
  = spmv_coo_flat_atomic_kernel BLOCK_SIZE num_blocks false [] tail_ is_ I J V x.
Proof.
  unfold spmv_coo_flat_atomic_kernel. f_equal. unfold tab.
  apply list_fmap_ext. intros i w _. apply atomic_warp_cache.
Qed.

Lemma spmv_coo_flat_tex_eq MAX_THREADS (d_coo : coo_matrix T) d_x dev :
  spmv_coo_flat_tex MAX_THREADS d_coo d_x dev
  = spmv_coo_flat MAX_THREADS d_coo d_x dev.
Proof.
  unfold spmv_coo_flat_tex, spmv_coo_flat, __spmv_coo_flat.
  rewrite spmv_coo_flat_kernel_cache. reflexivity.
Qed.

Lemma spmv_coo_flat_atomic_tex_eq MAX_THREADS (d_coo : coo_matrix T) d_x dev :
  spmv_coo_flat_atomic_tex MAX_THREADS d_coo d_x dev
  = spmv_coo_flat_atomic MAX_THREADS d_coo d_x dev.
Proof.
  unfold spmv_coo_flat_atomic_tex, spmv_coo_flat_atomic, __spmv_coo_flat_atomic.
  rewrite spmv_coo_flat_atomic_kernel_cache. reflexivity.
Qed.

(** ** Which accumulations a kernel makes *)

Lemma elem_of_mjoin_tab {A} (f : nat -> list A) n (a : A) :
  a ∈ mjoin (tab n f) <-> exists t, t < n /\ a ∈ f t.
Proof.
  rewrite list_elem_of_join. split.
  - intros (l & Ha & Hl). unfold tab in Hl.
    apply list_elem_of_fmap in Hl as (t & -> & Ht). apply elem_of_seq in Ht.
    exists t. split; [lia | exact Ha].
  - intros (t & Ht & Ha). exists (f t). split; [exact Ha|].
    unfold tab. apply list_elem_of_fmap. exists t. split; [reflexivity|].
    apply elem_of_seq. lia.
Qed.

(** The writes of one stride: tagged with the kernel and the warp, of the
    kind chosen for their row, and for rows from the carried row up to, but
    not including, the row of the last lane. *)
Lemma warp_stride_events k kind UseCache x_tex I J (V x : list T) warp_id n c e :
  (forall i j, n <= i -> i <= j -> j < n + 32 -> (ldi I i <= ldi I j)%Z) ->
  (carry_idx c <= ldi I n)%Z ->
  e ∈ (warp_stride k kind UseCache x_tex I J V x warp_id n c).1 ->
  ev_kernel e = k /\ ev_unit e = warp_id /\ ev_kind e = kind (ev_row e)
  /\ (carry_idx c <= ev_row e < ldi I (n + 31))%Z.
Proof.
  intros Hs Hc He. unfold warp_stride in He. cbn [fst] in He.
  assert (Hidx : forall l, l < 32 ->
            ldi (tab 32 (fun l => ldi I (n + l))) l = ldi I (n + l)).
  { intros l Hl. exact (ldi_tab 32 (fun l => ldi I (n + l)) l Hl). }
  apply elem_of_app in He as [He|He].
  - rewrite Hidx in He by lia. case_bool_decide as Hne.
    + apply elem_of_nil in He. destruct He.
    + apply list_elem_of_singleton in He. subst e. cbn [ev_kernel ev_unit ev_kind ev_row].
      replace (n + 0) with n in Hne by lia.
      pose proof (Hs n (n + 31) ltac:(lia) ltac:(lia) ltac:(lia)).
      repeat split; lia.
  - apply elem_of_mjoin_tab in He as (l & Hl & He).
    rewrite !Hidx in He by lia. case_bool_decide as Hne.
    + apply list_elem_of_singleton in He. subst e.
      cbn [ev_kernel ev_unit ev_kind ev_row].
      pose proof (Hs n (n + l) ltac:(lia) ltac:(lia) ltac:(lia)).
      pose proof (Hs (n + l) (n + (l + 1)) ltac:(lia) ltac:(lia) ltac:(lia)).
      pose proof (Hs (n + (l + 1)) (n + 31) ltac:(lia) ltac:(lia) ltac:(lia)).
      repeat split; lia.
    + apply elem_of_nil in He. destruct He.
Qed.

Lemma warp_loop_events k kind UseCache x_tex I J (V x : list T) warp_id e iters :
  forall fuel n end_ c,
  end_ = n + 32 * iters -> iters <= fuel ->
  (forall i j, n <= i -> i <= j -> j < end_ -> (ldi I i <= ldi I j)%Z) ->
  (carry_idx c <= ldi I n)%Z ->
  e ∈ (warp_loop fuel k kind UseCache x_tex I J V x warp_id n end_ c).1 ->
  ev_kernel e = k /\ ev_unit e = warp_id /\ ev_kind e = kind (ev_row e)
  /\ (carry_idx c <= ev_row e < ldi I (end_ - 1))%Z.
Proof.
  induction iters as [|iters IH]; intros fuel n end_ c Hend Hfuel Hs Hc He.
  - rewrite warp_loop_done in He by lia. apply elem_of_nil in He. destruct He.
  - destruct fuel as [|fuel]; [lia|]. cbn [warp_loop] in He.
    rewrite bool_decide_eq_true_2 in He by lia.
    pose proof (warp_stride_events k kind UseCache x_tex I J V x warp_id n c) as Hst.
    pose proof (warp_stride_carry_idx k kind UseCache x_tex I J V x warp_id n c) as Hci.
    destruct (warp_stride k kind UseCache x_tex I J V x warp_id n c) as [ev c'].
    cbn [fst snd] in Hst, Hci.
    pose proof (IH fuel (n + 32) end_ c' ltac:(lia) ltac:(lia)
                  ltac:(intros; apply Hs; lia)) as Hl.
    destruct (warp_loop fuel k kind UseCache x_tex I J V x warp_id (n + 32) end_ c')
      as [evs c''] eqn:El.
    cbn [fst snd] in *.
    pose proof (Hs (n + 31) (end_ - 1) ltac:(lia) ltac:(lia) ltac:(lia)).
    pose proof (Hs n (n + 31) ltac:(lia) ltac:(lia) ltac:(lia)).
    apply elem_of_app in He as [He|He].
    + destruct (Hst e ltac:(intros; apply Hs; lia) Hc He) as (? & ? & ? & ?).
      repeat split; try assumption; lia.
    + destruct iters as [|iters].
      { rewrite warp_loop_done in El by lia. inversion El; subst.
        apply elem_of_nil in He. destruct He. }
      pose proof (Hs (n + 31) (n + 32) ltac:(lia) ltac:(lia) ltac:(lia)).
      destruct (Hl ltac:(lia) He) as (? & ? & ? & ?).
      repeat split; try assumption; lia.
Qed.

Lemma atomic_kind_plain first r : atomic_kind first r = PlainAdd <-> r <> first.
Proof.
  unfold atomic_kind. case_bool_decide; split; intros; try done.
Qed.

(** The writes of one warp of the atomic kernel: those of the loop, for rows
    from the first row of the interval up to, but not including, the last
    one, and the final carry, atomic and for the last row. *)
Lemma atomic_warp_events UseCache x_tex I J (V x : list T) warp_id q u e :
  0 < q ->
  (forall i j, i <= j -> j < 32 * u -> (ldi I i <= ldi I j)%Z) ->
  e ∈ atomic_warp UseCache x_tex (32 * u) (32 * q) I J V x warp_id ->
  warp_id * (32 * q) < 32 * u
  /\ ev_kernel e = K_atomic /\ ev_unit e = warp_id
  /\ ((ev_kind e = atomic_kind (ldi I (warp_id * (32 * q))) (ev_row e)
       /\ (ldi I (warp_id * (32 * q)) <= ev_row e
           < ldi I (Nat.min (warp_id * (32 * q) + 32 * q) (32 * u) - 1))%Z)
      \/ (ev_kind e = AtomicAdd
          /\ ev_row e
             = ldi I (Nat.min (warp_id * (32 * q) + 32 * q) (32 * u) - 1))).
Proof.
  intros Hq Hs He.
  destruct (decide (warp_id * (32 * q) < 32 * u)) as [Hw|Hw].
  2:{ rewrite atomic_warp_idle in He by lia. apply elem_of_nil in He. destruct He. }
  split; [exact Hw|].
  destruct (interval_iters warp_id q u Hq Hw) as (it & Hit & Hend).
  unfold atomic_warp, thread_begin, thread_end in He. rewrite Hend in He.
  rewrite bool_decide_eq_false_2 in He by lia.
  set (b := warp_id * (32 * q)) in *.
  pose proof (fun e => warp_loop_events K_atomic (atomic_kind (ldi I b))
    UseCache x_tex I J V x warp_id e it (b + 0 + 32 * it - (b + 0)) (b + 0)
    (b + 0 + 32 * it) (mkCarry (ldi I b) vzero) eq_refl ltac:(lia)
    ltac:(intros; apply Hs; lia)) as Hev.
  destruct (warp_loop_total K_atomic (atomic_kind (ldi I b))
    UseCache x_tex I J V x warp_id 0%Z it (b + 0 + 32 * it - (b + 0)) (b + 0)
    (b + 0 + 32 * it) (mkCarry (ldi I b) vzero) eq_refl ltac:(lia)
    ltac:(intros; apply Hs; lia)) as [_ Hci].
  destruct (warp_loop _ _ _ _ _ _ _ _ _ _ _ _ _) as [ev c].
  cbn [fst snd carry_idx] in *.
  replace (Nat.min (b + 32 * q) (32 * u) - 1) with (b + 0 + 32 * it - 1) by lia.
  apply elem_of_app in He as [He|He].
  - destruct (Hev e ltac:(replace (b + 0) with b by lia; lia) He)
      as (Hk & Hu & Hkind & Hrow).
    split; [exact Hk|]. split; [exact Hu|]. left. split; [exact Hkind|]. exact Hrow.
  - apply list_elem_of_singleton in He. subst e. cbn.
    split; [reflexivity|]. split; [reflexivity|]. right.
    split; [reflexivity|]. apply Hci. lia.
Qed.

(** C4: in the atomic kernel, run on an interval size and an entry count
    that are multiples of the warp width and on sorted rows, every
    accumulation into the first row of a warp's interval is an atomic add,
    the last accumulation of every warp that has work is its final carry,
    added atomically, a plain add is made only for a row whose entries all
    lie strictly inside the interval of the warp that makes it, and so two
    plain adds by different warps never go to the same cell of [y]. *)
Theorem atomic_kernel_discipline (BLOCK_SIZE num_blocks : nat) (UseCache : bool)
    (x_tex : list T) (I J : list Z) (V x : list T) (q u : nat) :
  0 < q -> 32 * u <= length I -> nondecreasing I = true ->
  let interval_size := 32 * q in
  let num_entries := 32 * u in
  let evs := spmv_coo_flat_atomic_kernel BLOCK_SIZE num_blocks UseCache x_tex
               num_entries interval_size I J V x in
  let iv_begin w := thread_begin w interval_size 0 in
  let iv_end w := thread_end (iv_begin w) interval_size num_entries in
  (forall e, e ∈ evs ->
     ev_row e = ldi I (iv_begin (ev_unit e)) -> ev_kind e = AtomicAdd)
  /\ (forall w, w < num_blocks * (BLOCK_SIZE / 32) -> iv_begin w < iv_end w ->
       exists evs' c,
         atomic_warp UseCache x_tex num_entries interval_size I J V x w
         = evs' ++ [mkEvent K_atomic w AtomicAdd (carry_idx c) (carry_val c)])
  /\ (forall e, e ∈ evs -> ev_kind e = PlainAdd ->
       forall n, n < num_entries -> ldi I n = ev_row e ->
         iv_begin (ev_unit e) < n < iv_end (ev_unit e) - 1)
  /\ (forall e1 e2, e1 ∈ evs -> e2 ∈ evs ->
       ev_kind e1 = PlainAdd -> ev_kind e2 = PlainAdd ->
       ev_unit e1 <> ev_unit e2 -> ev_row e1 <> ev_row e2).
Proof.
  intros Hq Hlen Hnd interval_size num_entries evs iv_begin iv_end.
  assert (Hs : forall i j, i <= j -> j < 32 * u -> (ldi I i <= ldi I j)%Z).
  { intros i j Hij Hj. apply nondecreasing_le; [exact Hnd | lia | lia]. }
  assert (Hin : forall e, e ∈ evs ->
            e ∈ atomic_warp UseCache x_tex (32 * u) (32 * q) I J V x (ev_unit e)).
  { intros e He. unfold evs, spmv_coo_flat_atomic_kernel in He.
    apply elem_of_mjoin_tab in He as (w & Hw & He).
    destruct (atomic_warp_events UseCache x_tex I J V x w q u e Hq Hs He)
      as (_ & _ & Hu & _).
    rewrite Hu. exact He. }
  assert (Hplain : forall e, e ∈ evs -> ev_kind e = PlainAdd ->
            ev_unit e * (32 * q) < 32 * u
            /\ (ldi I (ev_unit e * (32 * q)) < ev_row e
                < ldi I (Nat.min (ev_unit e * (32 * q) + 32 * q) (32 * u) - 1))%Z).
  { intros e He Hk.
    destruct (atomic_warp_events UseCache x_tex I J V x (ev_unit e) q u e Hq Hs
                (Hin e He)) as (Hw & _ & _ & [[Hkind Hrow]|[Hkind _]]).
    - rewrite Hk in Hkind. symmetry in Hkind. apply atomic_kind_plain in Hkind.
      split; [exact Hw|]. lia.
    - rewrite Hk in Hkind. discriminate. }
  assert (Hb : forall w, iv_begin w = w * (32 * q)).
  { intros w. unfold iv_begin, thread_begin, interval_size. lia. }
  assert (He' : forall w, iv_end w = Nat.min (w * (32 * q) + 32 * q) (32 * u)).
  { intros w. unfold iv_end, thread_end. rewrite Hb. reflexivity. }
  split; [|split; [|split]].
  - intros e He Hrow. rewrite Hb in Hrow.
    destruct (atomic_warp_events UseCache x_tex I J V x (ev_unit e) q u e Hq Hs
                (Hin e He)) as (Hw & _ & _ & [[Hkind _]|[Hkind _]]).
    + rewrite Hkind. unfold atomic_kind.
      rewrite bool_decide_eq_false_2 by (intros Hne; apply Hne; exact Hrow).
      reflexivity.
    + exact Hkind.
  - intros w Hw Hact. rewrite He', Hb in Hact.
    unfold atomic_warp. fold (iv_begin w). fold (iv_end w).
    rewrite bool_decide_eq_false_2 by (rewrite He', Hb; lia).
    destruct (warp_loop _ _ _ _ _ _ _ _ _ _ _ _ _) as [ev c].
    exists ev, c. reflexivity.
  - intros e He Hk n Hn Hrow. rewrite He', Hb.
    destruct (Hplain e He Hk) as [Hw Hr].
    set (w := ev_unit e) in *.
    destruct (decide (w * (32 * q) < n)) as [Hlo|Hlo].
    + split; [exact Hlo|].
      destruct (decide (n < Nat.min (w * (32 * q) + 32 * q) (32 * u) - 1))
        as [Hhi|Hhi]; [exact Hhi|].
      pose proof (Hs (Nat.min (w * (32 * q) + 32 * q) (32 * u) - 1) n
                    ltac:(lia) Hn). lia.
    + pose proof (Hs n (w * (32 * q)) ltac:(lia) ltac:(lia)). lia.
  - intros e1 e2 He1 He2 Hk1 Hk2 Hne Heq.
    destruct (Hplain e1 He1 Hk1) as [Hw1 Hr1].
    destruct (Hplain e2 He2 Hk2) as [Hw2 Hr2].
    set (w1 := ev_unit e1) in *. set (w2 := ev_unit e2) in *.
    destruct (decide (w1 < w2)) as [Hlt|Hge].
    + assert (w1 * (32 * q) + 32 * q <= w2 * (32 * q)) by nia.
      pose proof (Hs (Nat.min (w1 * (32 * q) + 32 * q) (32 * u) - 1)
                    (w2 * (32 * q)) ltac:(lia) ltac:(lia)). lia.
    + assert (w2 * (32 * q) + 32 * q <= w1 * (32 * q)) by nia.
      pose proof (Hs (Nat.min (w2 * (32 * q) + 32 * q) (32 * u) - 1)
                    (w1 * (32 * q)) ltac:(lia) ltac:(lia)). lia.
Qed.

Lemma elem_of_flush_tab n (c : nat -> bool) (mk : nat -> Event T) e :
  e ∈ mjoin (tab n (fun t => if c t then [mk t] else [])) ->
  exists t, t < n /\ c t = true /\ e = mk t.
Proof.
  intros He. apply elem_of_mjoin_tab in He as (t & Ht & He).
  destruct (c t) eqn:Hc; [|apply elem_of_nil in He; destruct He].
  apply list_elem_of_singleton in He. exists t. auto.
Qed.

Lemma elem_of_flush_tab2 n (c1 c2 : nat -> bool) (mk : nat -> Event T) e :
  e ∈ mjoin (tab n (fun t => if c1 t then if c2 t then [mk t] else [] else [])) ->
  exists t, t < n /\ c1 t = true /\ c2 t = true /\ e = mk t.
Proof.
  intros He. apply elem_of_mjoin_tab in He as (t & Ht & He).
  destruct (c1 t) eqn:Hc1; [|apply elem_of_nil in He; destruct He].
  destruct (c2 t) eqn:Hc2; [|apply elem_of_nil in He; destruct He].
  apply list_elem_of_singleton in He. exists t. auto.
Qed.

Lemma ldi_app_tab n (f : nat -> Z) (l : list Z) t :
  t < n -> ldi (tab n f ++ l) t = f t.
Proof.
  intros Ht. unfold ldi. rewrite lookup_app_l by (rewrite length_tab; lia).
  rewrite lookup_tab by lia. reflexivity.
Qed.

Lemma reduce_full_block_events B base temp_rows (temp_vals : list T) e :
  e ∈ reduce_full_block B base temp_rows temp_vals ->
  ev_kernel e = K_reduce /\ ev_kind e = PlainAdd
  /\ base <= ev_unit e < base + B /\ ev_row e = ldi temp_rows (ev_unit e).
Proof.
  intros He. unfold reduce_full_block in He.
  apply elem_of_flush_tab in He as (t & Ht & _ & ->).
  cbn [ev_kernel ev_kind ev_unit ev_row].
  split; [reflexivity|]. split; [reflexivity|]. split; [lia|].
  exact (ldi_app_tab B (fun t => ldi temp_rows (base + t)) _ t Ht).
Qed.

Lemma reduce_partial_block_events B base num_warps temp_rows (temp_vals : list T) e :
  e ∈ reduce_partial_block B base num_warps temp_rows temp_vals ->
  ev_kernel e = K_reduce /\ ev_kind e = PlainAdd
  /\ base <= ev_unit e < num_warps /\ ev_row e = ldi temp_rows (ev_unit e).
Proof.
  intros He. unfold reduce_partial_block in He.
  apply elem_of_flush_tab2 in He as (t & Ht & Hlive & _ & ->).
  apply bool_decide_eq_true in Hlive.
  cbn [ev_kernel ev_kind ev_unit ev_row].
  split; [reflexivity|]. split; [reflexivity|]. split; [lia|].
  unfold partial_rows. rewrite ldi_app_tab by exact Ht.
  rewrite bool_decide_eq_true_2 by exact Hlive. reflexivity.
Qed.

Lemma reduce_loop_events B temp_rows (temp_vals : list T) e k :
  forall fuel i end_,
  end_ = i + B * k -> k <= fuel ->
  e ∈ (reduce_loop fuel B i end_ temp_rows temp_vals).1 ->
  ev_kernel e = K_reduce /\ ev_kind e = PlainAdd
  /\ i <= ev_unit e < end_ /\ ev_row e = ldi temp_rows (ev_unit e).
Proof.
  induction k as [|k IH]; intros fuel i end_ Hend Hfuel He.
  - assert (Hdone : reduce_loop fuel B i end_ temp_rows temp_vals = ([], i)).
    { destruct fuel; [reflexivity|]. cbn [reduce_loop].
      rewrite bool_decide_eq_false_2 by lia. reflexivity. }
    rewrite Hdone in He. apply elem_of_nil in He. destruct He.
  - destruct fuel as [|fuel]; [lia|]. cbn [reduce_loop] in He.
    destruct (decide (i < end_)) as [Hlt|Hge].
    2:{ rewrite bool_decide_eq_false_2 in He by exact Hge.
        apply elem_of_nil in He. destruct He. }
    rewrite bool_decide_eq_true_2 in He by exact Hlt.
    pose proof (IH fuel (i + B) end_ ltac:(lia) ltac:(lia)) as Hl.
    destruct (reduce_loop fuel B (i + B) end_ temp_rows temp_vals)
      as [evs i'].
    cbn [fst] in *. apply elem_of_app in He as [He|He].
    + apply reduce_full_block_events in He as (? & ? & ? & ?).
      repeat split; try assumption; nia.
    + destruct (Hl He) as (? & ? & ? & ?). repeat split; try assumption; lia.
Qed.

Lemma spmv_coo_reduce_update_kernel_events num_warps temp_rows
    (temp_vals : list T) e :
  e ∈ spmv_coo_reduce_update_kernel 512 num_warps temp_rows temp_vals ->
  ev_kernel e = K_reduce /\ ev_kind e = PlainAdd
  /\ ev_unit e < num_warps /\ ev_row e = ldi temp_rows (ev_unit e).
Proof.
  set (B := 512). assert (HB : B = 512) by reflexivity. clearbody B.
  unfold spmv_coo_reduce_update_kernel.
  pose proof (Nat.land_ones num_warps 9) as Hland.
  change (Nat.ones 9) with (512 - 1) in Hland. change (2 ^ 9) with 512 in Hland.
  rewrite <- HB in Hland. rewrite Hland. clear Hland.
  pose proof (Nat.div_mod_eq num_warps B) as Hdm.
  pose proof (Nat.mod_upper_bound num_warps B ltac:(lia)) as Hmod.
  set (k := num_warps / B) in *. set (m := num_warps mod B) in *.
  replace (num_warps - m) with (B * k) by lia.
  pose proof (reduce_loop_events B temp_rows temp_vals e k (B * k) 0 (B * k)
                ltac:(lia) ltac:(nia)) as Hl.
  destruct (reduce_loop (B * k) B 0 (B * k) temp_rows temp_vals) as [ev i].
  cbn [fst] in Hl. intros He.
  assert (He' : e ∈ ev \/ e ∈ reduce_partial_block B i num_warps temp_rows temp_vals).
  { destruct (bool_decide (B * k < num_warps)); [|left; exact He].
    apply elem_of_app in He. exact He. }
  destruct He' as [He'|He'].
  - destruct (Hl He') as (? & ? & ? & ?). repeat split; try assumption; nia.
  - apply reduce_partial_block_events in He' as (? & ? & ? & ?).
    repeat split; try assumption; lia.
Qed.

(** The tags of the level-1 writes need no assumption on the input. *)
Lemma warp_stride_tags k kind UseCache x_tex I J (V x : list T) warp_id n c e :
  e ∈ (warp_stride k kind UseCache x_tex I J V x warp_id n c).1 ->
  ev_kernel e = k /\ ev_unit e = warp_id /\ ev_kind e = kind (ev_row e).
Proof.
  intros He. unfold warp_stride in He. cbn [fst] in He.
  apply elem_of_app in He as [He|He].
  - destruct (bool_decide _); [apply elem_of_nil in He; destruct He|].
    apply list_elem_of_singleton in He. subst e. auto.
  - apply elem_of_flush_tab in He as (l & _ & _ & ->). auto.
Qed.

Lemma warp_loop_tags k kind UseCache x_tex I J (V x : list T) warp_id end_ e :
  forall fuel n c,
  e ∈ (warp_loop fuel k kind UseCache x_tex I J V x warp_id n end_ c).1 ->
  ev_kernel e = k /\ ev_unit e = warp_id /\ ev_kind e = kind (ev_row e).
Proof.
  induction fuel as [|fuel IH]; intros n c He.
  - apply elem_of_nil in He. destruct He.
  - cbn [warp_loop] in He.
    destruct (bool_decide (n < end_)); [|apply elem_of_nil in He; destruct He].
    pose proof (warp_stride_tags k kind UseCache x_tex I J V x warp_id n c e) as Hst.
    destruct (warp_stride k kind UseCache x_tex I J V x warp_id n c) as [ev c'].
    specialize (IH (n + 32) c').
    destruct (warp_loop fuel k kind UseCache x_tex I J V x warp_id (n + 32) end_ c')
      as [evs c''].
    cbn [fst] in *. apply elem_of_app in He as [He|He]; auto.
Qed.

Lemma spmv_coo_flat_kernel_tags BLOCK_SIZE num_blocks UseCache x_tex tail_ is_
    I J (V x : list T) temp_rows temp_vals e :
  e ∈ (spmv_coo_flat_kernel BLOCK_SIZE num_blocks UseCache x_tex tail_ is_
         I J V x temp_rows temp_vals).1 ->
  ev_kernel e = K_flat /\ ev_kind e = PlainAdd
  /\ ev_unit e < num_blocks * (BLOCK_SIZE / 32).
Proof.
  unfold spmv_coo_flat_kernel.
  set (step := fun (st : list (Event T) * (list Z * list T)) warp_id => _).
  generalize (num_blocks * (BLOCK_SIZE / 32)). intros L.
  induction L as [|L IH].
  - intros He. apply elem_of_nil in He. destruct He.
  - rewrite seq_S, foldl_app. cbn [foldl]. rewrite Nat.add_0_l.
    destruct (foldl step ([], (temp_rows, temp_vals)) (seq 0 L)) as [evs [tr tv]].
    cbn [fst] in IH. unfold step at 1.
    destruct (flat_warp UseCache x_tex tail_ is_ I J V x L) as [[ev c]|] eqn:Hfw.
    + cbn [fst snd]. intros He. apply elem_of_app in He as [He|He].
      * destruct (IH He) as (? & ? & ?). repeat split; try assumption; lia.
      * unfold flat_warp in Hfw.
        destruct (bool_decide _) in Hfw; [discriminate|].
        inversion Hfw as [Hloop]. clear Hfw.
        pose proof (warp_loop_tags K_flat (fun _ => PlainAdd) UseCache x_tex
                      I J V x L _ e _ _ _ ltac:(rewrite Hloop; exact He))
          as (? & ? & ?).
        repeat split; try assumption; lia.
    + intros He. destruct (IH He) as (? & ? & ?).
      repeat split; try assumption; lia.
Qed.

Lemma spmv_coo_serial_kernel_tags n I J (V x : list T) e :
  e ∈ spmv_coo_serial_kernel n I J V x ->
  ev_kernel e = K_serial /\ ev_kind e = PlainAdd.
Proof.
  intros He. unfold spmv_coo_serial_kernel, tab in He.
  apply list_elem_of_fmap in He as (m & -> & _). auto.
Qed.

Lemma spmv_coo_flat_atomic_kernel_tags BLOCK_SIZE num_blocks UseCache x_tex
    tail_ is_ I J (V x : list T) e :
  e ∈ spmv_coo_flat_atomic_kernel BLOCK_SIZE num_blocks UseCache x_tex tail_ is_
        I J V x ->
  ev_kernel e = K_atomic.
Proof.
  intros He. unfold spmv_coo_flat_atomic_kernel in He.
  apply elem_of_mjoin_tab in He as (w & _ & He). unfold atomic_warp in He.
  destruct (bool_decide _); [apply elem_of_nil in He; destruct He|].
  pose proof (warp_loop_tags K_atomic
    (atomic_kind (ldi I (w * is_))) UseCache x_tex I J V x w
    (thread_end (thread_begin w is_ 0) is_ tail_) e
    (thread_end (thread_begin w is_ 0) is_ tail_ - thread_begin w is_ 0)
    (thread_begin w is_ 0) (mkCarry (ldi I (w * is_)) vzero)) as Hl.
  destruct (warp_loop _ _ _ _ _ _ _ _ _ _ _ _ _) as [ev c].
  cbn [fst] in Hl. apply elem_of_app in He as [He|He].
  - apply Hl in He as (? & _). assumption.
  - apply list_elem_of_singleton in He. subst e. reflexivity.
Qed.

(** The accumulations a run of a driver adds to the log: plain adds of the
    level-1, level-2 and sequential kernels for the deferred driver, and
    accumulations of the atomic and sequential kernels for the atomic one;
    none is made by the scatter kernel. *)
Lemma spmv_coo_flat_log_tags MAX_THREADS UseCache (d_coo : coo_matrix T) d_x dev e :
  e ∈ dev_log (__spmv_coo_flat MAX_THREADS UseCache d_coo d_x dev) ->
  e ∈ dev_log dev
  \/ (ev_kind e = PlainAdd
      /\ (ev_kernel e = K_flat \/ ev_kernel e = K_reduce \/ ev_kernel e = K_serial)).
Proof.
  unfold __spmv_coo_flat.
  destruct (bool_decide (num_entries d_coo = 0)%Z); [auto|].
  destruct (bool_decide (num_entries d_coo < WARP_SIZE)%Z).
  - unfold launch. cbn [dev_log]. intros He.
    apply elem_of_app in He as [He|He]; [auto|].
    apply spmv_coo_serial_kernel_tags in He as [? ?]. auto.
  - change host_method with false. cbv iota. unfold launch. cbn [dev_log dev_y].
    intros He. apply elem_of_app in He as [He|He].
    + apply elem_of_app in He as [He|He].
      * apply elem_of_app in He as [He|He]; [auto|].
        apply spmv_coo_flat_kernel_tags in He as (? & ? & ?). auto.
      * apply spmv_coo_serial_kernel_tags in He as [? ?]. auto.
    + apply spmv_coo_reduce_update_kernel_events in He as (? & ? & ?). auto.
Qed.

Lemma spmv_coo_flat_atomic_log_tags MAX_THREADS UseCache (d_coo : coo_matrix T)
    d_x dev e :
  e ∈ dev_log (__spmv_coo_flat_atomic MAX_THREADS UseCache d_coo d_x dev) ->
  e ∈ dev_log dev \/ ev_kernel e = K_atomic \/ ev_kernel e = K_serial.
Proof.
  unfold __spmv_coo_flat_atomic.
  destruct (bool_decide (num_entries d_coo = 0)%Z); [auto|].
  destruct (bool_decide (num_entries d_coo < WARP_SIZE)%Z).
  - unfold launch. cbn [dev_log]. intros He.
    apply elem_of_app in He as [He|He]; [auto|].
    apply spmv_coo_serial_kernel_tags in He as [? ?]. auto.
  - unfold launch. cbn [dev_log dev_y].
    intros He. apply elem_of_app in He as [He|He].
    + apply elem_of_app in He as [He|He]; [auto|].
      apply spmv_coo_flat_atomic_kernel_tags in He. auto.
    + apply spmv_coo_serial_kernel_tags in He as [? ?]. auto.
Qed.

(** ** The warp as the unit of control *)

(** On an interval size and an entry count that are multiples of 32, the 32
    lanes of a warp agree on the early return and on every loop test, so the
    warp moves as one through [spmv_coo_flat_kernel] and
    [spmv_coo_flat_atomic_kernel]. *)
Lemma lanes_agree warp_id q u thread_lane k :
  thread_lane < 32 ->
  (thread_begin warp_id (32 * q) thread_lane + 32 * k
     < thread_end (thread_begin warp_id (32 * q) thread_lane) (32 * q) (32 * u)
   <-> thread_begin warp_id (32 * q) 0 + 32 * k
     < thread_end (thread_begin warp_id (32 * q) 0) (32 * q) (32 * u)).
Proof.
  intros Hl. unfold thread_begin, thread_end.
  assert (Hb : warp_id * (32 * q) = 32 * (warp_id * q)) by lia.
  rewrite Hb. set (b := warp_id * q). lia.
Qed.

(** ** Plain adds of the deferred level-1 kernel *)

Lemma flat_warp_events UseCache x_tex I J (V x : list T) warp_id q u ev c e :
  0 < q ->
  (forall i j, i <= j -> j < 32 * u -> (ldi I i <= ldi I j)%Z) ->
  flat_warp UseCache x_tex (32 * u) (32 * q) I J V x warp_id = Some (ev, c) ->
  e ∈ ev ->
  warp_id * (32 * q) < 32 * u
  /\ ev_unit e = warp_id
  /\ (ldi I (warp_id * (32 * q)) <= ev_row e
      < ldi I (Nat.min (warp_id * (32 * q) + 32 * q) (32 * u) - 1))%Z.
Proof.
  intros Hq Hs Hfw He.
  destruct (decide (warp_id * (32 * q) < 32 * u)) as [Hw|Hw].
  2:{ rewrite flat_warp_idle in Hfw by lia. discriminate. }
  split; [exact Hw|].
  destruct (interval_iters warp_id q u Hq Hw) as (it & Hit & Hend).
  unfold flat_warp, thread_begin, thread_end in Hfw. rewrite Hend in Hfw.
  rewrite bool_decide_eq_false_2 in Hfw by lia.
  set (b := warp_id * (32 * q)) in *.
  pose proof (warp_loop_events K_flat (fun _ => PlainAdd)
    UseCache x_tex I J V x warp_id e it (b + 0 + 32 * it - (b + 0)) (b + 0)
    (b + 0 + 32 * it) (mkCarry (ldi I (b + 0)) vzero) eq_refl ltac:(lia)
    ltac:(intros; apply Hs; lia) ltac:(cbn [carry_idx]; lia)) as Hev.
  apply (inj Some) in Hfw. rewrite Hfw in Hev. cbn [fst carry_idx] in Hev.
  destruct (Hev He) as (_ & Hu & _ & Hrow).
  split; [exact Hu|].
  replace (Nat.min (b + 32 * q) (32 * u) - 1) with (b + 0 + 32 * it - 1) by lia.
  replace b with (b + 0) at 1 by lia. exact Hrow.
Qed.

Lemma spmv_coo_flat_kernel_events BLOCK_SIZE num_blocks UseCache x_tex tail_ is_
    I J (V x : list T) temp_rows temp_vals e :
  e ∈ (spmv_coo_flat_kernel BLOCK_SIZE num_blocks UseCache x_tex tail_ is_
         I J V x temp_rows temp_vals).1 ->
  exists warp_id ev c,
    flat_warp UseCache x_tex tail_ is_ I J V x warp_id = Some (ev, c) /\ e ∈ ev.
Proof.
  unfold spmv_coo_flat_kernel.
  set (step := fun (st : list (Event T) * (list Z * list T)) warp_id => _).
  generalize (num_blocks * (BLOCK_SIZE / 32)). intros L.
  induction L as [|L IH].
  - intros He. apply elem_of_nil in He. destruct He.
  - rewrite seq_S, foldl_app. cbn [foldl]. rewrite Nat.add_0_l.
    destruct (foldl step ([], (temp_rows, temp_vals)) (seq 0 L)) as [evs [tr tv]].
    cbn [fst] in IH. unfold step at 1.
    destruct (flat_warp UseCache x_tex tail_ is_ I J V x L) as [[ev c]|] eqn:Hfw.
    + cbn [fst snd]. intros He. apply elem_of_app in He as [He|He].
      * exact (IH He).
      * exists L, ev, c. split; [exact Hfw | exact He].
    + exact IH.
Qed.

(** Two plain adds of the deferred level-1 kernel made by different warps go
    to different rows: a warp writes the rows that end inside its interval,
    and leaves the last one to its carry. *)
Lemma spmv_coo_flat_kernel_disjoint BLOCK_SIZE num_blocks UseCache x_tex I J
    (V x : list T) temp_rows temp_vals q u e1 e2 :
  0 < q ->
  (forall i j, i <= j -> j < 32 * u -> (ldi I i <= ldi I j)%Z) ->
  e1 ∈ (spmv_coo_flat_kernel BLOCK_SIZE num_blocks UseCache x_tex (32 * u)
          (32 * q) I J V x temp_rows temp_vals).1 ->
  e2 ∈ (spmv_coo_flat_kernel BLOCK_SIZE num_blocks UseCache x_tex (32 * u)
          (32 * q) I J V x temp_rows temp_vals).1 ->
  ev_unit e1 <> ev_unit e2 -> ev_row e1 <> ev_row e2.
Proof.
  intros Hq Hs He1 He2 Hne Heq.
  apply spmv_coo_flat_kernel_events in He1 as (w1 & ev1 & c1 & Hf1 & He1).
  apply spmv_coo_flat_kernel_events in He2 as (w2 & ev2 & c2 & Hf2 & He2).
  destruct (flat_warp_events _ _ _ _ _ _ _ _ _ _ _ _ Hq Hs Hf1 He1)
    as (Hw1 & Hu1 & Hr1).
  destruct (flat_warp_events _ _ _ _ _ _ _ _ _ _ _ _ Hq Hs Hf2 He2)
    as (Hw2 & Hu2 & Hr2).
  rewrite Hu1, Hu2 in Hne.
  destruct (decide (w1 < w2)) as [Hlt|Hge].
  - assert (w1 * (32 * q) + 32 * q <= w2 * (32 * q)) by nia.
    pose proof (Hs (Nat.min (w1 * (32 * q) + 32 * q) (32 * u) - 1)
                  (w2 * (32 * q)) ltac:(lia) ltac:(lia)). lia.
  - assert (w2 * (32 * q) + 32 * q <= w1 * (32 * q)) by nia.
    pose proof (Hs (Nat.min (w2 * (32 * q) + 32 * q) (32 * u) - 1)
                  (w1 * (32 * q)) ltac:(lia) ltac:(lia)). lia.
Qed.

(** ** Statements over any value type *)

(** C2: on one input of fewer than [2^30] entries, [spmv_coo_flat],
    [spmv_coo_flat_tex], [spmv_coo_flat_atomic] and
    [spmv_coo_flat_atomic_tex] leave the same output vector.  The result
    depends on the addition of the value type only through its being
    associative and commutative with a zero: the four results differ by the
    order of summation and by nothing else.  Below [2^30] entries no index
    of a kernel leaves the 32-bit [IndexType]. *)
Theorem four_variants_agree (MAX_THREADS : Z) (d_coo : coo_matrix T)
    (d_x : list T) (dev : Device) :
  sorted_coo d_coo = true ->
  (num_entries d_coo < 2 ^ 30)%Z ->
  (512 <= MAX_THREADS < 2 ^ 30)%Z ->
  dev_y (spmv_coo_flat_tex MAX_THREADS d_coo d_x dev)
    = dev_y (spmv_coo_flat MAX_THREADS d_coo d_x dev)
  /\ dev_y (spmv_coo_flat_atomic MAX_THREADS d_coo d_x dev)
    = dev_y (spmv_coo_flat MAX_THREADS d_coo d_x dev)
  /\ dev_y (spmv_coo_flat_atomic_tex MAX_THREADS d_coo d_x dev)
    = dev_y (spmv_coo_flat MAX_THREADS d_coo d_x dev).
Proof.
  intros Hwf HN HMT. apply below_2_30 in HN.
  rewrite spmv_coo_flat_tex_eq, spmv_coo_flat_atomic_tex_eq.
  split; [reflexivity|].
  assert (Heq : dev_y (spmv_coo_flat_atomic MAX_THREADS d_coo d_x dev)
                = dev_y (spmv_coo_flat MAX_THREADS d_coo d_x dev)).
  { unfold spmv_coo_flat_atomic, spmv_coo_flat.
    destruct (spmv_coo_flat_run MAX_THREADS false d_coo d_x dev Hwf HN HMT)
      as (e1 & -> & H1).
    destruct (spmv_coo_flat_atomic_run MAX_THREADS false d_coo d_x dev Hwf HN HMT)
      as (e2 & -> & H2).
    apply launch_same_y. intros r. rewrite H1, H2. reflexivity. }
  split; exact Heq.
Qed.

(** C6: a non-empty matrix with fewer entries than a warp is wide goes
    through the sequential kernel alone, in both drivers: the run is the
    single launch of [spmv_coo_serial_kernel] on the whole matrix, so the
    output vector is the one the serial computation leaves, and every row
    receives the serial sum of its entries. *)
Theorem small_matrix_serial_only (MAX_THREADS : Z) (UseCache : bool)
    (d_coo : coo_matrix T) (d_x : list T) (dev : Device) :
  (0 < num_entries d_coo < WARP_SIZE)%Z ->
  let serial :=
    spmv_coo_serial_kernel (Z.to_nat (num_entries d_coo)) (row_indices d_coo)
      (column_indices d_coo) (values d_coo) d_x in
  __spmv_coo_flat MAX_THREADS UseCache d_coo d_x dev = launch serial dev
  /\ __spmv_coo_flat_atomic MAX_THREADS UseCache d_coo d_x dev = launch serial dev
  /\ dev_y (launch serial dev) = replay serial (dev_y dev)
  /\ (forall e, e ∈ serial -> ev_kernel e = K_serial /\ ev_kind e = PlainAdd)
  /\ (forall i, i < length (dev_y dev) ->
        ld (dev_y (launch serial dev)) i
        = vadd (ld (dev_y dev) i) (row_sum d_coo d_x (Z.of_nat i))).
Proof.
  intros HN serial. unfold __spmv_coo_flat, __spmv_coo_flat_atomic.
  rewrite !(bool_decide_eq_false_2 (num_entries d_coo = 0)%Z) by lia.
  rewrite !(bool_decide_eq_true_2 (num_entries d_coo < WARP_SIZE)%Z) by lia.
  split; [reflexivity|]. split; [reflexivity|]. split; [reflexivity|]. split.
  - intros e He. unfold serial, spmv_coo_serial_kernel, tab in He.
    apply list_elem_of_fmap in He as (n & -> & _). split; reflexivity.
  - intros i Hi. rewrite ld_launch by exact Hi. f_equal.
    rewrite row_sum_range. apply (spmv_coo_serial_kernel_total _ 0).
Qed.

(** C7: on a warp-wide array of non-decreasing row indices, [segreduce_warp]
    is the five steps at distances 1, 2, 4, 8, 16; in a step a lane adds the
    value of the lane [d] positions earlier exactly when that lane exists
    and has the same row index; and afterwards lane [t] holds the sum of the
    initial values of the lanes up to and including [t] that share its row
    index. *)
Theorem segreduce_warp_scan (idx : list Z) (val : list T) :
  length idx = 32 -> length val = 32 -> nondecreasing idx = true ->
  segreduce_warp idx val
    = foldl (fun v d => seg_step d idx v) val [1; 2; 4; 8; 16]
  /\ (forall d (v : list T) t, t < length v ->
        ld (seg_step d idx v) t =
        if bool_decide (d <= t) && bool_decide (ldi idx t = ldi idx (t - d))
        then vadd (ld v t) (ld v (t - d)) else ld v t)
  /\ (forall t, t < 32 -> ld (segreduce_warp idx val) t = seg_sum idx val t).
Proof.
  intros Hli Hlv Hs. split; [reflexivity|]. split.
  - intros d v t Ht. apply ld_seg_step. exact Ht.
  - intros t Ht. rewrite seg_sum_total.
    apply (segreduce_warp_total 32); [lia | lia | | exact Ht].
    intros i j k Hij Hjk Hk Heq.
    pose proof (nondecreasing_le idx i j Hs Hij ltac:(lia)).
    pose proof (nondecreasing_le idx j k Hs Hjk ltac:(lia)). lia.
Qed.

(** C8: on a matrix without entries each of the four operations returns at
    once: the device is as it was, the output vector untouched and nothing
    added to the log of accumulations. *)
Theorem empty_matrix_noop (MAX_THREADS : Z) (d_coo : coo_matrix T)
    (d_x : list T) (dev : Device) :
  num_entries d_coo = 0%Z ->
  spmv_coo_flat MAX_THREADS d_coo d_x dev = dev
  /\ spmv_coo_flat_tex MAX_THREADS d_coo d_x dev = dev
  /\ spmv_coo_flat_atomic MAX_THREADS d_coo d_x dev = dev
  /\ spmv_coo_flat_atomic_tex MAX_THREADS d_coo d_x dev = dev.
Proof.
  intros HN.
  unfold spmv_coo_flat, spmv_coo_flat_tex, spmv_coo_flat_atomic,
    spmv_coo_flat_atomic_tex, __spmv_coo_flat, __spmv_coo_flat_atomic.
  rewrite !(bool_decide_eq_true_2 _ HN). auto.
Qed.

(** C10: in the level-2 kernel launched with 512 threads, the lanes of the
    last, partial block that have no carry hold the sentinel row [-1] and
    the value [0]; every accumulation of the kernel is made by a lane that
    holds a carry [i < num_warps], into the row [temp_rows[i]], so it is
    never made by a padding lane, and never into row [-1] when no carry has
    that row. *)
Theorem reduce_update_padding (num_warps : nat) (temp_rows : list Z)
    (temp_vals : list T) :
  let end_ := num_warps - Nat.land num_warps (512 - 1) in
  (forall t, t < 512 -> num_warps <= end_ + t ->
     ldi (partial_rows 512 end_ num_warps temp_rows) t = (-1)%Z
     /\ ld (partial_vals 512 end_ num_warps temp_vals) t = vzero)
  /\ (forall e,
       e ∈ spmv_coo_reduce_update_kernel 512 num_warps temp_rows temp_vals ->
       ev_kernel e = K_reduce /\ ev_kind e = PlainAdd
       /\ ev_unit e < num_warps /\ ev_row e = ldi temp_rows (ev_unit e))
  /\ ((forall i, i < num_warps -> ldi temp_rows i <> (-1)%Z) ->
      forall e,
        e ∈ spmv_coo_reduce_update_kernel 512 num_warps temp_rows temp_vals ->
        ev_row e <> (-1)%Z).
Proof.
  intros end_. split; [|split].
  - generalize end_. clear end_. set (B := 512). clearbody B.
    intros end_ t Ht Hpad. unfold partial_rows, partial_vals. split.
    + rewrite ldi_app_tab by exact Ht.
      rewrite bool_decide_eq_false_2 by lia. reflexivity.
    + rewrite ld_tab by exact Ht.
      rewrite bool_decide_eq_false_2 by lia. reflexivity.
  - intros e He.
    exact (spmv_coo_reduce_update_kernel_events num_warps temp_rows temp_vals e He).
  - intros Hrows e He.
    apply spmv_coo_reduce_update_kernel_events in He as (_ & _ & Hi & ->).
    apply Hrows. exact Hi.
Qed.

Lemma lookup_serial_kernel n off I J (V x : list T) m :
  m < n ->
  spmv_coo_serial_kernel n (drop off I) (drop off J) (drop off V) x !! m
  = Some (mkEvent K_serial m PlainAdd (ldi I (off + m))
            (vmul (ld V (off + m)) (ldz x (ldi J (off + m))))).
Proof.
  intros Hm. unfold spmv_coo_serial_kernel. rewrite lookup_tab by exact Hm.
  rewrite !ldi_drop, ld_drop. reflexivity.
Qed.

Lemma app_assoc3 {A} (a b c d : list A) :
  ((a ++ b) ++ c) ++ d = a ++ b ++ c ++ d.
Proof. rewrite <- !app_assoc. reflexivity. Qed.

Lemma app_assoc2 {A} (a b c : list A) : (a ++ b) ++ c = a ++ b ++ c.
Proof. rewrite <- app_assoc. reflexivity. Qed.

Lemma plan_as_specified_launch_plan BLOCK_SIZE MAX_BLOCKS n_entries :
  (32 <= n_entries < 2 ^ 31)%Z ->
  (32 <= BLOCK_SIZE <= 1024)%Z ->
  (1 <= BLOCK_SIZE / 32 * MAX_BLOCKS < 2 ^ 31)%Z ->
  plan_as_specified WARP_SIZE (BLOCK_SIZE / 32 * MAX_BLOCKS) n_entries
    (launch_plan BLOCK_SIZE MAX_BLOCKS n_entries).
Proof.
  intros HN HB HU.
  destruct (launch_plan_spec BLOCK_SIZE MAX_BLOCKS n_entries HN HB HU)
    as (Hu & Hnw & Hq & Hqw & His & Htl & Htn & Hu1 & Hw1 & Hq1 & Hqu & Hnb & Hnb0).
  unfold plan_as_specified, WARP_SIZE. repeat split; try assumption; try lia.
Qed.

(** C5: for an entry count of at least one warp width the sizing lines of
    both drivers compute the plan of the spec, with [U] the product of the
    warps per block and the block limit, and the entries from [tail] on,
    fewer than a warp width, are those the sequential kernel is launched
    on. *)
Theorem partition_plan (MAX_THREADS : Z) (UseCache : bool)
    (d_coo : coo_matrix T) (d_x : list T) (dev : Device) :
  (WARP_SIZE <= num_entries d_coo < 2 ^ 31)%Z ->
  (512 <= MAX_THREADS < 2 ^ 30)%Z ->
  let n_entries := num_entries d_coo in
  let deferred := launch_plan 256 (u32 MAX_THREADS / u32 (2 * 256)) n_entries in
  let atomic := launch_plan 128 (u32 (4 * MAX_THREADS) / 128) n_entries in
  let tail_handler p :=
    spmv_coo_serial_kernel (Z.to_nat (n_entries - tail p))
      (drop (Z.to_nat (tail p)) (row_indices d_coo))
      (drop (Z.to_nat (tail p)) (column_indices d_coo))
      (drop (Z.to_nat (tail p)) (values d_coo)) d_x in
  plan_as_specified WARP_SIZE (256 / 32 * (MAX_THREADS / 512)) n_entries deferred
  /\ plan_as_specified WARP_SIZE (128 / 32 * (4 * MAX_THREADS / 128)) n_entries
       atomic
  /\ (exists k1 k2,
       dev_log (__spmv_coo_flat MAX_THREADS UseCache d_coo d_x dev)
       = dev_log dev ++ k1 ++ tail_handler deferred ++ k2
       /\ forall e, e ∈ k1 ++ k2 -> ev_kernel e <> K_serial)
  /\ (exists k1,
       dev_log (__spmv_coo_flat_atomic MAX_THREADS UseCache d_coo d_x dev)
       = dev_log dev ++ k1 ++ tail_handler atomic
       /\ forall e, e ∈ k1 -> ev_kernel e <> K_serial)
  /\ (forall p m, m < Z.to_nat (n_entries - tail p) ->
       tail_handler p !! m
       = Some (mkEvent K_serial m PlainAdd
                 (ldi (row_indices d_coo) (Z.to_nat (tail p) + m))
                 (vmul (ld (values d_coo) (Z.to_nat (tail p) + m))
                       (ldz d_x (ldi (column_indices d_coo)
                                   (Z.to_nat (tail p) + m)))))).
Proof.
  intros HN HMT n_entries deferred atomic tail_handler.
  unfold WARP_SIZE in HN.
  change (2 ^ 30)%Z with 1073741824%Z in HMT.
  assert (HMBf : (u32 MAX_THREADS / u32 (2 * 256) = MAX_THREADS / 512)%Z).
  { rewrite !u32_small by (change (2 ^ 32)%Z with 4294967296%Z; lia).
    reflexivity. }
  assert (HMBa : (u32 (4 * MAX_THREADS) / 128 = 4 * MAX_THREADS / 128)%Z).
  { rewrite !u32_small by (change (2 ^ 32)%Z with 4294967296%Z; lia).
    reflexivity. }
  assert (HUf : (1 <= 256 / 32 * (MAX_THREADS / 512) < 2 ^ 31)%Z).
  { change (256 / 32)%Z with 8%Z. change (2 ^ 31)%Z with 2147483648%Z.
    pose proof (Z.div_le_lower_bound MAX_THREADS 512 1 ltac:(lia) ltac:(lia)).
    pose proof (Z.div_le_upper_bound MAX_THREADS 512 2097152 ltac:(lia) ltac:(lia)).
    lia. }
  assert (HUa : (1 <= 128 / 32 * (4 * MAX_THREADS / 128) < 2 ^ 31)%Z).
  { change (128 / 32)%Z with 4%Z. change (2 ^ 31)%Z with 2147483648%Z.
    pose proof (Z.div_le_lower_bound (4 * MAX_THREADS) 128 1 ltac:(lia) ltac:(lia)).
    pose proof (Z.div_le_upper_bound (4 * MAX_THREADS) 128 33554432
                  ltac:(lia) ltac:(lia)).
    lia. }
  split; [|split; [|split; [|split]]].
  - unfold deferred. rewrite HMBf.
    apply plan_as_specified_launch_plan; [exact HN | lia | exact HUf].
  - unfold atomic. rewrite HMBa.
    apply plan_as_specified_launch_plan; [exact HN | lia | exact HUa].
  - unfold __spmv_coo_flat.
    rewrite (bool_decide_eq_false_2 (num_entries d_coo = 0)%Z) by lia.
    rewrite (bool_decide_eq_false_2 (num_entries d_coo < WARP_SIZE)%Z)
      by (unfold WARP_SIZE; lia).
    change host_method with false. cbv iota. fold n_entries deferred.
    unfold launch. cbn [dev_log dev_y].
    eexists _, _. split; [apply app_assoc3|].
    intros e He. apply elem_of_app in He as [He|He].
    + apply spmv_coo_flat_kernel_tags in He as (Hk & _). rewrite Hk. discriminate.
    + apply spmv_coo_reduce_update_kernel_events in He as (Hk & _).
      rewrite Hk. discriminate.
  - unfold __spmv_coo_flat_atomic.
    rewrite (bool_decide_eq_false_2 (num_entries d_coo = 0)%Z) by lia.
    rewrite (bool_decide_eq_false_2 (num_entries d_coo < WARP_SIZE)%Z)
      by (unfold WARP_SIZE; lia).
    fold n_entries atomic. unfold launch. cbn [dev_log dev_y].
    eexists. split; [apply app_assoc2|].
    intros e He. apply spmv_coo_flat_atomic_kernel_tags in He.
    rewrite He. discriminate.
  - intros p m Hm. apply lookup_serial_kernel. exact Hm.
Qed.

(** ** The disabled host-side merge *)

Lemma carry_total_insert_val_ge temp_rows (temp_vals : list T) r lo len w b :
  lo + len <= w ->
  carry_total temp_rows (<[w := b]> temp_vals) r lo len =
  carry_total temp_rows temp_vals r lo len.
Proof.
  intros Hw. unfold carry_total. apply vsum_fmap_ext. intros j Hj.
  apply elem_of_seq in Hj. rewrite ld_insert_ne by lia. reflexivity.
Qed.

(** After the merge loop the first [unique_rows] cells of the host arrays
    hold, row by row, what the [active_warps] carries held. *)
Lemma host_merge_total active_warps h_rows (h_vals : list T) :
  1 <= active_warps ->
  active_warps <= length h_rows -> active_warps <= length h_vals ->
  let m := host_merge active_warps h_rows h_vals in
  m.2 <= active_warps
  /\ length m.1.1 = length h_rows /\ length m.1.2 = length h_vals
  /\ forall r, carry_total m.1.1 m.1.2 r 0 m.2
             = carry_total h_rows h_vals r 0 active_warps.
Proof.
  intros Hnw Hlr Hlv. unfold host_merge.
  set (step := fun (st : list Z * list T * nat) (start : nat) => _).
  assert (Hinv : forall k, S k <= active_warps ->
    let st := foldl step (h_rows, h_vals, 0) (seq 1 k) in
    st.2 < S k
    /\ length st.1.1 = length h_rows /\ length st.1.2 = length h_vals
    /\ (forall j, S k <= j ->
          ldi st.1.1 j = ldi h_rows j /\ ld st.1.2 j = ld h_vals j)
    /\ forall r, carry_total st.1.1 st.1.2 r 0 (S st.2)
               = carry_total h_rows h_vals r 0 (S k)).
  { induction k as [|k IH]; intros Hk.
    - cbn. split; [lia|]. split; [reflexivity|]. split; [reflexivity|].
      split; [intros; split; reflexivity | intros; reflexivity].
    - rewrite seq_S, foldl_app. cbn [foldl].
      specialize (IH ltac:(lia)). cbv zeta in IH.
      destruct (foldl step (h_rows, h_vals, 0) (seq 1 k)) as [[r v] u].
      cbn [fst snd] in IH. destruct IH as (Hu & Hl1 & Hl2 & Hrest & Htot).
      replace (1 + k) with (S k) by lia.
      destruct (Hrest (S k) ltac:(lia)) as [Hrk Hvk].
      destruct (decide (ldi r u = ldi r (S k))) as [Heq|Hne].
      + assert (Hst : step (r, v, u) (S k)
                      = (r, <[u := vadd (ld v u) (ld v (S k))]> v, u)).
        { unfold step. cbn [fst snd].
          rewrite (bool_decide_eq_true_2 _ Heq). reflexivity. }
        rewrite Hst. cbn [fst snd]. rewrite length_insert.
        split; [lia|]. split; [exact Hl1|]. split; [exact Hl2|]. split.
        * intros j Hj. destruct (Hrest j ltac:(lia)) as [? ?].
          rewrite ld_insert_ne by lia. auto.
        * intros ρ. rewrite carry_total_S, carry_total_insert_val_ge by lia.
          rewrite Nat.add_0_l, ld_insert_eq by lia.
          rewrite (carry_total_S h_rows h_vals ρ 0 (S k)), <- Htot.
          rewrite carry_total_S, !Nat.add_0_l.
          rewrite <- Hrk, <- Hvk, <- Heq.
          destruct (bool_decide (ldi r u = ρ)); aac_reflexivity.
      + assert (Hst : step (r, v, u) (S k)
                      = (<[S u := ldi r (S k)]> r, <[S u := ld v (S k)]> v, S u)).
        { unfold step. cbn [fst snd].
          rewrite (bool_decide_eq_false_2 _ Hne). reflexivity. }
        rewrite Hst. cbn [fst snd]. rewrite !length_insert.
        split; [lia|]. split; [exact Hl1|]. split; [exact Hl2|]. split.
        * intros j Hj. destruct (Hrest j ltac:(lia)) as [? ?].
          rewrite ldi_insert_ne, ld_insert_ne by lia. auto.
        * intros ρ. rewrite carry_total_S, carry_total_insert_ge by lia.
          rewrite Nat.add_0_l, ldi_insert_eq, ld_insert_eq by lia.
          rewrite (carry_total_S h_rows h_vals ρ 0 (S k)), <- Htot.
          rewrite !Nat.add_0_l, Hrk, Hvk. reflexivity. }
  specialize (Hinv (active_warps - 1) ltac:(lia)). cbv zeta in Hinv.
  destruct (foldl step (h_rows, h_vals, 0) (seq 1 (active_warps - 1)))
    as [[r v] u].
  cbn [fst snd] in *. destruct Hinv as (Hu & Hl1 & Hl2 & _ & Htot).
  split; [lia|]. split; [exact Hl1|]. split; [exact Hl2|].
  intros ρ. rewrite Htot. f_equal. lia.
Qed.

Lemma spmv_coo_scatter_update_kernel_total B n temp_rows (temp_vals : list T) r :
  ev_total r (spmv_coo_scatter_update_kernel B n temp_rows temp_vals)
  = carry_total temp_rows temp_vals r 0 n.
Proof.
  unfold spmv_coo_scatter_update_kernel, ev_total, carry_total, tab.
  rewrite <- list_fmap_compose. reflexivity.
Qed.

Lemma level2_host_total active_warps temp_rows (temp_vals : list T) r :
  1 <= active_warps ->
  active_warps <= length temp_rows -> active_warps <= length temp_vals ->
  ev_total r (level2_host active_warps temp_rows temp_vals)
  = carry_total temp_rows temp_vals r 0 active_warps.
Proof.
  intros Hnw Hlr Hlv. unfold level2_host.
  destruct (host_merge_total active_warps temp_rows temp_vals Hnw Hlr Hlv)
    as (Hu & Hl1 & Hl2 & Htot).
  destruct (host_merge active_warps temp_rows temp_vals) as [[hr hv] u].
  cbn [fst snd] in *.
  rewrite spmv_coo_scatter_update_kernel_total, <- Htot.
  unfold carry_total, memcpy_to_device. apply vsum_fmap_ext. intros j Hj.
  apply elem_of_seq in Hj. unfold ldi, ld.
  rewrite !lookup_app_l by (rewrite length_take; lia).
  rewrite !lookup_take_lt by lia. reflexivity.
Qed.

Lemma replay_same_total evs1 evs2 (y : list T) :
  (forall r, ev_total r evs1 = ev_total r evs2) ->
  replay evs1 y = replay evs2 y.
Proof.
  intros Heq. exact (launch_same_y evs1 evs2 (mkDevice y []) Heq).
Qed.

(** C9, as the code has it: the level-2 pass of the deferred driver is not
    chosen by the size of the carry buffer.  No run of the driver makes an
    accumulation with the scatter kernel, [host_method] being the constant
    [false]; the scatter kernel is reached only in the disabled branch,
    after the carries have been merged row by row on the host, and that
    branch, run on a sorted carry buffer, leaves the same [y] as the
    reduce-update kernel. *)
Theorem level2_is_reduce_update (MAX_THREADS : Z) (UseCache : bool)
    (d_coo : coo_matrix T) (d_x : list T) (dev : Device)
    (active_warps : nat) (temp_rows : list Z) (temp_vals y : list T) :
  (forall e, e ∈ dev_log (__spmv_coo_flat MAX_THREADS UseCache d_coo d_x dev) ->
     ev_kernel e = K_scatter -> e ∈ dev_log dev)
  /\ host_method = false
  /\ (1 <= active_warps ->
      active_warps <= length temp_rows -> active_warps <= length temp_vals ->
      nondecreasing (take active_warps temp_rows) = true ->
      forallb (fun r => (0 <=? r)%Z) (take active_warps temp_rows) = true ->
      replay (level2_host active_warps temp_rows temp_vals) y
      = replay (spmv_coo_reduce_update_kernel 512 active_warps temp_rows
                  temp_vals) y).
Proof.
  split; [|split; [reflexivity|]].
  - intros e He Hk. apply spmv_coo_flat_log_tags in He as [He|[_ Hkern]];
      [exact He|].
    rewrite Hk in Hkern. destruct Hkern as [?|[?|?]]; discriminate.
  - intros Hnw Hlr Hlv Hs Hpos. apply replay_same_total. intros r.
    rewrite level2_host_total by assumption.
    assert (Htake : forall i, i < active_warps ->
              ldi (take active_warps temp_rows) i = ldi temp_rows i).
    { intros i Hi. unfold ldi. rewrite lookup_take_lt by exact Hi. reflexivity. }
    assert (Hlen : length (take active_warps temp_rows) = active_warps).
    { rewrite length_take. lia. }
    rewrite spmv_coo_reduce_update_kernel_total; [reflexivity| |].
    + intros i j k Hij Hjk Hk Heq. rewrite <- !Htake in * by lia.
      pose proof (nondecreasing_le _ i j Hs Hij ltac:(lia)).
      pose proof (nondecreasing_le _ j k Hs Hjk ltac:(lia)). lia.
    + intros w Hw. rewrite <- Htake by exact Hw.
      rewrite forallb_forall in Hpos.
      destruct (lookup_lt_is_Some_2 (take active_warps temp_rows) w ltac:(lia))
        as [a Ha].
      unfold ldi. rewrite Ha. cbn.
      assert (0 <= a)%Z; [|lia]. apply Z.leb_le, Hpos.
      apply list_elem_of_In. eapply list_elem_of_lookup_2. exact Ha.
Qed.
End GenericFacts.

(** * The claims at integer values *)

(** C1: for a row-sorted matrix of fewer than [2^30] entries, after any of
    the four operations each cell of [y] holds its old content plus the
    serial sum, over the entries of that row, of [val * x[col]], whatever
    [MAX_THREADS] makes of the split into warps; and on the 3 x 3 example
    with [x = [1,1,1]] and a zeroed [y] the result is [[5,4,6]].  Below
    [2^30] entries no index of a kernel leaves the 32-bit [IndexType]. *)
Theorem spmv_row_sum_invariant (MAX_THREADS : Z) (d_coo : coo_matrix Z)
    (d_x : list Z) (dev : Device) (i : nat) :
  sorted_coo d_coo = true ->
  (num_entries d_coo < 2 ^ 30)%Z ->
  (512 <= MAX_THREADS < 2 ^ 30)%Z ->
  i < length (dev_y dev) ->
  (ld (dev_y (spmv_coo_flat MAX_THREADS d_coo d_x dev)) i
     = (ld (dev_y dev) i + row_sum d_coo d_x (Z.of_nat i))%Z
   /\ ld (dev_y (spmv_coo_flat_tex MAX_THREADS d_coo d_x dev)) i
     = (ld (dev_y dev) i + row_sum d_coo d_x (Z.of_nat i))%Z
   /\ ld (dev_y (spmv_coo_flat_atomic MAX_THREADS d_coo d_x dev)) i
     = (ld (dev_y dev) i + row_sum d_coo d_x (Z.of_nat i))%Z
   /\ ld (dev_y (spmv_coo_flat_atomic_tex MAX_THREADS d_coo d_x dev)) i
     = (ld (dev_y dev) i + row_sum d_coo d_x (Z.of_nat i))%Z)
  /\ (forall log,
       let zeroed := mkDevice [0; 0; 0]%Z log in
       let ones := [1; 1; 1]%Z in
       dev_y (spmv_coo_flat MAX_THREADS example_coo ones zeroed) = [5; 4; 6]%Z
       /\ dev_y (spmv_coo_flat_tex MAX_THREADS example_coo ones zeroed) = [5; 4; 6]%Z
       /\ dev_y (spmv_coo_flat_atomic MAX_THREADS example_coo ones zeroed) = [5; 4; 6]%Z
       /\ dev_y (spmv_coo_flat_atomic_tex MAX_THREADS example_coo ones zeroed)
          = [5; 4; 6]%Z).
Proof.
  intros Hwf HN HMT Hi. apply below_2_30 in HN. split.
  - pose proof (spmv_coo_flat_tex_eq MAX_THREADS d_coo d_x dev) as Etex.
    pose proof (spmv_coo_flat_atomic_tex_eq MAX_THREADS d_coo d_x dev) as Eatex.
    destruct (spmv_coo_flat_run MAX_THREADS false d_coo d_x dev Hwf HN HMT)
      as (e1 & R1 & H1).
    destruct (spmv_coo_flat_atomic_run MAX_THREADS false d_coo d_x dev Hwf HN HMT)
      as (e2 & R2 & H2).
    fold (spmv_coo_flat MAX_THREADS d_coo d_x dev) in R1.
    fold (spmv_coo_flat_atomic MAX_THREADS d_coo d_x dev) in R2.
    set (a := spmv_coo_flat MAX_THREADS d_coo d_x dev) in *.
    set (b := spmv_coo_flat_tex MAX_THREADS d_coo d_x dev) in *.
    set (c := spmv_coo_flat_atomic MAX_THREADS d_coo d_x dev) in *.
    set (d := spmv_coo_flat_atomic_tex MAX_THREADS d_coo d_x dev) in *.
    clearbody a b c d. subst b d a c.
    pose proof (ld_launch e1 dev i Hi) as L1.
    pose proof (ld_launch e2 dev i Hi) as L2.
    rewrite H1 in L1. rewrite H2 in L2. auto.
  - intros log. cbv zeta. repeat split; reflexivity.
Qed.

Lemma spmv_row_sum_invariant_witness :
  ld (dev_y (spmv_coo_flat 30720 (sample_coo 70) sample_x sample_dev)) 2
  = (ld (dev_y sample_dev) 2 + row_sum (sample_coo 70) sample_x 2)%Z.
Proof.
  pose proof (spmv_row_sum_invariant 30720 (sample_coo 70) sample_x sample_dev 2
    ltac:(vm_compute; reflexivity) ltac:(vm_compute; reflexivity) ltac:(lia)
    ltac:(vm_compute; lia)) as [[Hflat _] _].
  exact Hflat.
Defined.

Lemma four_variants_agree_witness :
  dev_y (spmv_coo_flat_atomic 30720 (sample_coo 70) sample_x sample_dev)
  = dev_y (spmv_coo_flat 30720 (sample_coo 70) sample_x sample_dev).
Proof.
  pose proof (four_variants_agree 30720 (sample_coo 70) sample_x sample_dev
    ltac:(vm_compute; reflexivity) ltac:(vm_compute; reflexivity) ltac:(lia))
    as (_ & Hatomic & _).
  exact Hatomic.
Defined.

Lemma small_matrix_serial_only_witness :
  __spmv_coo_flat 30720 true example_coo [1; 1; 1]%Z (mkDevice [0; 0; 0]%Z [])
  = launch (spmv_coo_serial_kernel (Z.to_nat (num_entries example_coo))
              (row_indices example_coo) (column_indices example_coo)
              (values example_coo) [1; 1; 1]%Z)
           (mkDevice [0; 0; 0]%Z []).
Proof.
  pose proof (small_matrix_serial_only 30720 true example_coo [1; 1; 1]%Z
    (mkDevice [0; 0; 0]%Z []) ltac:(vm_compute; split; reflexivity))
    as (Hflat & _).
  exact Hflat.
Defined.

Lemma segreduce_warp_scan_witness :
  ld (segreduce_warp (row_indices (sample_coo 32)) (values (sample_coo 32))) 20
  = seg_sum (row_indices (sample_coo 32)) (values (sample_coo 32)) 20.
Proof.
  pose proof (segreduce_warp_scan (row_indices (sample_coo 32))
    (values (sample_coo 32)) ltac:(reflexivity) ltac:(reflexivity)
    ltac:(reflexivity)) as (_ & _ & Hsum).
  exact (Hsum 20 ltac:(lia)).
Defined.

Lemma empty_matrix_noop_witness :
  spmv_coo_flat 30720 (sample_coo 0) sample_x sample_dev = sample_dev.
Proof.
  pose proof (empty_matrix_noop 30720 (sample_coo 0) sample_x sample_dev
    ltac:(reflexivity)) as (Hflat & _).
  exact Hflat.
Defined.

Lemma kernel_used_existsb {T} (k : Kernel) (log : list (Event T)) :
  existsb (fun e => bool_decide (ev_kernel e = k)) log = true -> kernel_used k log.
Proof.
  intros Hex. apply existsb_exists in Hex as (e & He & Hk).
  exists e. split; [apply list_elem_of_In; exact He|].
  apply bool_decide_eq_true in Hk. exact Hk.
Qed.

(** C9, as the spec has it, fails: on 32 entries the carry buffer has one
    cell, far fewer than a warp is wide, and the run uses the reduce-update
    kernel and not the scatter kernel. *)
Lemma scatter_fallback_counterexample :
  (0 < carry_buffer_size 30720 32 <= WARP_SIZE)%Z
  /\ kernel_used K_reduce
       (dev_log (spmv_coo_flat 30720 (sample_coo 32) sample_x sample_dev))
  /\ ~ kernel_used K_scatter
       (dev_log (spmv_coo_flat 30720 (sample_coo 32) sample_x sample_dev)).
Proof.
  split; [vm_compute; split; [reflexivity | discriminate]|]. split.
  - apply kernel_used_existsb. vm_compute. reflexivity.
  - intros (e & He & Hk).
    apply spmv_coo_flat_log_tags in He as [He|[_ Hkern]].
    + cbn in He. apply elem_of_nil in He. exact He.
    + rewrite Hk in Hkern. destruct Hkern as [?|[?|?]]; discriminate.
Qed.

Lemma level2_is_reduce_update_witness :
  replay (level2_host 3 [0; 0; 2]%Z [5; 7; 11]%Z) [0; 0; 0]%Z
  = replay (spmv_coo_reduce_update_kernel 512 3 [0; 0; 2]%Z [5; 7; 11]%Z)
      [0; 0; 0]%Z.
Proof.
  pose proof (level2_is_reduce_update 30720 false example_coo [1; 1; 1]%Z
    sample_dev 3 [0; 0; 2]%Z [5; 7; 11]%Z [0; 0; 0]%Z) as (_ & _ & Hsame).
  exact (Hsame ltac:(lia) ltac:(vm_compute; lia) ltac:(vm_compute; lia)
           ltac:(reflexivity) ltac:(reflexivity)).
Defined.

Lemma atomic_kernel_discipline_witness :
  exists evs' c,
    atomic_warp false [] (32 * 3) (32 * 1) (row_indices (sample_coo 96))
      (column_indices (sample_coo 96)) (values (sample_coo 96)) sample_x 1
    = evs' ++ [mkEvent K_atomic 1 AtomicAdd (carry_idx c) (carry_val c)].
Proof.
  pose proof (atomic_kernel_discipline 128 1 false [] (row_indices (sample_coo 96))
    (column_indices (sample_coo 96)) (values (sample_coo 96)) sample_x 1 3
    ltac:(lia) ltac:(vm_compute; lia) ltac:(vm_compute; reflexivity))
    as (_ & Hfinal & _).
  exact (Hfinal 1 ltac:(vm_compute; lia) ltac:(vm_compute; lia)).
Defined.

Lemma partition_plan_witness :
  plan_as_specified WARP_SIZE (256 / 32 * (30720 / 512))
    (num_entries (sample_coo 70))
    (launch_plan 256 (u32 30720 / u32 (2 * 256)) (num_entries (sample_coo 70))).
Proof.
  pose proof (partition_plan 30720 false (sample_coo 70) sample_x sample_dev
    ltac:(vm_compute; split; [discriminate | reflexivity]) ltac:(lia))
    as (Hplan & _).
  exact Hplan.
Defined.

Lemma reduce_update_padding_witness :
  ev_kernel (mkEvent K_reduce 1 PlainAdd 0 12%Z) = K_reduce
  /\ ev_kind (mkEvent K_reduce 1 PlainAdd 0 12%Z) = PlainAdd
  /\ ev_unit (mkEvent K_reduce 1 PlainAdd 0 12%Z) < 3
  /\ ev_row (mkEvent K_reduce 1 PlainAdd 0 12%Z)
     = ldi [0; 0; 2]%Z (ev_unit (mkEvent K_reduce 1 PlainAdd 0 12%Z)).
Proof.
  pose proof (reduce_update_padding 3 [0; 0; 2]%Z [5; 7; 11]%Z) as (_ & Hev & _).
  apply Hev. vm_compute. left.
Defined.

(** * Which entry goes into which accumulation *)

Lemma sorted_coo_tagged {T} (A : coo_matrix T) :
  sorted_coo A = true -> sorted_coo (tagged A) = true.
Proof.
  unfold sorted_coo, tagged. cbn [row_indices column_indices values num_entries].
  rewrite !andb_true_iff, !bool_decide_eq_true.
  intros [[[[HI HJ] HV] Hpos] Hs]. rewrite length_tab.
  repeat split; try assumption. lia.
Qed.

Lemma multiplicity_vsum n (l : list (gmultiset nat)) :
  multiplicity n (vsum l) = sum_list (multiplicity n <$> l).
Proof.
  induction l as [|X l IH]; [reflexivity|].
  change (vsum (X :: l)) with (X ⊎ vsum l).
  rewrite multiplicity_disj_union, IH. reflexivity.
Qed.

Lemma sum_list_zero (l : list nat) :
  (forall a, a ∈ l -> a = 0) -> sum_list l = 0.
Proof.
  induction l as [|a l IH]; intros Hl; [reflexivity|].
  simpl. rewrite (Hl a) by left. rewrite IH; [reflexivity|].
  intros b Hb. apply Hl. right. exact Hb.
Qed.

(** A list of naturals that sums to one has a one in exactly one place. *)
Lemma sum_list_one (l : list nat) :
  sum_list l = 1 ->
  exists k, l !! k = Some 1 /\ forall k' a, l !! k' = Some a -> k' <> k -> a = 0.
Proof.
  induction l as [|a l IH]; intros Hs; [discriminate|].
  simpl in Hs. destruct a as [|a].
  - destruct (IH Hs) as (k & Hk & Hother). exists (S k). split; [exact Hk|].
    intros k' b Hb Hne. destruct k' as [|k'].
    + cbn in Hb. congruence.
    + apply (Hother k' b Hb). lia.
  - assert (a = 0) by lia. subst a. exists 0. split; [reflexivity|].
    intros k' b Hb Hne. destruct k' as [|k']; [lia|]. cbn in Hb.
    assert (Hz : sum_list l = 0) by lia.
    clear -Hb Hz. revert k' Hb. induction l as [|c l IHl]; intros k' Hb.
    + destruct k'; discriminate Hb.
    + simpl in Hz. destruct k' as [|k'].
      * cbn in Hb. inversion Hb. lia.
      * apply (IHl ltac:(lia) k'). exact Hb.
Qed.

Lemma ld_tag_tab N m :
  m < N -> ld (tab N (fun n : nat => ({[+ n +]} : gmultiset nat))) m = {[+ m +]}.
Proof. intros Hm. unfold ld. rewrite lookup_tab by exact Hm. reflexivity. Qed.

(** The serial sum of a row of the tagged matrix is the set of the entries
    of that row. *)
Lemma multiplicity_row_sum {T} (A : coo_matrix T) r n :
  multiplicity n (row_sum (tagged A) [] r)
  = if bool_decide (n < Z.to_nat (num_entries A) /\ ldi (row_indices A) n = r)
    then 1 else 0.
Proof.
  unfold row_sum, tagged. cbn [row_indices column_indices values num_entries].
  set (N := Z.to_nat (num_entries A)).
  assert (Hgen : forall N', N' <= N ->
    multiplicity n (vsum ((fun m =>
        vmul (ld (tab N (fun n : nat => ({[+ n +]} : gmultiset nat))) m)
             (ldz [] (ldi (column_indices A) m)))
      <$> filter (fun m => ldi (row_indices A) m = r) (seq 0 N')))
    = if bool_decide (n < N' /\ ldi (row_indices A) n = r) then 1 else 0).
  { induction N' as [|N' IH]; intros HN'.
    - rewrite bool_decide_eq_false_2 by lia. reflexivity.
    - rewrite seq_S, list.filter_app, fmap_app, multiplicity_vsum, fmap_app,
        sum_list_with_app, <- multiplicity_vsum, IH by lia.
      rewrite Nat.add_0_l.
      destruct (decide (ldi (row_indices A) N' = r)) as [Hr|Hr].
      + rewrite list.filter_cons_True, list.filter_nil by exact Hr.
        simpl fmap. simpl sum_list_with. rewrite ld_tag_tab by lia.
        assert (Hx : ldz (@nil (gmultiset nat)) (ldi (column_indices A) N') = ∅).
        { unfold ldz.
          destruct (bool_decide (ldi (column_indices A) N' < 0)%Z); reflexivity. }
        rewrite Hx.
        change (vmul {[+ N' +]} ∅) with (({[+ N' +]} : gmultiset nat) ⊎ ∅).
        rewrite multiplicity_disj_union, multiplicity_empty.
        destruct (decide (n = N')) as [->|Hne].
        * rewrite multiplicity_singleton_eq.
          rewrite (bool_decide_eq_false_2 (N' < N' /\ _)) by lia.
          rewrite bool_decide_eq_true_2 by (split; [lia | exact Hr]).
          reflexivity.
        * rewrite multiplicity_singleton_ne by exact Hne.
          rewrite (bool_decide_ext (n < S N' /\ ldi (row_indices A) n = r)
                     (n < N' /\ ldi (row_indices A) n = r)) by (split; intros [? ?]; split; [lia|assumption|lia|assumption]).
          lia.
      + rewrite list.filter_cons_False, list.filter_nil by exact Hr.
        simpl fmap. simpl sum_list_with.
        rewrite (bool_decide_ext (n < S N' /\ ldi (row_indices A) n = r)
                   (n < N' /\ ldi (row_indices A) n = r)).
        * lia.
        * split; intros [Hlt Hrow]; (split; [|exact Hrow]); [|lia].
          destruct (decide (n = N')) as [->|Hne]; [contradiction|lia]. }
  apply Hgen. lia.
Qed.

Lemma multiplicity_ev_total n r (evs : list (Event (gmultiset nat))) :
  multiplicity n (ev_total r evs)
  = sum_list ((fun e => if bool_decide (ev_row e = r)
                        then multiplicity n (ev_val e) else 0) <$> evs).
Proof.
  unfold ev_total. rewrite multiplicity_vsum, <- list_fmap_compose.
  f_equal. apply list_fmap_ext. intros i e _. simpl.
  case_bool_decide; [reflexivity | apply multiplicity_empty].
Qed.

Lemma sum_list_zero_inv (l : list nat) a : sum_list l = 0 -> a ∈ l -> a = 0.
Proof.
  induction l as [|b l IH]; intros Hs Ha.
  - apply elem_of_nil in Ha. destruct Ha.
  - simpl in Hs. apply elem_of_cons in Ha as [->|Ha]; [lia|].
    apply IH; [lia | exact Ha].
Qed.


(** * Two runs over different value types *)

(** The kernels never branch on a value: run on the same row indices over
    two value types, with the products of the entries related by [R], they
    make the same accumulations in the same order, with related values. *)

Section Relational.
Context {T1 T2 : Type} {O1 : ValueOps T1} {O2 : ValueOps T2}.
Variable R : T1 -> T2 -> Prop.
Hypothesis Rz : R vzero vzero.
Hypothesis Radd : forall a b c d, R a b -> R c d -> R (vadd a c) (vadd b d).

Lemma Forall2_ld (v1 : list T1) (v2 : list T2) i :
  Forall2 R v1 v2 -> R (ld v1 i) (ld v2 i).
Proof.
  intros Hv.
  assert (Hlen : length v1 = length v2) by (eapply Forall2_length; exact Hv).
  unfold ld. destruct (v1 !! i) as [a|] eqn:Ha.
  - destruct (v2 !! i) as [b|] eqn:Hb.
    + cbn. eapply Forall2_lookup_lr; eassumption.
    + apply lookup_ge_None in Hb. apply lookup_lt_Some in Ha. lia.
  - apply lookup_ge_None in Ha. rewrite Hlen in Ha.
    apply lookup_ge_None in Ha. rewrite Ha. exact Rz.
Qed.

Lemma Forall2_tab {A B} (P : A -> B -> Prop) n (f : nat -> A) (g : nat -> B) :
  (forall t, t < n -> P (f t) (g t)) -> Forall2 P (tab n f) (tab n g).
Proof.
  induction n as [|n IH]; intros Hfg; [constructor|].
  rewrite !tab_S. apply Forall2_app.
  - apply IH. intros t Ht. apply Hfg. lia.
  - constructor; [apply Hfg; lia | constructor].
Qed.

Lemma Forall2_mjoin_tab {A B} (P : A -> B -> Prop) n (f : nat -> list A)
    (g : nat -> list B) :
  (forall t, t < n -> Forall2 P (f t) (g t)) ->
  Forall2 P (mjoin (tab n f)) (mjoin (tab n g)).
Proof.
  induction n as [|n IH]; intros Hfg; [constructor|].
  rewrite !mjoin_tab_S. apply Forall2_app.
  - apply IH. intros t Ht. apply Hfg. lia.
  - apply Hfg. lia.
Qed.

Lemma Forall2_seg_step d idx (v1 : list T1) (v2 : list T2) :
  Forall2 R v1 v2 -> Forall2 R (seg_step d idx v1) (seg_step d idx v2).
Proof.
  intros Hv. apply Forall2_same_length_lookup_2.
  - rewrite !length_seg_step. eapply Forall2_length. exact Hv.
  - intros i a b. unfold seg_step. rewrite !list_lookup_imap.
    destruct (v1 !! i) as [a0|] eqn:Ha; [|discriminate].
    destruct (v2 !! i) as [b0|] eqn:Hb; [|discriminate].
    cbn. intros Ea Eb. apply (inj Some) in Ea. apply (inj Some) in Eb.
    subst a b.
    assert (H0 : R a0 b0) by (eapply Forall2_lookup_lr; eassumption).
    destruct (bool_decide (d <= i) && bool_decide (ldi idx i = ldi idx (i - d)));
      [|exact H0].
    apply Radd; [exact H0 | apply Forall2_ld; exact Hv].
Qed.

Lemma Forall2_segreduce_warp idx (v1 : list T1) (v2 : list T2) :
  Forall2 R v1 v2 -> Forall2 R (segreduce_warp idx v1) (segreduce_warp idx v2).
Proof. intros Hv. unfold segreduce_warp. repeat apply Forall2_seg_step. exact Hv. Qed.

Lemma Forall2_segreduce_block idx (v1 : list T1) (v2 : list T2) :
  Forall2 R v1 v2 -> Forall2 R (segreduce_block idx v1) (segreduce_block idx v2).
Proof. intros Hv. unfold segreduce_block. repeat apply Forall2_seg_step. exact Hv. Qed.

Lemma warp_stride_rel k kind uc1 xt1 uc2 xt2 I J1 J2 (V1 x1 : list T1)
    (V2 x2 : list T2) warp_id n (c1 : @Carry T1) (c2 : @Carry T2) :
  (forall l, l < 32 ->
     R (entry_term uc1 xt1 J1 V1 x1 (n + l)) (entry_term uc2 xt2 J2 V2 x2 (n + l))) ->
  carry_idx c1 = carry_idx c2 ->
  R (carry_val c1) (carry_val c2) ->
  Forall2 (ev_rel R)
    (warp_stride k kind uc1 xt1 I J1 V1 x1 warp_id n c1).1
    (warp_stride k kind uc2 xt2 I J2 V2 x2 warp_id n c2).1
  /\ carry_idx (warp_stride k kind uc1 xt1 I J1 V1 x1 warp_id n c1).2
     = carry_idx (warp_stride k kind uc2 xt2 I J2 V2 x2 warp_id n c2).2
  /\ R (carry_val (warp_stride k kind uc1 xt1 I J1 V1 x1 warp_id n c1).2)
       (carry_val (warp_stride k kind uc2 xt2 I J2 V2 x2 warp_id n c2).2).
Proof.
  intros Hterm Hci Hcv.
  set (idx := tab 32 (fun l => ldi I (n + l))).
  set (a0 := tab 32 (fun l => entry_term uc1 xt1 J1 V1 x1 (n + l))).
  set (b0 := tab 32 (fun l => entry_term uc2 xt2 J2 V2 x2 (n + l))).
  set (a1 := if bool_decide (ldi idx 0 = carry_idx c1)
             then <[0 := vadd (ld a0 0) (carry_val c1)]> a0 else a0).
  set (b1 := if bool_decide (ldi idx 0 = carry_idx c2)
             then <[0 := vadd (ld b0 0) (carry_val c2)]> b0 else b0).
  set (a := segreduce_warp idx a1).
  set (b := segreduce_warp idx b1).
  change (warp_stride k kind uc1 xt1 I J1 V1 x1 warp_id n c1) with
    ((if bool_decide (ldi idx 0 = carry_idx c1) then []
      else [mkEvent k warp_id (kind (carry_idx c1)) (carry_idx c1) (carry_val c1)])
     ++ flushes idx (fun l =>
          mkEvent k warp_id (kind (ldi idx l)) (ldi idx l) (ld a l)) 31,
     mkCarry (ldi idx 31) (ld a 31)).
  change (warp_stride k kind uc2 xt2 I J2 V2 x2 warp_id n c2) with
    ((if bool_decide (ldi idx 0 = carry_idx c2) then []
      else [mkEvent k warp_id (kind (carry_idx c2)) (carry_idx c2) (carry_val c2)])
     ++ flushes idx (fun l =>
          mkEvent k warp_id (kind (ldi idx l)) (ldi idx l) (ld b l)) 31,
     mkCarry (ldi idx 31) (ld b 31)).
  cbn [fst snd carry_idx carry_val].
  assert (H0 : Forall2 R a0 b0) by (apply Forall2_tab; exact Hterm).
  assert (H1 : Forall2 R a1 b1).
  { unfold a1, b1. rewrite <- Hci.
    destruct (bool_decide (ldi idx 0 = carry_idx c1)); [|exact H0].
    apply Forall2_insert; [exact H0|].
    apply Radd; [apply Forall2_ld; exact H0 | exact Hcv]. }
  assert (Hab : Forall2 R a b) by (apply Forall2_segreduce_warp; exact H1).
  split; [|split; [reflexivity | apply Forall2_ld; exact Hab]].
  apply Forall2_app.
  - rewrite <- Hci. destruct (bool_decide (ldi idx 0 = carry_idx c1)); [constructor|].
    constructor; [|constructor].
    unfold ev_rel. cbn [ev_kernel ev_unit ev_kind ev_row ev_val].
    repeat split. exact Hcv.
  - unfold flushes. apply Forall2_mjoin_tab. intros l Hl.
    destruct (bool_decide (ldi idx l <> ldi idx (l + 1))); [|constructor].
    constructor; [|constructor].
    unfold ev_rel. cbn [ev_kernel ev_unit ev_kind ev_row ev_val].
    repeat split. apply Forall2_ld. exact Hab.
Qed.

Lemma warp_loop_rel k kind uc1 xt1 uc2 xt2 I J1 J2 (V1 x1 : list T1)
    (V2 x2 : list T2) warp_id end_ fuel :
  forall iters n (c1 : @Carry T1) (c2 : @Carry T2),
  end_ = n + 32 * iters ->
  (forall m, n <= m -> m < end_ ->
     R (entry_term uc1 xt1 J1 V1 x1 m) (entry_term uc2 xt2 J2 V2 x2 m)) ->
  carry_idx c1 = carry_idx c2 ->
  R (carry_val c1) (carry_val c2) ->
  Forall2 (ev_rel R)
    (warp_loop fuel k kind uc1 xt1 I J1 V1 x1 warp_id n end_ c1).1
    (warp_loop fuel k kind uc2 xt2 I J2 V2 x2 warp_id n end_ c2).1
  /\ carry_idx (warp_loop fuel k kind uc1 xt1 I J1 V1 x1 warp_id n end_ c1).2
     = carry_idx (warp_loop fuel k kind uc2 xt2 I J2 V2 x2 warp_id n end_ c2).2
  /\ R (carry_val (warp_loop fuel k kind uc1 xt1 I J1 V1 x1 warp_id n end_ c1).2)
       (carry_val (warp_loop fuel k kind uc2 xt2 I J2 V2 x2 warp_id n end_ c2).2).
Proof.
  induction fuel as [|fuel IH]; intros iters n c1 c2 Hend Hterm Hci Hcv.
  - cbn. split; [constructor | split; assumption].
  - cbn [warp_loop]. destruct (decide (n < end_)) as [Hlt|Hge].
    + rewrite !bool_decide_eq_true_2 by exact Hlt.
      destruct (warp_stride_rel k kind uc1 xt1 uc2 xt2 I J1 J2 V1 x1 V2 x2
                  warp_id n c1 c2 ltac:(intros l Hl; apply Hterm; lia) Hci Hcv)
        as (He & Hi & Hv).
      destruct (warp_stride k kind uc1 xt1 I J1 V1 x1 warp_id n c1) as [e1 c1'].
      destruct (warp_stride k kind uc2 xt2 I J2 V2 x2 warp_id n c2) as [e2 c2'].
      cbn [fst snd] in He, Hi, Hv.
      destruct (IH (iters - 1) (n + 32) c1' c2' ltac:(lia)
                  ltac:(intros m Hm1 Hm2; apply Hterm; lia) Hi Hv)
        as (He' & Hi' & Hv').
      destruct (warp_loop fuel k kind uc1 xt1 I J1 V1 x1 warp_id (n + 32) end_ c1')
        as [es1 c1''].
      destruct (warp_loop fuel k kind uc2 xt2 I J2 V2 x2 warp_id (n + 32) end_ c2')
        as [es2 c2''].
      cbn [fst snd] in *. split; [apply Forall2_app; assumption | split; assumption].
    + rewrite !bool_decide_eq_false_2 by exact Hge.
      cbn. split; [constructor | split; assumption].
Qed.

Lemma flat_warp_rel uc1 xt1 uc2 xt2 I J1 J2 (V1 x1 : list T1) (V2 x2 : list T2)
    warp_id q u :
  0 < q ->
  (forall m, m < 32 * u ->
     R (entry_term uc1 xt1 J1 V1 x1 m) (entry_term uc2 xt2 J2 V2 x2 m)) ->
  match flat_warp uc1 xt1 (32 * u) (32 * q) I J1 V1 x1 warp_id,
        flat_warp uc2 xt2 (32 * u) (32 * q) I J2 V2 x2 warp_id with
  | Some (e1, c1), Some (e2, c2) =>
      Forall2 (ev_rel R) e1 e2 /\ carry_idx c1 = carry_idx c2
      /\ R (carry_val c1) (carry_val c2)
  | None, None => True
  | _, _ => False
  end.
Proof.
  intros Hq Hterm. unfold flat_warp, thread_begin, thread_end.
  destruct (decide (warp_id * (32 * q) < 32 * u)) as [Hw|Hw].
  - destruct (interval_iters warp_id q u Hq Hw) as (it & Hit & Hend).
    rewrite Hend. rewrite !bool_decide_eq_false_2 by lia.
    destruct (warp_loop_rel K_flat (fun _ => PlainAdd) uc1 xt1 uc2 xt2 I J1 J2
                V1 x1 V2 x2 warp_id (warp_id * (32 * q) + 0 + 32 * it)
                (warp_id * (32 * q) + 0 + 32 * it - (warp_id * (32 * q) + 0))
                it (warp_id * (32 * q) + 0)
                (mkCarry (ldi I (warp_id * (32 * q) + 0)) vzero)
                (mkCarry (ldi I (warp_id * (32 * q) + 0)) vzero)
                eq_refl ltac:(intros m Hm1 Hm2; apply Hterm; lia) eq_refl Rz)
      as (He & Hi & Hv).
    destruct (warp_loop _ _ _ uc1 _ _ _ _ _ _ _ _ _) as [e1 c1].
    destruct (warp_loop _ _ _ uc2 _ _ _ _ _ _ _ _ _) as [e2 c2].
    cbn [fst snd] in *. split; [assumption | split; assumption].
  - rewrite !bool_decide_eq_true_2 by lia. exact Logic.I.
Qed.

Lemma spmv_coo_flat_kernel_rel BLOCK_SIZE num_blocks uc1 xt1 uc2 xt2 I J1 J2
    (V1 x1 : list T1) (V2 x2 : list T2) q u temp_rows
    (tv1 : list T1) (tv2 : list T2) :
  0 < q ->
  (forall m, m < 32 * u ->
     R (entry_term uc1 xt1 J1 V1 x1 m) (entry_term uc2 xt2 J2 V2 x2 m)) ->
  Forall2 R tv1 tv2 ->
  Forall2 (ev_rel R)
    (spmv_coo_flat_kernel BLOCK_SIZE num_blocks uc1 xt1 (32 * u) (32 * q)
       I J1 V1 x1 temp_rows tv1).1
    (spmv_coo_flat_kernel BLOCK_SIZE num_blocks uc2 xt2 (32 * u) (32 * q)
       I J2 V2 x2 temp_rows tv2).1
  /\ (spmv_coo_flat_kernel BLOCK_SIZE num_blocks uc1 xt1 (32 * u) (32 * q)
        I J1 V1 x1 temp_rows tv1).2.1
     = (spmv_coo_flat_kernel BLOCK_SIZE num_blocks uc2 xt2 (32 * u) (32 * q)
          I J2 V2 x2 temp_rows tv2).2.1
  /\ Forall2 R
       (spmv_coo_flat_kernel BLOCK_SIZE num_blocks uc1 xt1 (32 * u) (32 * q)
          I J1 V1 x1 temp_rows tv1).2.2
       (spmv_coo_flat_kernel BLOCK_SIZE num_blocks uc2 xt2 (32 * u) (32 * q)
          I J2 V2 x2 temp_rows tv2).2.2.
Proof.
  intros Hq Hterm Htv. unfold spmv_coo_flat_kernel.
  generalize (num_blocks * (BLOCK_SIZE / 32)) as L.
  induction L as [|L IH].
  - cbn. split; [constructor | split; [reflexivity | exact Htv]].
  - rewrite seq_S, !foldl_app. cbn [foldl]. rewrite Nat.add_0_l.
    destruct IH as (He & Hr & Hv).
    pose proof (flat_warp_rel uc1 xt1 uc2 xt2 I J1 J2 V1 x1 V2 x2 L q u Hq Hterm)
      as Hw.
    destruct (flat_warp uc1 xt1 (32 * u) (32 * q) I J1 V1 x1 L) as [[e1 c1]|];
      destruct (flat_warp uc2 xt2 (32 * u) (32 * q) I J2 V2 x2 L) as [[e2 c2]|];
      try contradiction.
    + destruct Hw as (Hew & Hiw & Hvw). cbn [fst snd].
      split; [apply Forall2_app; assumption|].
      split; [rewrite Hr, Hiw; reflexivity|].
      apply Forall2_insert; assumption.
    + split; [exact He | split; [exact Hr | exact Hv]].
Qed.

Lemma reduce_full_block_rel B base temp_rows (tv1 : list T1) (tv2 : list T2) :
  Forall2 R tv1 tv2 ->
  Forall2 (ev_rel R) (reduce_full_block B base temp_rows tv1)
    (reduce_full_block B base temp_rows tv2).
Proof.
  intros Htv. unfold reduce_full_block. apply Forall2_mjoin_tab. intros t Ht.
  destruct (bool_decide _); [|constructor]. constructor; [|constructor].
  unfold ev_rel. cbn [ev_kernel ev_unit ev_kind ev_row ev_val]. repeat split.
  apply Forall2_ld, Forall2_segreduce_block, Forall2_tab.
  intros t' _. apply Forall2_ld. exact Htv.
Qed.

Lemma reduce_partial_block_rel B base num_warps temp_rows (tv1 : list T1)
    (tv2 : list T2) :
  Forall2 R tv1 tv2 ->
  Forall2 (ev_rel R) (reduce_partial_block B base num_warps temp_rows tv1)
    (reduce_partial_block B base num_warps temp_rows tv2).
Proof.
  intros Htv. unfold reduce_partial_block. apply Forall2_mjoin_tab. intros t Ht.
  destruct (bool_decide (base + t < num_warps)); [|constructor].
  destruct (bool_decide _); [|constructor]. constructor; [|constructor].
  unfold ev_rel. cbn [ev_kernel ev_unit ev_kind ev_row ev_val]. repeat split.
  apply Forall2_ld, Forall2_segreduce_block. unfold partial_vals.
  apply Forall2_tab. intros t' _.
  destruct (bool_decide (base + t' < num_warps)); [|exact Rz].
  apply Forall2_ld. exact Htv.
Qed.

Lemma reduce_loop_rel B end_ temp_rows (tv1 : list T1) (tv2 : list T2) fuel :
  Forall2 R tv1 tv2 ->
  forall i,
  Forall2 (ev_rel R) (reduce_loop fuel B i end_ temp_rows tv1).1
    (reduce_loop fuel B i end_ temp_rows tv2).1
  /\ (reduce_loop fuel B i end_ temp_rows tv1).2
     = (reduce_loop fuel B i end_ temp_rows tv2).2.
Proof.
  intros Htv. induction fuel as [|fuel IH]; intros i.
  - cbn. split; [constructor | reflexivity].
  - cbn [reduce_loop]. destruct (bool_decide (i < end_)).
    + destruct (IH (i + B)) as [He Hi].
      destruct (reduce_loop fuel B (i + B) end_ temp_rows tv1) as [e1 i1].
      destruct (reduce_loop fuel B (i + B) end_ temp_rows tv2) as [e2 i2].
      cbn [fst snd] in *. split; [|exact Hi].
      apply Forall2_app; [apply reduce_full_block_rel; exact Htv | exact He].
    + cbn. split; [constructor | reflexivity].
Qed.

Lemma spmv_coo_reduce_update_kernel_rel B num_warps temp_rows (tv1 : list T1)
    (tv2 : list T2) :
  Forall2 R tv1 tv2 ->
  Forall2 (ev_rel R) (spmv_coo_reduce_update_kernel B num_warps temp_rows tv1)
    (spmv_coo_reduce_update_kernel B num_warps temp_rows tv2).
Proof.
  intros Htv. unfold spmv_coo_reduce_update_kernel.
  set (end_ := num_warps - Nat.land num_warps (B - 1)).
  destruct (reduce_loop_rel B end_ temp_rows tv1 tv2 end_ Htv 0) as [He Hi].
  destruct (reduce_loop end_ B 0 end_ temp_rows tv1) as [e1 i1].
  destruct (reduce_loop end_ B 0 end_ temp_rows tv2) as [e2 i2].
  cbn [fst snd] in *. subst i2.
  destruct (bool_decide (end_ < num_warps)); [|exact He].
  apply Forall2_app; [exact He | apply reduce_partial_block_rel; exact Htv].
Qed.

Lemma spmv_coo_serial_kernel_rel n I J1 J2 (V1 x1 : list T1) (V2 x2 : list T2) :
  (forall m, m < n ->
     R (vmul (ld V1 m) (ldz x1 (ldi J1 m))) (vmul (ld V2 m) (ldz x2 (ldi J2 m)))) ->
  Forall2 (ev_rel R) (spmv_coo_serial_kernel n I J1 V1 x1)
    (spmv_coo_serial_kernel n I J2 V2 x2).
Proof.
  intros Hterm. unfold spmv_coo_serial_kernel. apply Forall2_tab. intros m Hm.
  unfold ev_rel. cbn [ev_kernel ev_unit ev_kind ev_row ev_val]. repeat split.
  apply Hterm. exact Hm.
Qed.

Lemma spmv_coo_flat_rel MAX_THREADS uc1 uc2 (A1 : coo_matrix T1)
    (A2 : coo_matrix T2) x1 x2 (dev1 : @Device T1) (dev2 : @Device T2) :
  num_entries A2 = num_entries A1 ->
  row_indices A2 = row_indices A1 ->
  (0 <= num_entries A1 < 2 ^ 31)%Z ->
  (512 <= MAX_THREADS < 2 ^ 30)%Z ->
  (forall m, m < Z.to_nat (num_entries A1) ->
     R (vmul (ld (values A1) m) (ldz x1 (ldi (column_indices A1) m)))
       (vmul (ld (values A2) m) (ldz x2 (ldi (column_indices A2) m)))) ->
  Forall2 (ev_rel R) (dev_log dev1) (dev_log dev2) ->
  Forall2 (ev_rel R)
    (dev_log (__spmv_coo_flat MAX_THREADS uc1 A1 x1 dev1))
    (dev_log (__spmv_coo_flat MAX_THREADS uc2 A2 x2 dev2)).
Proof.
  intros HN HI HNr HMT Hterm Hlog.
  unfold __spmv_coo_flat. rewrite HN, HI.
  destruct (bool_decide (num_entries A1 = 0)%Z); [exact Hlog|].
  destruct (bool_decide (num_entries A1 < WARP_SIZE)%Z) eqn:H32.
  { cbn [launch dev_log]. apply Forall2_app; [exact Hlog|].
    apply spmv_coo_serial_kernel_rel. exact Hterm. }
  apply bool_decide_eq_false in H32. unfold WARP_SIZE in H32.
  assert (Hrange : (32 <= num_entries A1 < 2 ^ 31)%Z) by lia.
  change (2 ^ 30)%Z with 1073741824%Z in HMT.
  assert (HMB : (u32 MAX_THREADS / u32 (2 * 256) = MAX_THREADS / 512)%Z).
  { rewrite !u32_small by (change (2 ^ 32)%Z with 4294967296%Z; lia).
    reflexivity. }
  rewrite HMB.
  assert (HU : (1 <= 256 / 32 * (MAX_THREADS / 512) < 2 ^ 31)%Z).
  { change (256 / 32)%Z with 8%Z. change (2 ^ 31)%Z with 2147483648%Z.
    pose proof (Z.div_le_lower_bound MAX_THREADS 512 1 ltac:(lia) ltac:(lia)).
    pose proof (Z.div_le_upper_bound MAX_THREADS 512 2097152 ltac:(lia) ltac:(lia)).
    lia. }
  destruct (plan_geometry 256 (MAX_THREADS / 512) (num_entries A1)
              Hrange ltac:(lia) HU)
    as (u & q & Hq & Hqu & Htl & His & HtlZ & HisZ & HuN & Hrest & HL & Hu26).
  set (p := launch_plan 256 (MAX_THREADS / 512) (num_entries A1)) in *.
  rewrite !(bool_decide_eq_false_2 (interval_size p = 0)%Z) by lia.
  change host_method with false. cbv iota.
  set (A := Z.to_nat (DIVIDE_INTO (u32 (tail p)) (interval_size p))).
  rewrite Htl, His, Hrest.
  assert (Hterm' : forall m, m < 32 * u ->
    R (entry_term uc1 (if uc1 then bind_x x1 else []) (column_indices A1)
         (values A1) x1 m)
      (entry_term uc2 (if uc2 then bind_x x2 else []) (column_indices A2)
         (values A2) x2 m)).
  { intros m Hm. unfold entry_term, fetch_x, bind_x.
    destruct uc1, uc2; apply Hterm; lia. }
  assert (Hrep : Forall2 R (new_device_array vzero A) (new_device_array vzero A)).
  { unfold new_device_array. induction A as [|A' IHA]; constructor; assumption. }
  destruct (spmv_coo_flat_kernel_rel 256 (Z.to_nat (num_blocks p))
              uc1 (if uc1 then bind_x x1 else [])
              uc2 (if uc2 then bind_x x2 else [])
              (row_indices A1) (column_indices A1) (column_indices A2)
              (values A1) x1 (values A2) x2 q u
              (new_device_array 0%Z A) (new_device_array vzero A)
              (new_device_array vzero A) Hq Hterm' Hrep)
    as (He & Hr & Hv).
  set (k1 := spmv_coo_flat_kernel _ _ uc1 _ _ _ _ _ _ _ _ _) in *.
  set (k2 := spmv_coo_flat_kernel _ _ uc2 _ _ _ _ _ _ _ _ _) in *.
  cbn [launch dev_log]. rewrite <- Hr.
  repeat apply Forall2_app.
  - exact Hlog.
  - exact He.
  - apply spmv_coo_serial_kernel_rel. intros m Hm.
    rewrite !ld_drop, !ldi_drop. apply Hterm. lia.
  - apply spmv_coo_reduce_update_kernel_rel. exact Hv.
Qed.

End Relational.

(** ** The tagged run and the run on the values *)

Lemma vsum_perm {T} `{ValueLaws T} (l k : list T) : l ≡ₚ k -> vsum l = vsum k.
Proof.
  induction 1 as [|a l k _ IH|a b l|l k m _ IH1 _ IH2].
  - reflexivity.
  - change (vadd a (vsum l) = vadd a (vsum k)). rewrite IH. reflexivity.
  - change (vadd b (vadd a (vsum l)) = vadd a (vadd b (vsum l))).
    rewrite !vadd_assoc, (vadd_comm b a). reflexivity.
  - rewrite IH1. exact IH2.
Qed.

Lemma entry_sum_empty {T} `{ValueLaws T} (A : coo_matrix T) d_x :
  entry_sum A d_x ∅ = vzero.
Proof. unfold entry_sum. rewrite gmultiset_elements_empty. reflexivity. Qed.

Lemma entry_sum_singleton {T} `{ValueLaws T} (A : coo_matrix T) d_x n :
  entry_sum A d_x {[+ n +]}
  = vmul (ld (values A) n) (ldz d_x (ldi (column_indices A) n)).
Proof.
  unfold entry_sum. rewrite gmultiset_elements_singleton.
  cbn. apply vadd_zero_r.
Qed.

Lemma entry_sum_disj_union {T} `{ValueLaws T} (A : coo_matrix T) d_x m1 m2 :
  entry_sum A d_x (m1 ⊎ m2) = vadd (entry_sum A d_x m1) (entry_sum A d_x m2).
Proof.
  unfold entry_sum. rewrite <- vsum_app, <- fmap_app.
  apply vsum_perm, fmap_Permutation, gmultiset_elements_disj_union.
Qed.

(** The log of a run on the values is, accumulation by accumulation, the log
    of the tagged run with every tag replaced by the sum of the products of
    its entries. *)
Lemma spmv_coo_flat_tagged {T} `{ValueLaws T} MAX_THREADS UseCache
    (A : coo_matrix T) (d_x y : list T) :
  (0 <= num_entries A < 2 ^ 31)%Z ->
  (512 <= MAX_THREADS < 2 ^ 30)%Z ->
  Forall2 (ev_rel (fun v m => v = entry_sum A d_x m))
    (dev_log (__spmv_coo_flat MAX_THREADS UseCache A d_x (mkDevice y [])))
    (dev_log (__spmv_coo_flat MAX_THREADS UseCache (tagged A) []
                (mkDevice [] []))).
Proof.
  intros HN HMT.
  apply (spmv_coo_flat_rel (fun v m => v = entry_sum A d_x m)).
  - symmetry. apply entry_sum_empty.
  - intros a b c d -> ->. symmetry. apply entry_sum_disj_union.
  - reflexivity.
  - reflexivity.
  - exact HN.
  - exact HMT.
  - intros m Hm. unfold tagged. cbn [values column_indices].
    rewrite ld_tag_tab by exact Hm.
    assert (Hx : ldz (@nil (gmultiset nat)) (ldi (column_indices A) m) = ∅).
    { unfold ldz.
      destruct (bool_decide (ldi (column_indices A) m < 0)%Z); reflexivity. }
    rewrite Hx.
    change (vmul {[+ m +]} ∅) with (({[+ m +]} : gmultiset nat) ⊎ ∅).
    rewrite (right_id ∅ (⊎)). symmetry. apply entry_sum_singleton.
  - constructor.
Qed.

(** C3: every entry goes into exactly one accumulation into [y], for a
    row-sorted matrix of fewer than [2^30] entries, where no index of a
    kernel leaves the 32-bit [IndexType].  The accumulations of the log are
    what the run does to [y]: every cell of [y] ends as its old content plus
    the values of the accumulations into its row.  Run the deferred driver
    on the matrix, and run it on the matrix with entry [n] tagged [n] and an
    empty vector.  The two logs agree accumulation by accumulation in
    kernel, unit, kind and row, and the value of an accumulation is the sum
    of the products [val * x[col]] of the entries tagged in it.  For every
    entry there is exactly one accumulation whose tag has the entry, it has
    it once, it goes to the row of the entry, and it is a plain add of the
    level-1 kernel, of the level-2 kernel or of the sequential kernel; in
    every other accumulation the entry does not occur.  And an accumulation
    has only entries of the matrix, of its own row. *)
Theorem every_entry_once {T} `{ValueLaws T} (MAX_THREADS : Z) (UseCache : bool)
    (A : coo_matrix T) (d_x y : list T) :
  sorted_coo A = true ->
  (num_entries A < 2 ^ 30)%Z ->
  (512 <= MAX_THREADS < 2 ^ 30)%Z ->
  let run := dev_log (__spmv_coo_flat MAX_THREADS UseCache A d_x
                        (mkDevice y [])) in
  let log := dev_log (__spmv_coo_flat MAX_THREADS UseCache (tagged A) []
                        (mkDevice [] [])) in
  (forall i, i < length y ->
     ld (dev_y (__spmv_coo_flat MAX_THREADS UseCache A d_x (mkDevice y []))) i
     = vadd (ld y i) (ev_total (Z.of_nat i) run))
  /\ Forall2 (ev_rel (fun v m => v = entry_sum A d_x m)) run log
  /\ (forall n, n < Z.to_nat (num_entries A) ->
     exists k e,
       log !! k = Some e
       /\ multiplicity n (ev_val e) = 1
       /\ ev_row e = ldi (row_indices A) n
       /\ ev_kind e = PlainAdd
       /\ (ev_kernel e = K_flat \/ ev_kernel e = K_reduce \/ ev_kernel e = K_serial)
       /\ forall k' e', log !! k' = Some e' -> k' <> k ->
            multiplicity n (ev_val e') = 0)
  /\ (forall e m, e ∈ log -> m ∈ ev_val e ->
        m < Z.to_nat (num_entries A) /\ ldi (row_indices A) m = ev_row e).
Proof.
  intros Hwf HN HMT. apply below_2_30 in HN.
  assert (HN0 : (0 <= num_entries A < 2 ^ 31)%Z).
  { destruct (sorted_coo_spec A Hwf) as (HlI & _). lia. }
  pose proof (spmv_coo_flat_tagged MAX_THREADS UseCache A d_x y HN0 HMT) as Hrel.
  assert (Hy : forall i, i < length y ->
    ld (dev_y (__spmv_coo_flat MAX_THREADS UseCache A d_x (mkDevice y []))) i
    = vadd (ld y i)
        (ev_total (Z.of_nat i)
           (dev_log (__spmv_coo_flat MAX_THREADS UseCache A d_x (mkDevice y []))))).
  { destruct (spmv_coo_flat_run MAX_THREADS UseCache A d_x (mkDevice y [])
                Hwf HN HMT) as (evs & Hrun & _).
    intros i Hi. rewrite Hrun. exact (ld_launch evs (mkDevice y []) i Hi). }
  intros run log.
  split; [exact Hy|]. split; [exact Hrel|].
  clear Hrel Hy HN0 run.
  destruct (spmv_coo_flat_run MAX_THREADS UseCache (tagged A) []
              (mkDevice [] []) (sorted_coo_tagged A Hwf) HN HMT)
    as (evs & Hrun & Htot).
  assert (Hlog : log = evs). { unfold log. rewrite Hrun. reflexivity. }
  assert (Hm : forall n r,
    sum_list ((fun e => if bool_decide (ev_row e = r)
                        then multiplicity n (ev_val e) else 0) <$> evs)
    = if bool_decide (n < Z.to_nat (num_entries A) /\ ldi (row_indices A) n = r)
      then 1 else 0).
  { intros n r. rewrite <- multiplicity_ev_total, Htot.
    apply multiplicity_row_sum. }
  assert (Htags : forall e, e ∈ evs ->
    ev_kind e = PlainAdd
    /\ (ev_kernel e = K_flat \/ ev_kernel e = K_reduce \/ ev_kernel e = K_serial)).
  { intros e He. rewrite <- Hlog in He. unfold log in He.
    apply spmv_coo_flat_log_tags in He as [He|He]; [|exact He].
    cbn in He. apply elem_of_nil in He. destruct He. }
  clearbody log. subst log. split.
  - intros n Hn.
    pose proof (Hm n (ldi (row_indices A) n)) as Hone.
    rewrite bool_decide_eq_true_2 in Hone by (split; [exact Hn | reflexivity]).
    apply sum_list_one in Hone as (k & Hk & Hother).
    rewrite list_lookup_fmap in Hk.
    destruct (evs !! k) as [e|] eqn:He; [|discriminate].
    cbn in Hk. case_bool_decide as Hrow; [|discriminate].
    exists k, e. split; [exact He|]. split; [congruence|].
    split; [exact Hrow|].
    destruct (Htags e (list_elem_of_lookup_2 _ _ _ He)) as [Hkind Hkern].
    split; [exact Hkind|]. split; [exact Hkern|].
    intros k' e' He' Hne.
    destruct (decide (ev_row e' = ldi (row_indices A) n)) as [Hr|Hr].
    + specialize (Hother k' (multiplicity n (ev_val e'))).
      rewrite list_lookup_fmap, He' in Hother. cbn in Hother.
      rewrite bool_decide_eq_true_2 in Hother by exact Hr.
      apply Hother; [reflexivity | exact Hne].
    + pose proof (Hm n (ev_row e')) as Hnone.
      rewrite bool_decide_eq_false_2 in Hnone by (intros [_ Heq]; congruence).
      apply (sum_list_zero_inv _ (multiplicity n (ev_val e'))) in Hnone;
        [exact Hnone|].
      apply list_elem_of_fmap. exists e'. split.
      * rewrite bool_decide_eq_true_2 by reflexivity. reflexivity.
      * eapply list_elem_of_lookup_2. exact He'.
  - intros e m He Hin.
    pose proof (proj1 (elem_of_multiplicity m (ev_val e)) Hin) as Hpos.
    pose proof (Hm m (ev_row e)) as Hone.
    destruct (decide (m < Z.to_nat (num_entries A)
                      /\ ldi (row_indices A) m = ev_row e)) as [Hc|Hc];
      [exact Hc|].
    rewrite bool_decide_eq_false_2 in Hone by exact Hc.
    apply (sum_list_zero_inv _ (multiplicity m (ev_val e))) in Hone; [lia|].
    apply list_elem_of_fmap. exists e. split; [|exact He].
    rewrite bool_decide_eq_true_2 by reflexivity. reflexivity.
Qed.

Lemma every_entry_once_witness :
  ld (dev_y (__spmv_coo_flat 30720 false (sample_coo 70) sample_x
               (mkDevice (replicate 10 0%Z) []))) 2
  = vadd (ld (replicate 10 0%Z) 2)
      (ev_total (Z.of_nat 2)
         (dev_log (__spmv_coo_flat 30720 false (sample_coo 70) sample_x
                     (mkDevice (replicate 10 0%Z) []))))
  /\ Forall2 (ev_rel (fun v m => v = entry_sum (sample_coo 70) sample_x m))
    (dev_log (__spmv_coo_flat 30720 false (sample_coo 70) sample_x
                (mkDevice (replicate 10 0%Z) [])))
    (dev_log (__spmv_coo_flat 30720 false (tagged (sample_coo 70)) []
                (mkDevice [] [])))
  /\ exists k e,
    dev_log (__spmv_coo_flat 30720 false (tagged (sample_coo 70)) []
               (mkDevice [] [])) !! k = Some e
    /\ multiplicity 40 (ev_val e) = 1
    /\ ev_row e = ldi (row_indices (sample_coo 70)) 40
    /\ ev_kind e = PlainAdd
    /\ (ev_kernel e = K_flat \/ ev_kernel e = K_reduce \/ ev_kernel e = K_serial)
    /\ forall k' e',
         dev_log (__spmv_coo_flat 30720 false (tagged (sample_coo 70)) []
                    (mkDevice [] [])) !! k' = Some e' ->
         k' <> k -> multiplicity 40 (ev_val e') = 0.
Proof.
  pose proof (every_entry_once 30720 false (sample_coo 70) sample_x
    (replicate 10 0%Z)
    ltac:(vm_compute; reflexivity) ltac:(vm_compute; reflexivity) ltac:(lia))
    as (Hy & Hrel & Honce & _).
  split; [exact (Hy 2 ltac:(vm_compute; lia))|].
  split; [exact Hrel|].
  exact (Honce 40 ltac:(vm_compute; lia)).
Defined.

(** * Further properties of the kernels *)

Lemma ldi_take l n i : i < n -> ldi (take n l) i = ldi l i.
Proof. intros Hi. unfold ldi. rewrite lookup_take_lt by exact Hi. reflexivity. Qed.

Lemma sorted_prefix_le l n i j :
  n <= length l -> nondecreasing (take n l) = true -> i <= j -> j < n ->
  (ldi l i <= ldi l j)%Z.
Proof.
  intros Hn Hs Hij Hj. rewrite <- (ldi_take l n i), <- (ldi_take l n j) by lia.
  apply nondecreasing_le; [exact Hs | exact Hij | rewrite length_take; lia].
Qed.

Lemma sorted_prefix_contiguous l n :
  n <= length l -> nondecreasing (take n l) = true -> contiguous n l.
Proof.
  intros Hn Hs i j k Hij Hjk Hk Heq.
  pose proof (sorted_prefix_le l n i j Hn Hs Hij ltac:(lia)).
  pose proof (sorted_prefix_le l n j k Hn Hs Hjk Hk). lia.
Qed.

Lemma nonneg_prefix l n i :
  forallb (fun r => (0 <=? r)%Z) (take n l) = true -> i < n -> i < length l ->
  (0 <= ldi l i)%Z.
Proof.
  intros Hpos Hi Hl. rewrite <- (ldi_take l n i) by exact Hi.
  destruct (lookup_lt_is_Some_2 (take n l) i ltac:(rewrite length_take; lia))
    as [a Ha].
  unfold ldi. rewrite Ha. cbn. rewrite forallb_forall in Hpos.
  apply Z.leb_le, Hpos, list_elem_of_In. eapply list_elem_of_lookup_2. exact Ha.
Qed.

(** The number of warps with work: [w < ceil(u / q)] exactly when the
    interval of warp [w] starts before the end. *)
Lemma active_warps_nat q u w :
  0 < q -> (w < (u + q - 1) / q <-> w * (32 * q) < 32 * u).
Proof.
  intros Hq.
  pose proof (Nat.div_mod_eq (u + q - 1) q) as Hdm.
  pose proof (Nat.mod_upper_bound (u + q - 1) q ltac:(lia)) as Hm.
  set (a := (u + q - 1) / q) in *. split; intros Hw; nia.
Qed.

(** X1: [segreduce_block] on a block of 512 lanes whose row indices are
    non-decreasing leaves in lane [t] the sum of the initial values of the
    lanes up to and including [t] that share the row index of lane [t]. *)
Theorem segreduce_block_scan {T} `{ValueLaws T} (idx : list Z) (val : list T) :
  512 <= length idx -> length val = 512 ->
  nondecreasing (take 512 idx) = true ->
  forall t, t < 512 -> ld (segreduce_block idx val) t = seg_sum idx val t.
Proof.
  intros Hli Hlv Hs t Ht. rewrite seg_sum_total.
  apply (segreduce_block_total 512); [lia | lia | | exact Ht].
  apply sorted_prefix_contiguous; assumption.
Qed.

Lemma segreduce_block_scan_witness :
  ld (segreduce_block (row_indices (sample_coo 512) ++ [(-1)%Z])
        (values (sample_coo 512))) 300
  = seg_sum (row_indices (sample_coo 512) ++ [(-1)%Z])
      (values (sample_coo 512)) 300.
Proof.
  pose proof (segreduce_block_scan (row_indices (sample_coo 512) ++ [(-1)%Z])
    (values (sample_coo 512)) ltac:(vm_compute; lia) ltac:(vm_compute; reflexivity)
    ltac:(vm_compute; reflexivity)) as Hsum.
  exact (Hsum 300 ltac:(lia)).
Defined.

(** X3: what [spmv_coo_flat_kernel] leaves behind on sorted rows, in a
    launch whose index arithmetic fits the 32-bit [IndexType].  Row by row,
    its adds to [y] together with the carries it stores are the sum of the
    products of the entries before [num_entries]; and the carry of an active
    warp is for the row of the last entry of its interval. *)
Theorem flat_kernel_conservation {T} `{ValueLaws T} BLOCK_SIZE num_blocks
    UseCache x_tex I J (V x : list T) temp_rows temp_vals q u :
  0 < q -> 32 * u <= length I -> nondecreasing (take (32 * u) I) = true ->
  fits_IndexType BLOCK_SIZE num_blocks (32 * u) (32 * q) = true ->
  (u + q - 1) / q <= length temp_rows ->
  (u + q - 1) / q <= length temp_vals ->
  (u + q - 1) / q <= num_blocks * (BLOCK_SIZE / 32) ->
  (forall r,
     vadd (ev_total r (spmv_coo_flat_kernel BLOCK_SIZE num_blocks UseCache x_tex
                         (32 * u) (32 * q) I J V x temp_rows temp_vals).1)
          (carry_total
             (spmv_coo_flat_kernel BLOCK_SIZE num_blocks UseCache x_tex
                (32 * u) (32 * q) I J V x temp_rows temp_vals).2.1
             (spmv_coo_flat_kernel BLOCK_SIZE num_blocks UseCache x_tex
                (32 * u) (32 * q) I J V x temp_rows temp_vals).2.2
             r 0 ((u + q - 1) / q))
     = range_total UseCache x_tex I J V x r 0 (32 * u))
  /\ (forall w, w < (u + q - 1) / q ->
        ldi (spmv_coo_flat_kernel BLOCK_SIZE num_blocks UseCache x_tex
               (32 * u) (32 * q) I J V x temp_rows temp_vals).2.1 w
        = ldi I (Nat.min (w * (32 * q) + 32 * q) (32 * u) - 1)).
Proof.
  intros Hq Hl Hs _ Hlr Hlv HL.
  destruct (spmv_coo_flat_kernel_total BLOCK_SIZE num_blocks UseCache x_tex
              I J V x temp_rows temp_vals q u ((u + q - 1) / q) Hq
              ltac:(intros i j Hij Hj; apply (sorted_prefix_le I (32 * u));
                    assumption)
              ltac:(intros w; apply active_warps_nat; exact Hq) Hlr Hlv HL)
    as (_ & _ & Htot & Hrows).
  split; [exact Htot | exact Hrows].
Qed.

Lemma flat_kernel_conservation_witness :
  vadd (ev_total 2%Z (spmv_coo_flat_kernel 256 1 false [] (32 * 2) (32 * 1)
                        (row_indices (sample_coo 70)) (column_indices (sample_coo 70))
                        (values (sample_coo 70)) sample_x [0; 0]%Z [0; 0]%Z).1)
       (carry_total
          (spmv_coo_flat_kernel 256 1 false [] (32 * 2) (32 * 1)
             (row_indices (sample_coo 70)) (column_indices (sample_coo 70))
             (values (sample_coo 70)) sample_x [0; 0]%Z [0; 0]%Z).2.1
          (spmv_coo_flat_kernel 256 1 false [] (32 * 2) (32 * 1)
             (row_indices (sample_coo 70)) (column_indices (sample_coo 70))
             (values (sample_coo 70)) sample_x [0; 0]%Z [0; 0]%Z).2.2
          2%Z 0 ((2 + 1 - 1) / 1))
  = range_total false [] (row_indices (sample_coo 70))
      (column_indices (sample_coo 70)) (values (sample_coo 70)) sample_x 2%Z 0
      (32 * 2).
Proof.
  pose proof (flat_kernel_conservation 256 1 false []
    (row_indices (sample_coo 70)) (column_indices (sample_coo 70))
    (values (sample_coo 70)) sample_x [0; 0]%Z [0; 0]%Z 1 2
    ltac:(lia) ltac:(vm_compute; lia) ltac:(vm_compute; reflexivity)
    ltac:(vm_compute; reflexivity)
    ltac:(vm_compute; lia) ltac:(vm_compute; lia) ltac:(vm_compute; lia))
    as [Htot _].
  exact (Htot 2%Z).
Defined.

(** The level-1 kernel overwrites every cell of a carry buffer that has one
    cell for each warp that passes the early return: run on two buffers of
    that size, it makes the same accumulations and leaves the same buffer. *)
Lemma spmv_coo_flat_kernel_fresh {T} `{ValueOps T} BLOCK_SIZE num_blocks UseCache
    x_tex tail_ is_ I J (V x : list T) (tr1 tr2 : list Z) (tv1 tv2 : list T) A :
  (forall w, w < num_blocks * (BLOCK_SIZE / 32) ->
     (is_Some (flat_warp UseCache x_tex tail_ is_ I J V x w) <-> w < A)) ->
  A <= num_blocks * (BLOCK_SIZE / 32) ->
  length tr1 = A -> length tr2 = A -> length tv1 = A -> length tv2 = A ->
  spmv_coo_flat_kernel BLOCK_SIZE num_blocks UseCache x_tex tail_ is_ I J V x
    tr1 tv1
  = spmv_coo_flat_kernel BLOCK_SIZE num_blocks UseCache x_tex tail_ is_ I J V x
      tr2 tv2.
Proof.
  intros Hact HL Hr1 Hr2 Hv1 Hv2. unfold spmv_coo_flat_kernel.
  set (step := fun (st : list (Event T) * (list Z * list T)) warp_id => _).
  set (g := num_blocks * (BLOCK_SIZE / 32)) in *.
  assert (Hinv : forall m, m <= g ->
    let st1 := foldl step ([], (tr1, tv1)) (seq 0 m) in
    let st2 := foldl step ([], (tr2, tv2)) (seq 0 m) in
    st1.1 = st2.1
    /\ length st1.2.1 = A /\ length st2.2.1 = A
    /\ length st1.2.2 = A /\ length st2.2.2 = A
    /\ forall w, w < m ->
         st1.2.1 !! w = st2.2.1 !! w /\ st1.2.2 !! w = st2.2.2 !! w).
  { induction m as [|m IH]; intros Hm.
    - change (seq 0 0) with (@nil nat). cbn [foldl fst snd].
      repeat split; try assumption; lia.
    - rewrite seq_S, !foldl_app. cbn [foldl]. rewrite Nat.add_0_l.
      specialize (IH ltac:(lia)). cbv zeta in IH.
      destruct (foldl step ([], (tr1, tv1)) (seq 0 m)) as [e1 [r1 v1]].
      destruct (foldl step ([], (tr2, tv2)) (seq 0 m)) as [e2 [r2 v2]].
      cbn [fst snd] in IH. destruct IH as (He & L1 & L2 & L3 & L4 & Hsame).
      cbv zeta. pose proof (Hact m ltac:(lia)) as Hm'.
      destruct (flat_warp UseCache x_tex tail_ is_ I J V x m) as [[ev c]|] eqn:Hfw.
      + assert (HmA : m < A) by (apply Hm'; eexists; reflexivity).
        assert (Hst : forall st, step st m =
          (st.1 ++ ev, (<[m := carry_idx c]> st.2.1, <[m := carry_val c]> st.2.2))).
        { intros st. unfold step. rewrite Hfw. reflexivity. }
        rewrite !Hst. cbn [fst snd]. rewrite !length_insert.
        split; [rewrite He; reflexivity|]. repeat split; try assumption.
        * destruct (decide (w = m)) as [->|Hne].
          -- rewrite !list_lookup_insert_eq by lia. reflexivity.
          -- rewrite !list_lookup_insert_ne by lia. apply Hsame. lia.
        * destruct (decide (w = m)) as [->|Hne].
          -- rewrite !list_lookup_insert_eq by lia. reflexivity.
          -- rewrite !list_lookup_insert_ne by lia. apply Hsame. lia.
      + assert (HmA : ~ m < A).
        { intros Hlt. apply Hm' in Hlt. destruct Hlt as [? Hx]. discriminate Hx. }
        assert (Hst : forall st, step st m = st).
        { intros st. unfold step. rewrite Hfw. reflexivity. }
        rewrite !Hst. cbn [fst snd]. repeat split; try assumption.
        * destruct (decide (w = m)) as [->|Hne]; [|apply Hsame; lia].
          rewrite !lookup_ge_None_2 by lia. reflexivity.
        * destruct (decide (w = m)) as [->|Hne]; [|apply Hsame; lia].
          rewrite !lookup_ge_None_2 by lia. reflexivity. }
  specialize (Hinv g ltac:(lia)). cbv zeta in Hinv.
  destruct (foldl step ([], (tr1, tv1)) (seq 0 g)) as [e1 [r1 v1]].
  destruct (foldl step ([], (tr2, tv2)) (seq 0 g)) as [e2 [r2 v2]].
  cbn [fst snd] in Hinv. destruct Hinv as (He & L1 & L2 & L3 & L4 & Hsame).
  f_equal; [exact He|]. f_equal.
  - apply list_eq. intros w. destruct (decide (w < g)) as [Hw|Hw].
    + apply Hsame. exact Hw.
    + rewrite !lookup_ge_None_2 by lia. reflexivity.
  - apply list_eq. intros w. destruct (decide (w < g)) as [Hw|Hw].
    + apply Hsame. exact Hw.
    + rewrite !lookup_ge_None_2 by lia. reflexivity.
Qed.

(** X4: the carry buffer of the deferred driver has a cell for every warp
    that finds work and no cell more.  For at least 32 and fewer than [2^30]
    entries, a run of [__spmv_coo_flat] does not depend on what the fresh
    carry arrays hold: whatever they hold, the run leaves the same [y] and
    makes the same accumulations as on zero-filled arrays.  The number of
    cells the driver allocates and has the level-2 kernel read is at least
    one, at most [num_warps] and at most the number of warps in the grid,
    and a warp of the grid passes the early return of
    [spmv_coo_flat_kernel], and so stores its carry, exactly when its number
    is below that size: every cell read at level 2 has been written, and
    every write is inside the arrays. *)
Theorem carry_buffer_exact {T} `{ValueOps T} (MAX_THREADS : Z) (UseCache : bool)
    (d_coo : coo_matrix T) (d_x : list T) (dev : Device)
    (fresh_rows : nat -> list Z) (fresh_vals : nat -> list T) :
  (32 <= num_entries d_coo < 2 ^ 30)%Z ->
  (512 <= MAX_THREADS < 2 ^ 30)%Z ->
  (forall n, length (fresh_rows n) = n) ->
  (forall n, length (fresh_vals n) = n) ->
  let p := launch_plan 256 (u32 MAX_THREADS / u32 (2 * 256)) (num_entries d_coo) in
  let active_warps := carry_buffer_size MAX_THREADS (num_entries d_coo) in
  __spmv_coo_flat_fresh MAX_THREADS fresh_rows fresh_vals UseCache d_coo d_x dev
  = __spmv_coo_flat MAX_THREADS UseCache d_coo d_x dev
  /\ (1 <= active_warps <= num_warps p)%Z
  /\ Z.to_nat active_warps <= Z.to_nat (num_blocks p) * (256 / 32)
  /\ forall warp_id, warp_id < Z.to_nat (num_blocks p) * (256 / 32) ->
       (is_Some (flat_warp UseCache (if UseCache then bind_x d_x else [])
                   (Z.to_nat (tail p)) (Z.to_nat (interval_size p))
                   (row_indices d_coo) (column_indices d_coo) (values d_coo)
                   d_x warp_id)
        <-> warp_id < Z.to_nat active_warps).
Proof.
  intros [HN32 HN] HMT Hfr Hfv. apply below_2_30 in HN.
  assert (Hrange : (32 <= num_entries d_coo < 2 ^ 31)%Z) by (split; assumption).
  unfold carry_buffer_size, __spmv_coo_flat_fresh, __spmv_coo_flat.
  rewrite (bool_decide_eq_false_2 (num_entries d_coo = 0)%Z) by lia.
  rewrite (bool_decide_eq_false_2 (num_entries d_coo < WARP_SIZE)%Z)
    by (unfold WARP_SIZE; lia).
  change (2 ^ 30)%Z with 1073741824%Z in HMT.
  assert (HMB : (u32 MAX_THREADS / u32 (2 * 256) = MAX_THREADS / 512)%Z).
  { rewrite !u32_small by (change (2 ^ 32)%Z with 4294967296%Z; lia).
    reflexivity. }
  rewrite HMB.
  assert (HU : (1 <= 256 / 32 * (MAX_THREADS / 512) < 2 ^ 31)%Z).
  { change (256 / 32)%Z with 8%Z. change (2 ^ 31)%Z with 2147483648%Z.
    pose proof (Z.div_le_lower_bound MAX_THREADS 512 1 ltac:(lia) ltac:(lia)).
    pose proof (Z.div_le_upper_bound MAX_THREADS 512 2097152 ltac:(lia) ltac:(lia)).
    lia. }
  destruct (plan_geometry 256 (MAX_THREADS / 512) (num_entries d_coo) Hrange
              ltac:(lia) HU)
    as (u & q & Hq & Hqu & Htl & His & HtlZ & HisZ & HuN & Hrest & HL & Hu26).
  destruct (launch_plan_spec 256 (MAX_THREADS / 512) (num_entries d_coo) Hrange
              ltac:(lia) HU)
    as (_ & _ & _ & Hqw & Hisq & Htlu & _ & _ & Hw1 & _ & _ & _ & _).
  set (p := launch_plan 256 (MAX_THREADS / 512) (num_entries d_coo)) in *.
  cbv zeta. rewrite (bool_decide_eq_false_2 (interval_size p = 0)%Z) by lia.
  destruct (active_warps_spec (Z.of_nat u) (Z.of_nat q) ltac:(lia) Hu26)
    as [HA0 HA].
  replace (DIVIDE_INTO (u32 (tail p)) (interval_size p))
    with (DIVIDE_INTO (u32 (Z.of_nat u * 32)) (32 * Z.of_nat q))
    by (rewrite <- HtlZ, <- HisZ; reflexivity).
  set (A := DIVIDE_INTO (u32 (Z.of_nat u * 32)) (32 * Z.of_nat q)) in *.
  assert (HA' : forall w, w < Z.to_nat A <-> w * (32 * q) < 32 * u).
  { intros w. specialize (HA (Z.of_nat w) ltac:(lia)). split; intros Hw.
    - apply Nat2Z.inj_lt. rewrite !Nat2Z.inj_mul. simpl Z.of_nat. lia.
    - apply Nat2Z.inj_lt in Hw. rewrite !Nat2Z.inj_mul in Hw.
      simpl Z.of_nat in Hw. lia. }
  change (Z.to_nat (256 / 32)) with 8 in HL. change (256 / 32) with 8.
  assert (HAL : Z.to_nat A <= Z.to_nat (num_blocks p) * 8).
  { destruct (decide (Z.to_nat A <= Z.to_nat (num_blocks p) * 8)); [assumption|].
    assert (Z.to_nat (num_blocks p) * 8 < Z.to_nat A) as Hlt by lia.
    apply HA' in Hlt. lia. }
  assert (Hact : forall w, w < Z.to_nat (num_blocks p) * 8 ->
    (is_Some (flat_warp UseCache (if UseCache then bind_x d_x else [])
                (Z.to_nat (tail p)) (Z.to_nat (interval_size p))
                (row_indices d_coo) (column_indices d_coo) (values d_coo) d_x w)
     <-> w < Z.to_nat A)).
  { intros w _. rewrite HA', Htl, His. unfold flat_warp, thread_begin, thread_end.
    case_bool_decide as Hb.
    - split; [intros [? Hx]; discriminate Hx | lia].
    - split; [lia | intros _; eexists; reflexivity]. }
  split; [|split; [|split; [exact HAL | exact Hact]]].
  - change host_method with false. cbv iota.
    rewrite (spmv_coo_flat_kernel_fresh 256 (Z.to_nat (num_blocks p)) UseCache
               (if UseCache then bind_x d_x else [])
               (Z.to_nat (tail p)) (Z.to_nat (interval_size p))
               (row_indices d_coo) (column_indices d_coo) (values d_coo) d_x
               (fresh_rows (Z.to_nat A)) (new_device_array 0%Z (Z.to_nat A))
               (fresh_vals (Z.to_nat A)) (new_device_array vzero (Z.to_nat A))
               (Z.to_nat A) Hact HAL (Hfr _)
               ltac:(apply length_replicate) (Hfv _)
               ltac:(apply length_replicate)).
    reflexivity.
  - split.
    + pose proof (proj2 (HA' 0) ltac:(lia)). lia.
    + destruct (decide (A <= num_warps p)%Z) as [Hle|Hgt]; [exact Hle|].
      assert (Hlt : Z.to_nat (num_warps p) < Z.to_nat A) by lia.
      apply HA' in Hlt.
      assert (Z.of_nat (Z.to_nat (num_warps p) * (32 * q)) < Z.of_nat (32 * u))%Z
        by lia.
      rewrite !Nat2Z.inj_mul, Z2Nat.id in * by lia.
      simpl Z.of_nat in *. nia.
Qed.

Lemma carry_buffer_exact_witness :
  __spmv_coo_flat_fresh 30720 (fun n => replicate n 7%Z) (fun n => replicate n 9%Z)
    false (sample_coo 70) sample_x sample_dev
  = __spmv_coo_flat 30720 false (sample_coo 70) sample_x sample_dev.
Proof.
  pose proof (carry_buffer_exact 30720 false (sample_coo 70) sample_x sample_dev
    (fun n => replicate n 7%Z) (fun n => replicate n 9%Z)
    ltac:(split; [vm_compute; discriminate | vm_compute; reflexivity])
    ltac:(lia)
    ltac:(intros n; apply length_replicate)
    ltac:(intros n; apply length_replicate)) as (Hsame & _).
  exact Hsame.
Defined.

(** X5: [spmv_coo_reduce_update_kernel] with 512 threads, on any number of
    carries with non-negative, non-decreasing rows, adds to every row of [y]
    the sum of the carries of that row, however the carries fall over the
    passes of the loop and the final partial block. *)
Theorem reduce_update_conservation {T} `{ValueLaws T} (num_warps : nat)
    (temp_rows : list Z) (temp_vals : list T) (r : Z) :
  num_warps <= length temp_rows ->
  nondecreasing (take num_warps temp_rows) = true ->
  forallb (fun r => (0 <=? r)%Z) (take num_warps temp_rows) = true ->
  ev_total r (spmv_coo_reduce_update_kernel 512 num_warps temp_rows temp_vals)
  = carry_total temp_rows temp_vals r 0 num_warps.
Proof.
  intros Hl Hs Hpos. apply spmv_coo_reduce_update_kernel_total.
  - apply sorted_prefix_contiguous; assumption.
  - intros w Hw. pose proof (nonneg_prefix temp_rows num_warps w Hpos Hw ltac:(lia)).
    lia.
Qed.

Lemma reduce_update_conservation_witness :
  ev_total 50%Z (spmv_coo_reduce_update_kernel 512 700
                   (row_indices (sample_coo 700)) (values (sample_coo 700)))
  = carry_total (row_indices (sample_coo 700)) (values (sample_coo 700)) 50%Z 0 700.
Proof.
  exact (reduce_update_conservation 700 (row_indices (sample_coo 700))
    (values (sample_coo 700)) 50%Z ltac:(vm_compute; lia)
    ltac:(vm_compute; reflexivity) ltac:(vm_compute; reflexivity)).
Defined.

(** ** Each row is written once *)

Lemma rows_increasing_nil {T} : rows_increasing (@nil (Event T)).
Proof. intros i j e1 e2 _ Hi. destruct i; discriminate Hi. Qed.

Lemma rows_increasing_one {T} (e : Event T) : rows_increasing [e].
Proof.
  intros i j e1 e2 Hij Hi Hj. destruct j as [|j]; [lia|].
  destruct j; discriminate Hj.
Qed.

Lemma rows_increasing_app {T} (ev1 ev2 : list (Event T)) :
  rows_increasing ev1 -> rows_increasing ev2 ->
  (forall e1 e2, e1 ∈ ev1 -> e2 ∈ ev2 -> (ev_row e1 < ev_row e2)%Z) ->
  rows_increasing (ev1 ++ ev2).
Proof.
  intros H1 H2 H12 i j e1 e2 Hij Hi Hj.
  destruct (decide (j < length ev1)) as [Hj1|Hj1].
  - rewrite lookup_app_l in Hi by lia. rewrite lookup_app_l in Hj by lia.
    exact (H1 i j e1 e2 Hij Hi Hj).
  - rewrite lookup_app_r in Hj by lia.
    destruct (decide (i < length ev1)) as [Hi1|Hi1].
    + rewrite lookup_app_l in Hi by lia.
      apply H12; eapply list_elem_of_lookup_2; eassumption.
    + rewrite lookup_app_r in Hi by lia.
      apply (H2 (i - length ev1) (j - length ev1)); [lia | exact Hi | exact Hj].
Qed.

Lemma rows_increasing_flushes {T} (idx : list Z) (mk : nat -> Event T) m :
  (forall l, ev_row (mk l) = ldi idx l) ->
  (forall i j, i <= j -> j <= m -> (ldi idx i <= ldi idx j)%Z) ->
  rows_increasing (flushes idx mk m)
  /\ forall e, e ∈ flushes idx mk m -> (ev_row e < ldi idx m)%Z.
Proof.
  intros Hrow. unfold flushes. induction m as [|m IH]; intros Hs.
  - split; [apply rows_increasing_nil|].
    intros e He. apply elem_of_nil in He. destruct He.
  - destruct (IH ltac:(intros; apply Hs; lia)) as [Hinc Hlt].
    rewrite mjoin_tab_S.
    pose proof (Hs m (S m) ltac:(lia) ltac:(lia)) as Hstep.
    case_bool_decide as Hne.
    + replace (m + 1) with (S m) in Hne by lia. split.
      * apply rows_increasing_app; [exact Hinc | apply rows_increasing_one|].
        intros e1 e2 He1 He2. apply list_elem_of_singleton in He2. subst e2.
        rewrite Hrow. apply Hlt. exact He1.
      * intros e He. apply elem_of_app in He as [He|He].
        -- specialize (Hlt e He). lia.
        -- apply list_elem_of_singleton in He. subst e. rewrite Hrow. lia.
    + rewrite app_nil_r. split; [exact Hinc|].
      intros e He. specialize (Hlt e He). lia.
Qed.

Lemma warp_stride_rows_increasing {T} `{ValueOps T} k kind UseCache x_tex I J
    (V x : list T) warp_id n c :
  (forall i j, n <= i -> i <= j -> j < n + 32 -> (ldi I i <= ldi I j)%Z) ->
  (carry_idx c <= ldi I n)%Z ->
  rows_increasing (warp_stride k kind UseCache x_tex I J V x warp_id n c).1.
Proof.
  intros Hs Hc.
  set (idx := tab 32 (fun l => ldi I (n + l))).
  set (val0 := tab 32 (fun l => entry_term UseCache x_tex J V x (n + l))).
  set (val1 := if bool_decide (ldi idx 0 = carry_idx c)
               then <[0 := vadd (ld val0 0) (carry_val c)]> val0 else val0).
  set (val := segreduce_warp idx val1).
  change (warp_stride k kind UseCache x_tex I J V x warp_id n c) with
    ((if bool_decide (ldi idx 0 = carry_idx c) then []
      else [mkEvent k warp_id (kind (carry_idx c)) (carry_idx c) (carry_val c)])
     ++ flushes idx (fun l =>
          mkEvent k warp_id (kind (ldi idx l)) (ldi idx l) (ld val l)) 31,
     mkCarry (ldi idx 31) (ld val 31)).
  cbn [fst].
  assert (Hidx : forall l, l < 32 -> ldi idx l = ldi I (n + l)).
  { intros l Hl. exact (ldi_tab 32 (fun l => ldi I (n + l)) l Hl). }
  destruct (rows_increasing_flushes idx
              (fun l => mkEvent k warp_id (kind (ldi idx l)) (ldi idx l) (ld val l))
              31 (fun _ => eq_refl)
              ltac:(intros i j Hij Hj; rewrite !Hidx by lia; apply Hs; lia))
    as [Hinc _].
  apply rows_increasing_app; [| exact Hinc |].
  - destruct (bool_decide (ldi idx 0 = carry_idx c));
      [apply rows_increasing_nil | apply rows_increasing_one].
  - intros e1 e2 He1 He2. rewrite Hidx in He1 by lia.
    replace (n + 0) with n in He1 by lia.
    case_bool_decide as Hne; [apply elem_of_nil in He1; destruct He1|].
    apply list_elem_of_singleton in He1. subst e1. cbn [ev_row].
    unfold flushes in He2. apply elem_of_flush_tab in He2 as (l & Hl & _ & ->).
    cbn [ev_row]. rewrite Hidx by lia.
    pose proof (Hs n (n + l) ltac:(lia) ltac:(lia) ltac:(lia)). lia.
Qed.

Lemma warp_loop_rows_increasing {T} `{ValueLaws T} k kind UseCache x_tex I J
    (V x : list T) warp_id iters :
  forall fuel n end_ c,
  end_ = n + 32 * iters -> iters <= fuel ->
  (forall i j, n <= i -> i <= j -> j < end_ -> (ldi I i <= ldi I j)%Z) ->
  (carry_idx c <= ldi I n)%Z ->
  rows_increasing (warp_loop fuel k kind UseCache x_tex I J V x warp_id n end_ c).1.
Proof.
  induction iters as [|iters IH]; intros fuel n end_ c Hend Hfuel Hs Hc.
  - rewrite warp_loop_done by lia. apply rows_increasing_nil.
  - destruct fuel as [|fuel]; [lia|]. cbn [warp_loop].
    rewrite bool_decide_eq_true_2 by lia.
    pose proof (warp_stride_rows_increasing k kind UseCache x_tex I J V x
                  warp_id n c ltac:(intros; apply Hs; lia) Hc) as Hinc.
    pose proof (fun e => warp_stride_events k kind UseCache x_tex I J V x
                  warp_id n c e ltac:(intros; apply Hs; lia) Hc) as Hev.
    pose proof (warp_stride_carry_idx k kind UseCache x_tex I J V x warp_id n c)
      as Hci.
    destruct (warp_stride k kind UseCache x_tex I J V x warp_id n c) as [ev c'].
    cbn [fst snd] in Hinc, Hev, Hci.
    assert (Hc' : (carry_idx c' <= ldi I (n + 32))%Z \/ iters = 0).
    { destruct iters; [right; reflexivity|]. left. rewrite Hci. apply Hs; lia. }
    destruct Hc' as [Hc' | ->].
    2:{ rewrite warp_loop_done by lia. rewrite app_nil_r. exact Hinc. }
    pose proof (IH fuel (n + 32) end_ c' ltac:(lia) ltac:(lia)
                  ltac:(intros; apply Hs; lia) Hc') as Hinc'.
    pose proof (fun e => warp_loop_events k kind UseCache x_tex I J V x
                  warp_id e iters fuel (n + 32) end_ c' ltac:(lia) ltac:(lia)
                  ltac:(intros; apply Hs; lia) Hc') as Hev'.
    destruct (warp_loop fuel k kind UseCache x_tex I J V x warp_id (n + 32) end_ c')
      as [evs c''].
    cbn [fst] in *. apply rows_increasing_app; [exact Hinc | exact Hinc'|].
    intros e1 e2 He1 He2.
    destruct (Hev e1 He1) as (_ & _ & _ & Hr1).
    destruct (Hev' e2 He2) as (_ & _ & _ & Hr2). lia.
Qed.

Lemma flat_warp_rows_increasing {T} `{ValueLaws T} UseCache x_tex I J
    (V x : list T) warp_id q u ev c :
  0 < q ->
  (forall i j, i <= j -> j < 32 * u -> (ldi I i <= ldi I j)%Z) ->
  flat_warp UseCache x_tex (32 * u) (32 * q) I J V x warp_id = Some (ev, c) ->
  rows_increasing ev.
Proof.
  intros Hq Hs Hfw.
  destruct (decide (warp_id * (32 * q) < 32 * u)) as [Hw|Hw].
  2:{ rewrite flat_warp_idle in Hfw by lia. discriminate. }
  destruct (interval_iters warp_id q u Hq Hw) as (it & Hit & Hend).
  unfold flat_warp, thread_begin, thread_end in Hfw. rewrite Hend in Hfw.
  rewrite bool_decide_eq_false_2 in Hfw by lia.
  set (b := warp_id * (32 * q)) in *.
  pose proof (warp_loop_rows_increasing K_flat (fun _ => PlainAdd)
    UseCache x_tex I J V x warp_id it (b + 0 + 32 * it - (b + 0)) (b + 0)
    (b + 0 + 32 * it) (mkCarry (ldi I (b + 0)) vzero) eq_refl ltac:(lia)
    ltac:(intros; apply Hs; lia) ltac:(cbn [carry_idx]; lia)) as Hinc.
  apply (inj Some) in Hfw. rewrite Hfw in Hinc. exact Hinc.
Qed.

(** X2: in [spmv_coo_flat_kernel], on sorted rows, the rows of the adds to
    [y], taken warp by warp and stride by stride, grow strictly.  So the
    level-1 kernel adds to a row of [y] at most once: no two of its plain
    adds, of one warp or of two, go to the same row. *)
Theorem flat_kernel_rows_increasing {T} `{ValueLaws T} BLOCK_SIZE num_blocks
    UseCache x_tex I J (V x : list T) temp_rows temp_vals q u :
  0 < q -> 32 * u <= length I -> nondecreasing (take (32 * u) I) = true ->
  rows_increasing
    (spmv_coo_flat_kernel BLOCK_SIZE num_blocks UseCache x_tex (32 * u) (32 * q)
       I J V x temp_rows temp_vals).1.
Proof.
  intros Hq Hl Hsb.
  assert (Hs : forall i j, i <= j -> j < 32 * u -> (ldi I i <= ldi I j)%Z).
  { intros i j Hij Hj. apply (sorted_prefix_le I (32 * u)); assumption. }
  unfold spmv_coo_flat_kernel.
  set (step := fun (st : list (Event T) * (list Z * list T)) warp_id => _).
  generalize (num_blocks * (BLOCK_SIZE / 32)). intros L.
  assert (Hinv :
    rows_increasing (foldl step ([], (temp_rows, temp_vals)) (seq 0 L)).1
    /\ forall e, e ∈ (foldl step ([], (temp_rows, temp_vals)) (seq 0 L)).1 ->
         exists w, w < L /\ w * (32 * q) < 32 * u
           /\ (ev_row e < ldi I (Nat.min (w * (32 * q) + 32 * q) (32 * u) - 1))%Z).
  { induction L as [|L IH].
    - split; [apply rows_increasing_nil|].
      intros e He. apply elem_of_nil in He. destruct He.
    - rewrite seq_S, foldl_app. cbn [foldl]. rewrite Nat.add_0_l.
      destruct IH as [Hinc Hprev].
      destruct (foldl step ([], (temp_rows, temp_vals)) (seq 0 L)) as [evs [tr tv]].
      cbn [fst] in Hinc, Hprev. unfold step at 1. unfold step at 1.
      destruct (flat_warp UseCache x_tex (32 * u) (32 * q) I J V x L)
        as [[ev c]|] eqn:Hfw.
      + cbn [fst snd].
        pose proof (fun e => flat_warp_events UseCache x_tex I J V x L q u ev c e
                      Hq Hs Hfw) as Hev.
        split.
        * apply rows_increasing_app;
            [exact Hinc | exact (flat_warp_rows_increasing _ _ _ _ _ _ _ _ _ _ _
                                   Hq Hs Hfw) |].
          intros e1 e2 He1 He2.
          destruct (Hprev e1 He1) as (w & Hw & Hwa & Hr1).
          destruct (Hev e2 He2) as (HL & _ & Hr2).
          assert (w * (32 * q) + 32 * q <= L * (32 * q)) by nia.
          pose proof (Hs (Nat.min (w * (32 * q) + 32 * q) (32 * u) - 1)
                        (L * (32 * q)) ltac:(lia) ltac:(lia)). lia.
        * intros e He. apply elem_of_app in He as [He|He].
          -- destruct (Hprev e He) as (w & Hw & Hwa & Hr).
             exists w. split; [lia|]. split; assumption.
          -- destruct (Hev e He) as (HL & _ & Hr).
             exists L. split; [lia|]. split; [exact HL | lia].
      + split; [exact Hinc|]. intros e He.
        destruct (Hprev e He) as (w & Hw & Hwa & Hr).
        exists w. split; [lia|]. split; assumption. }
  exact (proj1 Hinv).
Qed.

Lemma flat_kernel_rows_increasing_witness :
  rows_increasing
    (spmv_coo_flat_kernel 256 1 false [] (32 * 2) (32 * 1)
       (row_indices (sample_coo 70)) (column_indices (sample_coo 70))
       (values (sample_coo 70)) sample_x [0; 0]%Z [0; 0]%Z).1.
Proof.
  exact (flat_kernel_rows_increasing 256 1 false []
    (row_indices (sample_coo 70)) (column_indices (sample_coo 70))
    (values (sample_coo 70)) sample_x [0; 0]%Z [0; 0]%Z 1 2
    ltac:(lia) ltac:(vm_compute; lia) ltac:(vm_compute; reflexivity)).
Defined.

(** ** The passes of the level-2 kernel *)

Lemma reduce_full_block_flush {T} `{ValueOps T} B base temp_rows
    (temp_vals : list T) e :
  e ∈ reduce_full_block B base temp_rows temp_vals ->
  exists t, t < B /\ ev_unit e = base + t
    /\ ev_row e = ldi temp_rows (base + t)
    /\ (t + 1 < B -> ldi temp_rows (base + t) <> ldi temp_rows (base + (t + 1))).
Proof.
  intros He. unfold reduce_full_block in He.
  apply elem_of_flush_tab in He as (t & Ht & Hc & ->).
  apply bool_decide_eq_true in Hc.
  exists t. cbn [ev_unit ev_row].
  rewrite (ldi_app_tab B (fun t => ldi temp_rows (base + t)) _ t Ht) in *.
  split; [exact Ht|]. split; [reflexivity|]. split; [reflexivity|].
  intros Ht1.
  rewrite (ldi_app_tab B (fun t => ldi temp_rows (base + t)) _ (t + 1) Ht1) in Hc.
  exact Hc.
Qed.

Lemma reduce_partial_block_flush {T} `{ValueOps T} B base num_warps temp_rows
    (temp_vals : list T) e :
  e ∈ reduce_partial_block B base num_warps temp_rows temp_vals ->
  exists t, t < B /\ base + t < num_warps /\ ev_unit e = base + t
    /\ ev_row e = ldi temp_rows (base + t)
    /\ (t + 1 < B -> base + (t + 1) < num_warps ->
        ldi temp_rows (base + t) <> ldi temp_rows (base + (t + 1))).
Proof.
  intros He. unfold reduce_partial_block in He.
  apply elem_of_flush_tab2 in He as (t & Ht & Hlive & Hc & ->).
  apply bool_decide_eq_true in Hlive. apply bool_decide_eq_true in Hc.
  exists t. cbn [ev_unit ev_row]. unfold partial_rows in *.
  rewrite (ldi_app_tab B _ _ t Ht) in *.
  rewrite (bool_decide_eq_true_2 _ Hlive) in *.
  split; [exact Ht|]. split; [exact Hlive|]. split; [reflexivity|].
  split; [reflexivity|]. intros Ht1 Hlive1.
  rewrite (ldi_app_tab B _ _ (t + 1) Ht1) in Hc.
  rewrite (bool_decide_eq_true_2 _ Hlive1) in Hc. exact Hc.
Qed.

Lemma reduce_loop_flush {T} `{ValueOps T} B temp_rows (temp_vals : list T) e k :
  forall fuel i end_,
  end_ = i + B * k -> k <= fuel ->
  e ∈ (reduce_loop fuel B i end_ temp_rows temp_vals).1 ->
  exists j t, j < k /\ t < B /\ ev_unit e = i + B * j + t
    /\ ev_row e = ldi temp_rows (ev_unit e)
    /\ (t + 1 < B -> ldi temp_rows (ev_unit e) <> ldi temp_rows (S (ev_unit e))).
Proof.
  induction k as [|k IH]; intros fuel i end_ Hend Hfuel He.
  - assert (Hdone : reduce_loop fuel B i end_ temp_rows temp_vals = ([], i)).
    { destruct fuel; [reflexivity|]. cbn [reduce_loop].
      rewrite bool_decide_eq_false_2 by lia. reflexivity. }
    rewrite Hdone in He. apply elem_of_nil in He. destruct He.
  - destruct fuel as [|fuel]; [lia|]. cbn [reduce_loop] in He.
    destruct (decide (i < end_)) as [Hlt|Hge].
    2:{ rewrite bool_decide_eq_false_2 in He by exact Hge.
        apply elem_of_nil in He. destruct He. }
    rewrite bool_decide_eq_true_2 in He by exact Hlt.
    pose proof (IH fuel (i + B) end_ ltac:(lia) ltac:(lia)) as Hl.
    destruct (reduce_loop fuel B (i + B) end_ temp_rows temp_vals)
      as [evs i'].
    cbn [fst] in *. apply elem_of_app in He as [He|He].
    + apply reduce_full_block_flush in He as (t & Ht & Hu & Hr & Hc).
      exists 0, t. split; [lia|]. split; [exact Ht|].
      split; [lia|]. rewrite Hu. split; [exact Hr|].
      intros Ht1. replace (S (i + t)) with (i + (t + 1)) by lia. auto.
    + destruct (Hl He) as (j & t & Hj & Ht & Hu & Hr & Hc).
      exists (S j), t. split; [lia|]. split; [exact Ht|].
      split; [lia|]. split; assumption.
Qed.

Lemma reduce_loop_index {T} `{ValueOps T} B temp_rows (temp_vals : list T) k :
  forall fuel i end_,
  0 < B -> end_ = i + B * k -> k <= fuel ->
  (reduce_loop fuel B i end_ temp_rows temp_vals).2 = end_.
Proof.
  induction k as [|k IH]; intros fuel i end_ HB Hend Hfuel.
  - destruct fuel; [cbn; lia|]. cbn [reduce_loop].
    rewrite bool_decide_eq_false_2 by lia. cbn. lia.
  - destruct fuel as [|fuel]; [lia|]. cbn [reduce_loop].
    rewrite bool_decide_eq_true_2 by nia.
    pose proof (IH fuel (i + B) end_ HB ltac:(lia) ltac:(lia)) as Hl.
    destruct (reduce_loop fuel B (i + B) end_ temp_rows temp_vals) as [evs i'].
    exact Hl.
Qed.

Lemma reduce_update_flush {T} `{ValueOps T} num_warps temp_rows
    (temp_vals : list T) e :
  e ∈ spmv_coo_reduce_update_kernel 512 num_warps temp_rows temp_vals ->
  ev_unit e < num_warps
  /\ ev_row e = ldi temp_rows (ev_unit e)
  /\ (ev_unit e mod 512 + 1 < 512 -> S (ev_unit e) < num_warps ->
      ldi temp_rows (ev_unit e) <> ldi temp_rows (S (ev_unit e))).
Proof.
  set (B := 512). assert (HB : B = 512) by reflexivity. clearbody B.
  unfold spmv_coo_reduce_update_kernel.
  pose proof (Nat.land_ones num_warps 9) as Hland.
  change (Nat.ones 9) with (512 - 1) in Hland. change (2 ^ 9) with 512 in Hland.
  rewrite <- HB in Hland. rewrite Hland. clear Hland.
  pose proof (Nat.div_mod_eq num_warps B) as Hdm.
  pose proof (Nat.mod_upper_bound num_warps B ltac:(lia)) as Hmod.
  set (k := num_warps / B) in *. set (m := num_warps mod B) in *.
  replace (num_warps - m) with (B * k) by lia.
  pose proof (reduce_loop_flush B temp_rows temp_vals e k (B * k) 0 (B * k)
                ltac:(lia) ltac:(nia)) as Hl.
  pose proof (reduce_loop_index B temp_rows temp_vals k (B * k) 0 (B * k)
                ltac:(lia) ltac:(lia) ltac:(nia)) as Hi.
  destruct (reduce_loop (B * k) B 0 (B * k) temp_rows temp_vals) as [ev i].
  cbn [fst snd] in Hl, Hi. subst i. intros He.
  assert (He' : e ∈ ev
            \/ e ∈ reduce_partial_block B (B * k) num_warps temp_rows temp_vals).
  { destruct (bool_decide (B * k < num_warps)); [|left; exact He].
    apply elem_of_app in He. exact He. }
  destruct He' as [He'|He'].
  - destruct (Hl He') as (j & t & Hj & Ht & Hu & Hr & Hc).
    split; [nia|]. split; [exact Hr|]. intros Hlane _. apply Hc.
    assert (Hmodt : ev_unit e mod B = t).
    { rewrite Hu. replace (0 + B * j + t) with (t + j * B) by lia.
      rewrite Nat.Div0.mod_add. apply Nat.mod_small. exact Ht. }
    lia.
  - apply reduce_partial_block_flush in He' as (t & Ht & Hlive & Hu & Hr & Hc).
    rewrite Hu. split; [exact Hlive|]. split; [exact Hr|]. intros Hlane Hnext.
    assert (Hmodt : (B * k + t) mod B = t).
    { replace (B * k + t) with (t + k * B) by lia.
      rewrite Nat.Div0.mod_add. apply Nat.mod_small. exact Ht. }
    replace (S (B * k + t)) with (B * k + (t + 1)) by lia.
    apply Hc; lia.
Qed.

(** X6: in a pass of [spmv_coo_reduce_update_kernel] (the 512 carries
    [512 * j .. 512 * j + 511], or the final partial block) on carries with
    non-decreasing rows, two threads never add to the same row of [y]: an
    add of carry [i1] and an add of a later carry [i2] of the same pass go
    to different rows. *)
Theorem reduce_update_pass_disjoint {T} `{ValueOps T} (num_warps : nat)
    (temp_rows : list Z) (temp_vals : list T) (e1 e2 : Event T) :
  num_warps <= length temp_rows ->
  nondecreasing (take num_warps temp_rows) = true ->
  e1 ∈ spmv_coo_reduce_update_kernel 512 num_warps temp_rows temp_vals ->
  e2 ∈ spmv_coo_reduce_update_kernel 512 num_warps temp_rows temp_vals ->
  ev_unit e1 < ev_unit e2 ->
  ev_unit e1 / 512 = ev_unit e2 / 512 ->
  (ev_row e1 < ev_row e2)%Z.
Proof.
  intros Hl Hs He1 He2 Hlt Hpass.
  apply reduce_update_flush in He1 as (Hu1 & Hr1 & Hc1).
  apply reduce_update_flush in He2 as (Hu2 & Hr2 & _).
  pose proof (Nat.div_mod_eq (ev_unit e1) 512) as Hd1.
  pose proof (Nat.div_mod_eq (ev_unit e2) 512) as Hd2.
  pose proof (Nat.mod_upper_bound (ev_unit e2) 512 ltac:(lia)) as Hm2.
  specialize (Hc1 ltac:(lia) ltac:(lia)).
  pose proof (sorted_prefix_le temp_rows num_warps (ev_unit e1) (S (ev_unit e1))
                Hl Hs ltac:(lia) ltac:(lia)).
  pose proof (sorted_prefix_le temp_rows num_warps (S (ev_unit e1)) (ev_unit e2)
                Hl Hs ltac:(lia) ltac:(lia)).
  lia.
Qed.

Lemma reduce_update_pass_disjoint_witness :
  (ev_row (mkEvent K_reduce 11 PlainAdd 0%Z 78%Z)
   <? ev_row (mkEvent K_reduce 23 PlainAdd 1%Z 222%Z))%Z = true.
Proof.
  apply Z.ltb_lt.
  exact (reduce_update_pass_disjoint 700 (row_indices (sample_coo 700))
    (values (sample_coo 700))
    (mkEvent K_reduce 11 PlainAdd 0%Z 78%Z) (mkEvent K_reduce 23 PlainAdd 1%Z 222%Z)
    ltac:(vm_compute; lia) ltac:(vm_compute; reflexivity)
    ltac:(apply (list_elem_of_lookup_2 _ 0); vm_compute; reflexivity)
    ltac:(apply (list_elem_of_lookup_2 _ 1); vm_compute; reflexivity)
    ltac:(cbn; lia) ltac:(reflexivity)).
Defined.

(** ** The atomic kernel and the lanes of a warp *)

(** X7: on sorted rows, in a launch whose grid covers the entries and whose
    index arithmetic fits the 32-bit [IndexType],
    [spmv_coo_flat_atomic_kernel] adds to every row of [y], in plain and
    atomic adds together, the sum of the products of the entries of that row
    before [num_entries]. *)
Theorem atomic_kernel_conservation {T} `{ValueLaws T} BLOCK_SIZE num_blocks
    UseCache x_tex I J (V x : list T) q u r :
  0 < q -> 32 * u <= length I -> nondecreasing (take (32 * u) I) = true ->
  fits_IndexType BLOCK_SIZE num_blocks (32 * u) (32 * q) = true ->
  32 * u <= num_blocks * (BLOCK_SIZE / 32) * (32 * q) ->
  ev_total r (spmv_coo_flat_atomic_kernel BLOCK_SIZE num_blocks UseCache x_tex
                (32 * u) (32 * q) I J V x)
  = range_total UseCache x_tex I J V x r 0 (32 * u).
Proof.
  intros Hq Hl Hs _ HL.
  apply spmv_coo_flat_atomic_kernel_total; [exact Hq | | exact HL].
  intros i j Hij Hj. apply (sorted_prefix_le I (32 * u)); assumption.
Qed.

Lemma atomic_kernel_conservation_witness :
  ev_total 2%Z (spmv_coo_flat_atomic_kernel 128 1 false [] (32 * 2) (32 * 1)
                  (row_indices (sample_coo 70)) (column_indices (sample_coo 70))
                  (values (sample_coo 70)) sample_x)
  = range_total false [] (row_indices (sample_coo 70))
      (column_indices (sample_coo 70)) (values (sample_coo 70)) sample_x 2%Z 0
      (32 * 2).
Proof.
  exact (atomic_kernel_conservation 128 1 false []
    (row_indices (sample_coo 70)) (column_indices (sample_coo 70))
    (values (sample_coo 70)) sample_x 1 2 2%Z
    ltac:(lia) ltac:(vm_compute; lia) ltac:(vm_compute; reflexivity)
    ltac:(vm_compute; reflexivity) ltac:(vm_compute; lia)).
Defined.

(** X8: when the interval size and the entry count are multiples of 32, as
    the drivers pass them, the 32 threads of a warp take the same branch at
    [if (begin >= end) return] and at every test [n < end] of the loop of
    the two level-1 kernels, and a thread that enters the loop body reads
    its entry [n] below [num_entries]. *)
Theorem warp_lanes_in_step (warp_id q u thread_lane k : nat) :
  thread_lane < 32 ->
  (thread_begin warp_id (32 * q) thread_lane + 32 * k
     < thread_end (thread_begin warp_id (32 * q) thread_lane) (32 * q) (32 * u)
   <-> thread_begin warp_id (32 * q) 0 + 32 * k
     < thread_end (thread_begin warp_id (32 * q) 0) (32 * q) (32 * u))
  /\ (thread_begin warp_id (32 * q) thread_lane + 32 * k
        < thread_end (thread_begin warp_id (32 * q) thread_lane) (32 * q) (32 * u)
      -> thread_begin warp_id (32 * q) thread_lane + 32 * k < 32 * u).
Proof.
  intros Hl. split; [apply lanes_agree; exact Hl|].
  unfold thread_begin, thread_end. lia.
Qed.

Lemma warp_lanes_in_step_witness :
  thread_begin 1 (32 * 1) 17 + 32 * 0
    < thread_end (thread_begin 1 (32 * 1) 17) (32 * 1) (32 * 2)
  <-> thread_begin 1 (32 * 1) 0 + 32 * 0
    < thread_end (thread_begin 1 (32 * 1) 0) (32 * 1) (32 * 2).
Proof.
  exact (proj1 (warp_lanes_in_step 1 1 2 17 0 ltac:(lia))).
Defined.

(** ** The carries, the intervals and the order of the adds *)

(** X21: the carries that [spmv_coo_flat_kernel] stores are ready for the
    level-2 kernel.  On sorted, non-negative rows, in a launch whose index
    arithmetic fits the 32-bit [IndexType], the rows of the carries of the
    active warps are non-negative and non-decreasing in the warp number. *)
Theorem flat_kernel_carries_sorted {T} `{ValueLaws T} BLOCK_SIZE num_blocks
    UseCache x_tex I J (V x : list T) temp_rows temp_vals q u w1 w2 :
  0 < q -> 32 * u <= length I -> nondecreasing (take (32 * u) I) = true ->
  forallb (fun r => (0 <=? r)%Z) (take (32 * u) I) = true ->
  fits_IndexType BLOCK_SIZE num_blocks (32 * u) (32 * q) = true ->
  (u + q - 1) / q <= length temp_rows ->
  (u + q - 1) / q <= length temp_vals ->
  (u + q - 1) / q <= num_blocks * (BLOCK_SIZE / 32) ->
  w1 <= w2 -> w2 < (u + q - 1) / q ->
  (0 <= ldi (spmv_coo_flat_kernel BLOCK_SIZE num_blocks UseCache x_tex
               (32 * u) (32 * q) I J V x temp_rows temp_vals).2.1 w1
     <= ldi (spmv_coo_flat_kernel BLOCK_SIZE num_blocks UseCache x_tex
               (32 * u) (32 * q) I J V x temp_rows temp_vals).2.1 w2)%Z.
Proof.
  intros Hq Hl Hs Hpos _ Hlr Hlv HL H12 H2.
  destruct (spmv_coo_flat_kernel_total BLOCK_SIZE num_blocks UseCache x_tex
              I J V x temp_rows temp_vals q u ((u + q - 1) / q) Hq
              ltac:(intros i j Hij Hj; apply (sorted_prefix_le I (32 * u));
                    assumption)
              ltac:(intros w; apply active_warps_nat; exact Hq) Hlr Hlv HL)
    as (_ & _ & _ & Hrows).
  rewrite !Hrows by lia.
  pose proof (proj1 (active_warps_nat q u w1 Hq) ltac:(lia)).
  pose proof (proj1 (active_warps_nat q u w2 Hq) ltac:(lia)).
  assert (w1 * (32 * q) <= w2 * (32 * q)) by nia.
  split.
  - apply (nonneg_prefix I (32 * u)); [exact Hpos | lia | lia].
  - apply (sorted_prefix_le I (32 * u)); [exact Hl | exact Hs | lia | lia].
Qed.

Lemma flat_kernel_carries_sorted_witness :
  (0 <= ldi (spmv_coo_flat_kernel 256 1 false [] (32 * 2) (32 * 1)
               (row_indices (sample_coo 70)) (column_indices (sample_coo 70))
               (values (sample_coo 70)) sample_x [0; 0]%Z [0; 0]%Z).2.1 0
     <= ldi (spmv_coo_flat_kernel 256 1 false [] (32 * 2) (32 * 1)
               (row_indices (sample_coo 70)) (column_indices (sample_coo 70))
               (values (sample_coo 70)) sample_x [0; 0]%Z [0; 0]%Z).2.1 1)%Z.
Proof.
  exact (flat_kernel_carries_sorted 256 1 false []
    (row_indices (sample_coo 70)) (column_indices (sample_coo 70))
    (values (sample_coo 70)) sample_x [0; 0]%Z [0; 0]%Z 1 2 0 1
    ltac:(lia) ltac:(vm_compute; lia) ltac:(vm_compute; reflexivity)
    ltac:(vm_compute; reflexivity) ltac:(vm_compute; reflexivity)
    ltac:(vm_compute; lia) ltac:(vm_compute; lia) ltac:(vm_compute; lia)
    ltac:(lia) ltac:(vm_compute; lia)).
Defined.

(** X22: a warp of [spmv_coo_flat_atomic_kernel], on sorted rows, adds to a
    row of [y] at most once: the rows of its adds, the final atomic carry
    included, grow strictly. *)
Theorem atomic_warp_rows_increasing {T} `{ValueLaws T} UseCache x_tex I J
    (V x : list T) warp_id q u :
  0 < q -> 32 * u <= length I -> nondecreasing (take (32 * u) I) = true ->
  rows_increasing (atomic_warp UseCache x_tex (32 * u) (32 * q) I J V x warp_id).
Proof.
  intros Hq Hl Hsb.
  assert (Hs : forall i j, i <= j -> j < 32 * u -> (ldi I i <= ldi I j)%Z).
  { intros i j Hij Hj. apply (sorted_prefix_le I (32 * u)); assumption. }
  destruct (decide (warp_id * (32 * q) < 32 * u)) as [Hw|Hw].
  2:{ rewrite atomic_warp_idle by lia. apply rows_increasing_nil. }
  destruct (interval_iters warp_id q u Hq Hw) as (it & Hit & Hend).
  unfold atomic_warp, thread_begin, thread_end. rewrite Hend.
  rewrite bool_decide_eq_false_2 by lia.
  set (b := warp_id * (32 * q)) in *.
  pose proof (warp_loop_rows_increasing K_atomic (atomic_kind (ldi I b))
    UseCache x_tex I J V x warp_id it (b + 0 + 32 * it - (b + 0)) (b + 0)
    (b + 0 + 32 * it) (mkCarry (ldi I b) vzero) eq_refl ltac:(lia)
    ltac:(intros; apply Hs; lia)
    ltac:(cbn [carry_idx]; replace (b + 0) with b by lia; lia)) as Hinc.
  pose proof (fun e => warp_loop_events K_atomic (atomic_kind (ldi I b))
    UseCache x_tex I J V x warp_id e it (b + 0 + 32 * it - (b + 0)) (b + 0)
    (b + 0 + 32 * it) (mkCarry (ldi I b) vzero) eq_refl ltac:(lia)
    ltac:(intros; apply Hs; lia)
    ltac:(cbn [carry_idx]; replace (b + 0) with b by lia; lia)) as Hev.
  destruct (warp_loop_total K_atomic (atomic_kind (ldi I b))
    UseCache x_tex I J V x warp_id 0%Z it (b + 0 + 32 * it - (b + 0)) (b + 0)
    (b + 0 + 32 * it) (mkCarry (ldi I b) vzero) eq_refl ltac:(lia)
    ltac:(intros; apply Hs; lia)) as [_ Hci].
  destruct (warp_loop _ _ _ _ _ _ _ _ _ _ _ _ _) as [ev c].
  cbn [fst snd] in *.
  apply rows_increasing_app; [exact Hinc | apply rows_increasing_one|].
  intros e1 e2 He1 He2. apply list_elem_of_singleton in He2. subst e2.
  cbn [ev_row]. rewrite Hci by lia.
  destruct (Hev e1 He1) as (_ & _ & _ & Hr). lia.
Qed.

Lemma atomic_warp_rows_increasing_witness :
  rows_increasing (atomic_warp false [] (32 * 2) (32 * 1)
                     (row_indices (sample_coo 70)) (column_indices (sample_coo 70))
                     (values (sample_coo 70)) sample_x 1).
Proof.
  exact (atomic_warp_rows_increasing false []
    (row_indices (sample_coo 70)) (column_indices (sample_coo 70))
    (values (sample_coo 70)) sample_x 1 1 2
    ltac:(lia) ltac:(vm_compute; lia) ltac:(vm_compute; reflexivity)).
Defined.

(** X23: the intervals of the warps tile the entries before the tail.  In a
    launch whose grid covers the entries and whose index arithmetic fits the
    32-bit [IndexType], an entry [n < num_entries] of the level-1 kernels
    lies in the interval [begin, end) of warp [n / interval_size] and of no
    other warp of the grid, and that warp is in the grid and among the
    active ones. *)
Theorem warp_intervals_tile (BLOCK_SIZE num_blocks q u n w : nat) :
  0 < q -> n < 32 * u ->
  32 * u <= num_blocks * (BLOCK_SIZE / 32) * (32 * q) ->
  fits_IndexType BLOCK_SIZE num_blocks (32 * u) (32 * q) = true ->
  w < num_blocks * (BLOCK_SIZE / 32) ->
  n / (32 * q) < (u + q - 1) / q
  /\ n / (32 * q) < num_blocks * (BLOCK_SIZE / 32)
  /\ (thread_begin w (32 * q) 0 <= n
        < thread_end (thread_begin w (32 * q) 0) (32 * q) (32 * u)
      <-> w = n / (32 * q)).
Proof.
  intros Hq Hn HL _ Hw.
  pose proof (Nat.div_mod_eq n (32 * q)) as Hdm.
  pose proof (Nat.mod_upper_bound n (32 * q) ltac:(lia)) as Hm.
  set (d := n / (32 * q)) in *. split; [|split].
  - apply active_warps_nat; [exact Hq | nia].
  - set (g := num_blocks * (BLOCK_SIZE / 32)) in *. nia.
  - unfold thread_begin, thread_end. split.
    + intros [Hb He]. nia.
    + intros ->. nia.
Qed.

Lemma warp_intervals_tile_witness :
  40 / (32 * 1) < (2 + 1 - 1) / 1
  /\ 40 / (32 * 1) < 1 * (256 / 32)
  /\ (thread_begin 1 (32 * 1) 0 <= 40
        < thread_end (thread_begin 1 (32 * 1) 0) (32 * 1) (32 * 2)
      <-> 1 = 40 / (32 * 1)).
Proof.
  exact (warp_intervals_tile 256 1 1 2 40 1 ltac:(lia) ltac:(lia)
           ltac:(vm_compute; lia) ltac:(vm_compute; reflexivity)
           ltac:(vm_compute; lia)).
Defined.

Lemma ev_total_perm {T} `{ValueLaws T} r (evs evs' : list (Event T)) :
  evs ≡ₚ evs' -> ev_total r evs = ev_total r evs'.
Proof. intros Hp. unfold ev_total. apply vsum_perm, fmap_Permutation, Hp. Qed.

(** X24: over an addition that is associative and commutative, the vector
    [y] a launch leaves does not depend on the order in which its adds to
    [y] take effect: replaying the accumulations in any other order gives
    the same [y]. *)
Theorem replay_order_irrelevant {T} `{ValueLaws T} (evs evs' : list (Event T))
    (y : list T) :
  evs ≡ₚ evs' -> replay evs y = replay evs' y.
Proof.
  intros Hp. apply replay_same_total. intros r. apply ev_total_perm, Hp.
Qed.

Lemma replay_order_irrelevant_witness :
  replay [mkEvent K_flat 0 PlainAdd 1%Z 5%Z; mkEvent K_flat 1 PlainAdd 1%Z 7%Z]
    [0; 0]%Z
  = replay [mkEvent K_flat 1 PlainAdd 1%Z 7%Z; mkEvent K_flat 0 PlainAdd 1%Z 5%Z]
      [0; 0]%Z.
Proof.
  exact (replay_order_irrelevant
    [mkEvent K_flat 0 PlainAdd 1%Z 5%Z; mkEvent K_flat 1 PlainAdd 1%Z 7%Z]
    [mkEvent K_flat 1 PlainAdd 1%Z 7%Z; mkEvent K_flat 0 PlainAdd 1%Z 5%Z]
    [0; 0]%Z ltac:(apply perm_swap)).
Defined.

(** * Further properties of the drivers *)

Lemma serial_kernel_rows {T} `{ValueOps T} n I J (V x : list T) e :
  e ∈ spmv_coo_serial_kernel n I J V x ->
  exists m, m < n /\ ev_row e = ldi I m.
Proof.
  intros He. unfold spmv_coo_serial_kernel, tab in He.
  apply list_elem_of_fmap in He as (m & -> & Hm). apply elem_of_seq in Hm.
  exists m. split; [lia | reflexivity].
Qed.

Lemma spmv_coo_flat_log_rows {T} `{ValueLaws T} MAX_THREADS UseCache
    (d_coo : coo_matrix T) d_x (dev : Device) e :
  sorted_coo d_coo = true ->
  (num_entries d_coo < 2 ^ 31)%Z ->
  (512 <= MAX_THREADS < 2 ^ 30)%Z ->
  e ∈ dev_log (__spmv_coo_flat MAX_THREADS UseCache d_coo d_x dev) ->
  e ∈ dev_log dev
  \/ (0 < num_entries d_coo
      /\ ldi (row_indices d_coo) 0 <= ev_row e
         <= ldi (row_indices d_coo) (Z.to_nat (num_entries d_coo) - 1))%Z.
Proof.
  intros Hwf HN HMT.
  destruct (sorted_coo_spec d_coo Hwf) as (HlI & HlJ & HlV & Hpos & Hsort).
  unfold __spmv_coo_flat.
  case_bool_decide as Hzero; [auto|].
  case_bool_decide as H32.
  { cbn [launch dev_log]. intros He. apply elem_of_app in He as [He|He]; [auto|].
    right. apply serial_kernel_rows in He as (m & Hm & ->).
    pose proof (Hsort 0 m ltac:(lia) ltac:(lia)).
    pose proof (Hsort m (Z.to_nat (num_entries d_coo) - 1) ltac:(lia) ltac:(lia)).
    lia. }
  unfold WARP_SIZE in H32.
  assert (Hrange : (32 <= num_entries d_coo < 2 ^ 31)%Z) by lia.
  change (2 ^ 30)%Z with 1073741824%Z in HMT.
  assert (HMB : (u32 MAX_THREADS / u32 (2 * 256) = MAX_THREADS / 512)%Z).
  { rewrite !u32_small by (change (2 ^ 32)%Z with 4294967296%Z; lia).
    reflexivity. }
  rewrite HMB.
  assert (HU : (1 <= 256 / 32 * (MAX_THREADS / 512) < 2 ^ 31)%Z).
  { change (256 / 32)%Z with 8%Z. change (2 ^ 31)%Z with 2147483648%Z.
    pose proof (Z.div_le_lower_bound MAX_THREADS 512 1 ltac:(lia) ltac:(lia)).
    pose proof (Z.div_le_upper_bound MAX_THREADS 512 2097152 ltac:(lia) ltac:(lia)).
    lia. }
  destruct (plan_geometry 256 (MAX_THREADS / 512) (num_entries d_coo)
              Hrange ltac:(lia) HU)
    as (u & q & Hq & Hqu & Htl & His & HtlZ & HisZ & HuN & Hrest & HL & Hu26).
  set (p := launch_plan 256 (MAX_THREADS / 512) (num_entries d_coo)) in *.
  rewrite (bool_decide_eq_false_2 (interval_size p = 0)%Z) by lia.
  destruct (active_warps_spec (Z.of_nat u) (Z.of_nat q) ltac:(lia) Hu26)
    as [HA0 HA].
  set (A := DIVIDE_INTO (u32 (Z.of_nat u * 32)) (32 * Z.of_nat q)) in *.
  change host_method with false. cbv iota.
  replace (DIVIDE_INTO (u32 (tail p)) (interval_size p)) with A
    by (unfold A; rewrite <- HtlZ, <- HisZ; reflexivity).
  rewrite Htl, His, Hrest.
  change (Z.to_nat (256 / 32)) with 8 in HL.
  assert (HA' : forall w, w < Z.to_nat A <-> w * (32 * q) < 32 * u).
  { intros w. specialize (HA (Z.of_nat w) ltac:(lia)). split; intros Hw.
    - apply Nat2Z.inj_lt. rewrite !Nat2Z.inj_mul. simpl Z.of_nat. lia.
    - apply Nat2Z.inj_lt in Hw. rewrite !Nat2Z.inj_mul in Hw.
      simpl Z.of_nat in Hw. lia. }
  assert (HAL : Z.to_nat A <= Z.to_nat (num_blocks p) * (256 / 32)).
  { change (256 / 32) with 8.
    destruct (decide (Z.to_nat A <= Z.to_nat (num_blocks p) * 8)); [assumption|].
    assert (Z.to_nat (num_blocks p) * 8 < Z.to_nat A) as Hlt by lia.
    apply HA' in Hlt. lia. }
  assert (Hs32 : forall i j, i <= j -> j < 32 * u ->
            (ldi (row_indices d_coo) i <= ldi (row_indices d_coo) j)%Z).
  { intros i j Hij Hj. apply Hsort; lia. }
  destruct (spmv_coo_flat_kernel_total 256 (Z.to_nat (num_blocks p)) UseCache
              (if UseCache then bind_x d_x else [])
              (row_indices d_coo) (column_indices d_coo) (values d_coo) d_x
              (new_device_array 0%Z (Z.to_nat A))
              (new_device_array vzero (Z.to_nat A)) q u (Z.to_nat A)
              Hq Hs32 HA'
              ltac:(unfold new_device_array; rewrite length_replicate; lia)
              ltac:(unfold new_device_array; rewrite length_replicate; lia)
              HAL)
    as (_ & _ & _ & Hrows).
  pose proof (fun e => spmv_coo_flat_kernel_events 256 (Z.to_nat (num_blocks p))
                UseCache (if UseCache then bind_x d_x else []) (32 * u) (32 * q)
                (row_indices d_coo) (column_indices d_coo) (values d_coo) d_x
                (new_device_array 0%Z (Z.to_nat A))
                (new_device_array vzero (Z.to_nat A)) e) as Hk1.
  set (k1 := spmv_coo_flat_kernel _ _ _ _ _ _ _ _ _ _ _ _) in *.
  cbn [launch dev_log]. intros He.
  assert (Hlast : forall m, m < Z.to_nat (num_entries d_coo) ->
    (ldi (row_indices d_coo) 0 <= ldi (row_indices d_coo) m
     <= ldi (row_indices d_coo) (Z.to_nat (num_entries d_coo) - 1))%Z).
  { intros m Hm. split; apply Hsort; lia. }
  apply elem_of_app in He as [He|He].
  - apply elem_of_app in He as [He|He].
    + apply elem_of_app in He as [He|He]; [auto|]. right.
      destruct (Hk1 e He) as (w & ev & c & Hfw & Hin).
      destruct (flat_warp_events _ _ _ _ _ _ _ _ _ _ _ _ Hq Hs32 Hfw Hin)
        as (Hw & _ & Hr).
      pose proof (Hlast (w * (32 * q)) ltac:(lia)).
      pose proof (Hlast (Nat.min (w * (32 * q) + 32 * q) (32 * u) - 1) ltac:(lia)).
      lia.
    + right. apply serial_kernel_rows in He as (m & Hm & ->).
      rewrite ldi_drop. split; [lia|]. apply Hlast. lia.
  - right. apply spmv_coo_reduce_update_kernel_events in He as (_ & _ & Hu & ->).
    rewrite Hrows by exact Hu. apply HA' in Hu.
    split; [lia|]. apply Hlast. lia.
Qed.

Lemma spmv_coo_flat_atomic_log_rows {T} `{ValueLaws T} MAX_THREADS UseCache
    (d_coo : coo_matrix T) d_x (dev : Device) e :
  sorted_coo d_coo = true ->
  (num_entries d_coo < 2 ^ 31)%Z ->
  (512 <= MAX_THREADS < 2 ^ 30)%Z ->
  e ∈ dev_log (__spmv_coo_flat_atomic MAX_THREADS UseCache d_coo d_x dev) ->
  e ∈ dev_log dev
  \/ (0 < num_entries d_coo
      /\ ldi (row_indices d_coo) 0 <= ev_row e
         <= ldi (row_indices d_coo) (Z.to_nat (num_entries d_coo) - 1))%Z.
Proof.
  intros Hwf HN HMT.
  destruct (sorted_coo_spec d_coo Hwf) as (HlI & HlJ & HlV & Hpos & Hsort).
  unfold __spmv_coo_flat_atomic.
  case_bool_decide as Hzero; [auto|].
  case_bool_decide as H32.
  { cbn [launch dev_log]. intros He. apply elem_of_app in He as [He|He]; [auto|].
    right. apply serial_kernel_rows in He as (m & Hm & ->).
    pose proof (Hsort 0 m ltac:(lia) ltac:(lia)).
    pose proof (Hsort m (Z.to_nat (num_entries d_coo) - 1) ltac:(lia) ltac:(lia)).
    lia. }
  unfold WARP_SIZE in H32.
  assert (Hrange : (32 <= num_entries d_coo < 2 ^ 31)%Z) by lia.
  change (2 ^ 30)%Z with 1073741824%Z in HMT.
  assert (HMB : (u32 (4 * MAX_THREADS) / 128 = 4 * MAX_THREADS / 128)%Z).
  { rewrite !u32_small by (change (2 ^ 32)%Z with 4294967296%Z; lia).
    reflexivity. }
  rewrite HMB.
  assert (HU : (1 <= 128 / 32 * (4 * MAX_THREADS / 128) < 2 ^ 31)%Z).
  { change (128 / 32)%Z with 4%Z. change (2 ^ 31)%Z with 2147483648%Z.
    pose proof (Z.div_le_lower_bound (4 * MAX_THREADS) 128 1 ltac:(lia) ltac:(lia)).
    pose proof (Z.div_le_upper_bound (4 * MAX_THREADS) 128 33554432
                  ltac:(lia) ltac:(lia)).
    lia. }
  destruct (plan_geometry 128 (4 * MAX_THREADS / 128) (num_entries d_coo)
              Hrange ltac:(lia) HU)
    as (u & q & Hq & Hqu & Htl & His & HtlZ & HisZ & HuN & Hrest & HL & Hu26).
  set (p := launch_plan 128 (4 * MAX_THREADS / 128) (num_entries d_coo)) in *.
  rewrite Htl, His, Hrest.
  assert (Hs32 : forall i j, i <= j -> j < 32 * u ->
            (ldi (row_indices d_coo) i <= ldi (row_indices d_coo) j)%Z).
  { intros i j Hij Hj. apply Hsort; lia. }
  assert (Hlast : forall m, m < Z.to_nat (num_entries d_coo) ->
    (ldi (row_indices d_coo) 0 <= ldi (row_indices d_coo) m
     <= ldi (row_indices d_coo) (Z.to_nat (num_entries d_coo) - 1))%Z).
  { intros m Hm. split; apply Hsort; lia. }
  cbn [launch dev_log]. intros He.
  apply elem_of_app in He as [He|He].
  - apply elem_of_app in He as [He|He]; [auto|]. right.
    unfold spmv_coo_flat_atomic_kernel in He.
    apply elem_of_mjoin_tab in He as (w & _ & He).
    destruct (atomic_warp_events _ _ _ _ _ _ _ _ _ _ Hq Hs32 He)
      as (Hw & _ & _ & [[_ Hr]|[_ Hr]]).
    + pose proof (Hlast (w * (32 * q)) ltac:(lia)).
      pose proof (Hlast (Nat.min (w * (32 * q) + 32 * q) (32 * u) - 1) ltac:(lia)).
      lia.
    + rewrite Hr. split; [lia|]. apply Hlast. lia.
  - right. apply serial_kernel_rows in He as (m & Hm & ->).
    rewrite ldi_drop. split; [lia|]. apply Hlast. lia.
Qed.

(** X9: the drivers write inside [y].  On a sorted matrix of fewer than
    [2^30] entries, where no index of a kernel leaves the 32-bit
    [IndexType], whose row indices are below [num_rows], every accumulation
    made by a run of
    [__spmv_coo_flat] or of [__spmv_coo_flat_atomic], by whichever kernel,
    goes to a row between the first and the last row index of the matrix,
    hence to a row in [0, num_rows). *)
Theorem spmv_writes_in_range {T} `{ValueLaws T} (MAX_THREADS : Z)
    (UseCache : bool) (d_coo : coo_matrix T) (d_x y : list T) (e : Event T) :
  sorted_coo d_coo = true ->
  forallb (fun r => (r <? num_rows d_coo)%Z) (row_indices d_coo) = true ->
  (num_entries d_coo < 2 ^ 30)%Z ->
  (512 <= MAX_THREADS < 2 ^ 30)%Z ->
  e ∈ dev_log (__spmv_coo_flat MAX_THREADS UseCache d_coo d_x (mkDevice y []))
  \/ e ∈ dev_log (__spmv_coo_flat_atomic MAX_THREADS UseCache d_coo d_x
                    (mkDevice y [])) ->
  (ldi (row_indices d_coo) 0 <= ev_row e
   <= ldi (row_indices d_coo) (Z.to_nat (num_entries d_coo) - 1))%Z
  /\ (0 <= ev_row e < num_rows d_coo)%Z.
Proof.
  intros Hwf Hrows HN HMT He. apply below_2_30 in HN.
  assert (Hr : (0 < num_entries d_coo
      /\ ldi (row_indices d_coo) 0 <= ev_row e
         <= ldi (row_indices d_coo) (Z.to_nat (num_entries d_coo) - 1))%Z).
  { destruct He as [He|He].
    - apply spmv_coo_flat_log_rows in He as [He|He]; try assumption.
      cbn in He. apply elem_of_nil in He. destruct He.
    - apply spmv_coo_flat_atomic_log_rows in He as [He|He]; try assumption.
      cbn in He. apply elem_of_nil in He. destruct He. }
  destruct Hr as (Hpos & Hr). split; [exact Hr|].
  destruct (sorted_coo_spec d_coo Hwf) as (HlI & _ & _ & Hnn & _).
  pose proof (Hnn 0 ltac:(lia)).
  destruct (lookup_lt_is_Some_2 (row_indices d_coo)
              (Z.to_nat (num_entries d_coo) - 1) ltac:(lia)) as [a Ha].
  rewrite forallb_forall in Hrows.
  assert (Hlt : (a <? num_rows d_coo)%Z = true).
  { apply Hrows, list_elem_of_In. eapply list_elem_of_lookup_2. exact Ha. }
  apply Z.ltb_lt in Hlt.
  assert (Hlast : ldi (row_indices d_coo) (Z.to_nat (num_entries d_coo) - 1) = a).
  { unfold ldi. rewrite Ha. reflexivity. }
  lia.
Qed.

Lemma spmv_writes_in_range_witness :
  (0 <= ev_row (mkEvent K_flat 1 PlainAdd 2%Z 446%Z) < num_rows (sample_coo 70))%Z.
Proof.
  exact (proj2 (spmv_writes_in_range 30720 false (sample_coo 70) sample_x
    (replicate 10 0%Z) (mkEvent K_flat 1 PlainAdd 2%Z 446%Z)
    ltac:(vm_compute; reflexivity) ltac:(vm_compute; reflexivity)
    ltac:(vm_compute; reflexivity) ltac:(lia)
    ltac:(left; apply (list_elem_of_lookup_2 _ 2); vm_compute; reflexivity))).
Defined.

(** ** The accumulations do not depend on the values *)

Section RelationalAtomic.
Context {T1 T2 : Type} {O1 : ValueOps T1} {O2 : ValueOps T2}.
Variable R : T1 -> T2 -> Prop.
Hypothesis Rz : R vzero vzero.
Hypothesis Radd : forall a b c d, R a b -> R c d -> R (vadd a c) (vadd b d).

Lemma atomic_warp_rel uc1 xt1 uc2 xt2 I J1 J2 (V1 x1 : list T1) (V2 x2 : list T2)
    warp_id q u :
  0 < q ->
  (forall m, m < 32 * u ->
     R (entry_term uc1 xt1 J1 V1 x1 m) (entry_term uc2 xt2 J2 V2 x2 m)) ->
  Forall2 (ev_rel R)
    (atomic_warp uc1 xt1 (32 * u) (32 * q) I J1 V1 x1 warp_id)
    (atomic_warp uc2 xt2 (32 * u) (32 * q) I J2 V2 x2 warp_id).
Proof.
  intros Hq Hterm. unfold atomic_warp, thread_begin, thread_end.
  destruct (decide (warp_id * (32 * q) < 32 * u)) as [Hw|Hw].
  - destruct (interval_iters warp_id q u Hq Hw) as (it & Hit & Hend).
    rewrite Hend. rewrite !bool_decide_eq_false_2 by lia.
    destruct (warp_loop_rel R Rz Radd K_atomic
                (atomic_kind (ldi I (warp_id * (32 * q))))
                uc1 xt1 uc2 xt2 I J1 J2
                V1 x1 V2 x2 warp_id (warp_id * (32 * q) + 0 + 32 * it)
                (warp_id * (32 * q) + 0 + 32 * it - (warp_id * (32 * q) + 0))
                it (warp_id * (32 * q) + 0)
                (mkCarry (ldi I (warp_id * (32 * q))) vzero)
                (mkCarry (ldi I (warp_id * (32 * q))) vzero)
                eq_refl ltac:(intros m Hm1 Hm2; apply Hterm; lia) eq_refl Rz)
      as (He & Hi & Hv).
    destruct (warp_loop _ _ _ uc1 _ _ _ _ _ _ _ _ _) as [e1 c1].
    destruct (warp_loop _ _ _ uc2 _ _ _ _ _ _ _ _ _) as [e2 c2].
    cbn [fst snd] in *. apply Forall2_app; [exact He|].
    constructor; [|constructor].
    unfold ev_rel. cbn [ev_kernel ev_unit ev_kind ev_row ev_val].
    repeat split; assumption.
  - rewrite !bool_decide_eq_true_2 by lia. constructor.
Qed.

Lemma spmv_coo_flat_atomic_rel MAX_THREADS uc1 uc2 (A1 : coo_matrix T1)
    (A2 : coo_matrix T2) x1 x2 (dev1 : @Device T1) (dev2 : @Device T2) :
  num_entries A2 = num_entries A1 ->
  row_indices A2 = row_indices A1 ->
  (0 <= num_entries A1 < 2 ^ 31)%Z ->
  (512 <= MAX_THREADS < 2 ^ 30)%Z ->
  (forall m, m < Z.to_nat (num_entries A1) ->
     R (vmul (ld (values A1) m) (ldz x1 (ldi (column_indices A1) m)))
       (vmul (ld (values A2) m) (ldz x2 (ldi (column_indices A2) m)))) ->
  Forall2 (ev_rel R) (dev_log dev1) (dev_log dev2) ->
  Forall2 (ev_rel R)
    (dev_log (__spmv_coo_flat_atomic MAX_THREADS uc1 A1 x1 dev1))
    (dev_log (__spmv_coo_flat_atomic MAX_THREADS uc2 A2 x2 dev2)).
Proof.
  intros HN HI HNr HMT Hterm Hlog.
  unfold __spmv_coo_flat_atomic. rewrite HN, HI.
  destruct (bool_decide (num_entries A1 = 0)%Z); [exact Hlog|].
  destruct (bool_decide (num_entries A1 < WARP_SIZE)%Z) eqn:H32.
  { cbn [launch dev_log]. apply Forall2_app; [exact Hlog|].
    apply (spmv_coo_serial_kernel_rel R). exact Hterm. }
  apply bool_decide_eq_false in H32. unfold WARP_SIZE in H32.
  assert (Hrange : (32 <= num_entries A1 < 2 ^ 31)%Z) by lia.
  change (2 ^ 30)%Z with 1073741824%Z in HMT.
  assert (HMB : (u32 (4 * MAX_THREADS) / 128 = 4 * MAX_THREADS / 128)%Z).
  { rewrite !u32_small by (change (2 ^ 32)%Z with 4294967296%Z; lia).
    reflexivity. }
  rewrite HMB.
  assert (HU : (1 <= 128 / 32 * (4 * MAX_THREADS / 128) < 2 ^ 31)%Z).
  { change (128 / 32)%Z with 4%Z. change (2 ^ 31)%Z with 2147483648%Z.
    pose proof (Z.div_le_lower_bound (4 * MAX_THREADS) 128 1 ltac:(lia) ltac:(lia)).
    pose proof (Z.div_le_upper_bound (4 * MAX_THREADS) 128 33554432
                  ltac:(lia) ltac:(lia)).
    lia. }
  destruct (plan_geometry 128 (4 * MAX_THREADS / 128) (num_entries A1)
              Hrange ltac:(lia) HU)
    as (u & q & Hq & Hqu & Htl & His & HtlZ & HisZ & HuN & Hrest & HL & Hu26).
  set (p := launch_plan 128 (4 * MAX_THREADS / 128) (num_entries A1)) in *.
  rewrite Htl, His, Hrest.
  assert (Hterm' : forall m, m < 32 * u ->
    R (entry_term uc1 (if uc1 then bind_x x1 else []) (column_indices A1)
         (values A1) x1 m)
      (entry_term uc2 (if uc2 then bind_x x2 else []) (column_indices A2)
         (values A2) x2 m)).
  { intros m Hm. unfold entry_term, fetch_x, bind_x.
    destruct uc1, uc2; apply Hterm; lia. }
  cbn [launch dev_log]. repeat apply Forall2_app.
  - exact Hlog.
  - unfold spmv_coo_flat_atomic_kernel. apply Forall2_mjoin_tab.
    intros w _. apply atomic_warp_rel; assumption.
  - apply (spmv_coo_serial_kernel_rel R). intros m Hm.
    rewrite !ld_drop, !ldi_drop. apply Hterm. lia.
Qed.

End RelationalAtomic.

(** X10: which accumulations a driver makes, in which order, by which
    kernel and thread, of which kind and into which row, depends on the
    number of entries and on the row indices alone, for fewer than [2^30]
    entries, where no index of a kernel leaves the 32-bit [IndexType] and
    every carry cell read has been written.  Two runs of
    [__spmv_coo_flat], or of [__spmv_coo_flat_atomic], on matrices with the
    same row indices agree in all this whatever the values, the column
    indices, the vectors [x] and [y], the value types and the cache flags
    are: no kernel branches on a value. *)
Theorem log_shape_independent {T1 T2} `{ValueOps T1} `{ValueOps T2}
    (MAX_THREADS : Z) (uc1 uc2 : bool) (A1 : coo_matrix T1) (A2 : coo_matrix T2)
    (x1 y1 : list T1) (x2 y2 : list T2) :
  num_entries A2 = num_entries A1 ->
  row_indices A2 = row_indices A1 ->
  (0 <= num_entries A1 < 2 ^ 30)%Z ->
  (512 <= MAX_THREADS < 2 ^ 30)%Z ->
  Forall2 (ev_rel (fun _ _ => True))
    (dev_log (__spmv_coo_flat MAX_THREADS uc1 A1 x1 (mkDevice y1 [])))
    (dev_log (__spmv_coo_flat MAX_THREADS uc2 A2 x2 (mkDevice y2 [])))
  /\ Forall2 (ev_rel (fun _ _ => True))
       (dev_log (__spmv_coo_flat_atomic MAX_THREADS uc1 A1 x1 (mkDevice y1 [])))
       (dev_log (__spmv_coo_flat_atomic MAX_THREADS uc2 A2 x2 (mkDevice y2 []))).
Proof.
  intros HN HI [HN0 HN30] HMT. apply below_2_30 in HN30.
  assert (HNr : (0 <= num_entries A1 < 2 ^ 31)%Z) by (split; assumption).
  split.
  - apply (spmv_coo_flat_rel (fun _ _ => True)); auto; constructor.
  - apply (spmv_coo_flat_atomic_rel (fun _ _ => True)); auto; constructor.
Qed.

Lemma log_shape_independent_witness :
  Forall2 (ev_rel (fun _ _ => True))
    (dev_log (__spmv_coo_flat 30720 false (sample_coo 70) sample_x
                (mkDevice (replicate 10 0%Z) [])))
    (dev_log (__spmv_coo_flat 30720 true (tagged (sample_coo 70)) []
                (mkDevice [] []))).
Proof.
  exact (proj1 (log_shape_independent 30720 false true (sample_coo 70)
    (tagged (sample_coo 70)) sample_x (replicate 10 0%Z) [] []
    ltac:(reflexivity) ltac:(reflexivity) ltac:(split; [vm_compute; discriminate | vm_compute; reflexivity])
    ltac:(lia))).
Defined.

(** * Further properties of the launch planner *)

Lemma launch_plan_blocks BLOCK_SIZE MAX_BLOCKS n_entries :
  (32 <= n_entries < 2 ^ 31)%Z ->
  (32 <= BLOCK_SIZE <= 1024)%Z ->
  (1 <= BLOCK_SIZE / 32 * MAX_BLOCKS < 2 ^ 31)%Z ->
  let p := launch_plan BLOCK_SIZE MAX_BLOCKS n_entries in
  (1 <= BLOCK_SIZE / 32 <= 32
   /\ num_warps p <= num_blocks p * (BLOCK_SIZE / 32)
        < num_warps p + BLOCK_SIZE / 32)%Z.
Proof.
  intros HN HB HU p.
  destruct (launch_plan_spec BLOCK_SIZE MAX_BLOCKS n_entries HN HB HU)
    as (Hu & Hnw & _ & _ & _ & _ & _ & Hu1 & Hw1 & _).
  fold p in Hu, Hnw, Hu1, Hw1.
  assert (HW : (1 <= BLOCK_SIZE / 32 <= 32)%Z).
  { split; [apply Z.div_le_lower_bound; lia | apply Z.div_le_upper_bound; lia]. }
  split; [exact HW|].
  assert (Hnb : num_blocks p = DIVIDE_INTO (num_warps p) (BLOCK_SIZE / 32)).
  { reflexivity. }
  rewrite Hnb.
  change (2 ^ 31)%Z with 2147483648%Z in *.
  destruct (DIVIDE_INTO_spec (num_warps p) (BLOCK_SIZE / 32) ltac:(lia) ltac:(lia)
              ltac:(change (2 ^ 32)%Z with 4294967296%Z; lia)) as [_ Hb].
  exact Hb.
Qed.

(** X11: the grid the planner asks for.  For at least 32 entries the number
    of blocks is at least one and at most [MAX_BLOCKS], the number of warps
    at most [WARPS_PER_BLOCK * MAX_BLOCKS], and the blocks hold the
    [num_warps] warps with less than one block to spare. *)
Theorem launch_plan_grid (BLOCK_SIZE MAX_BLOCKS n_entries : Z) :
  (32 <= n_entries < 2 ^ 31)%Z ->
  (32 <= BLOCK_SIZE <= 1024)%Z ->
  (1 <= BLOCK_SIZE / 32 * MAX_BLOCKS < 2 ^ 31)%Z ->
  let p := launch_plan BLOCK_SIZE MAX_BLOCKS n_entries in
  (1 <= num_blocks p <= MAX_BLOCKS
   /\ 1 <= num_warps p <= BLOCK_SIZE / 32 * MAX_BLOCKS
   /\ num_warps p <= num_blocks p * (BLOCK_SIZE / 32)
        < num_warps p + BLOCK_SIZE / 32)%Z.
Proof.
  intros HN HB HU p.
  destruct (launch_plan_spec BLOCK_SIZE MAX_BLOCKS n_entries HN HB HU)
    as (Hu & Hnw & _ & _ & _ & _ & _ & Hu1 & Hw1 & _).
  destruct (launch_plan_blocks BLOCK_SIZE MAX_BLOCKS n_entries HN HB HU)
    as (HW & Hb).
  fold p in Hu, Hnw, Hu1, Hw1, Hb.
  split; [|split; [lia | exact Hb]]. nia.
Qed.

Lemma launch_plan_grid_witness :
  (1 <= num_blocks (launch_plan 256 60 100000) <= 60)%Z.
Proof.
  exact (proj1 (launch_plan_grid 256 60 100000 ltac:(lia) ltac:(lia)
                  ltac:(vm_compute; split; [discriminate | reflexivity]))).
Defined.

(** X12: the index arithmetic of the level-1 kernels stays inside a signed
    32-bit [IndexType].  For fewer than [2^30] entries and every thread of
    the grid the planner asks for, the largest value the kernels compute
    before the early return, [begin + interval_size], is below [2^31]. *)
Theorem kernel_index_bounds (BLOCK_SIZE MAX_BLOCKS n_entries : Z)
    (warp_id thread_lane : nat) :
  (32 <= n_entries < 2 ^ 30)%Z ->
  (32 <= BLOCK_SIZE <= 1024)%Z ->
  (1 <= BLOCK_SIZE / 32 * MAX_BLOCKS < 2 ^ 31)%Z ->
  let p := launch_plan BLOCK_SIZE MAX_BLOCKS n_entries in
  (Z.of_nat warp_id < num_blocks p * (BLOCK_SIZE / 32))%Z ->
  thread_lane < 32 ->
  (Z.of_nat (thread_begin warp_id (Z.to_nat (interval_size p)) thread_lane
             + Z.to_nat (interval_size p)) < 2 ^ 31)%Z.
Proof.
  intros HN HB HU p Hw Hl.
  change (2 ^ 30)%Z with 1073741824%Z in HN.
  assert (HN' : (32 <= n_entries < 2 ^ 31)%Z)
    by (change (2 ^ 31)%Z with 2147483648%Z; lia).
  destruct (launch_plan_spec BLOCK_SIZE MAX_BLOCKS n_entries HN' HB HU)
    as (Hu & Hnw & _ & Hqw & His & Htl & Htn & Hu1 & Hw1 & Hq1 & Hqu & _ & _).
  destruct (launch_plan_blocks BLOCK_SIZE MAX_BLOCKS n_entries HN' HB HU)
    as (HW & Hb).
  fold p in Hu, Hnw, Hqw, His, Htl, Htn, Hu1, Hw1, Hq1, Hqu, Hb.
  unfold thread_begin.
  rewrite !Nat2Z.inj_add, Nat2Z.inj_mul, !Z2Nat.id by lia.
  rewrite His. change (2 ^ 31)%Z with 2147483648%Z in *.
  set (u := num_units p) in *. set (nw := num_warps p) in *.
  set (q := num_iters p) in *. set (nb := num_blocks p) in *.
  set (U := (BLOCK_SIZE / 32 * MAX_BLOCKS)%Z) in *.
  set (W := (BLOCK_SIZE / 32)%Z) in *.
  assert (Hq : (Z.of_nat warp_id * q + q <= nb * W * q)%Z) by nia.
  assert (Hbound : (nb * W * q <= u + 31 \/ nb * W * q <= 2 * u - 1)%Z).
  { destruct (Z.min_spec u U) as [[Hlt Hmin]|[Hge Hmin]]; rewrite Hmin in Hnw.
    - left. assert (q = 1)%Z by nia. nia.
    - right. assert (nb * W = nw)%Z.
      { assert (nb = MAX_BLOCKS) by (unfold U in *; nia). subst nb. lia. }
      nia. }
  replace (Z.of_nat warp_id * (32 * q))%Z with (32 * (Z.of_nat warp_id * q))%Z
    by ring.
  clear -Hq Hbound Htl Htn HN Hl. lia.
Qed.

Lemma kernel_index_bounds_witness :
  (Z.of_nat (thread_begin 479 (Z.to_nat (interval_size (launch_plan 256 60 100000))) 31
             + Z.to_nat (interval_size (launch_plan 256 60 100000))) < 2 ^ 31)%Z.
Proof.
  exact (kernel_index_bounds 256 60 100000 479 31 ltac:(lia) ltac:(lia)
           ltac:(vm_compute; split; [discriminate | reflexivity])
           ltac:(vm_compute; reflexivity) ltac:(lia)).
Defined.

(** ** The range of the index arithmetic *)

Lemma plan_index_bound BLOCK_SIZE MAX_BLOCKS n_entries :
  (32 <= n_entries < 2 ^ 30)%Z ->
  (32 <= BLOCK_SIZE <= 1024)%Z ->
  (1 <= BLOCK_SIZE / 32 * MAX_BLOCKS < 2 ^ 31)%Z ->
  let p := launch_plan BLOCK_SIZE MAX_BLOCKS n_entries in
  (0 <= tail p < 2 ^ 30
   /\ 32 <= interval_size p
   /\ 1 <= num_blocks p * (BLOCK_SIZE / 32)
   /\ num_blocks p * (BLOCK_SIZE / 32) * 32 < 2 ^ 31
   /\ num_blocks p * (BLOCK_SIZE / 32) * interval_size p + 31 < 2 ^ 31)%Z.
Proof.
  intros HN HB HU p.
  assert (HN' : (32 <= n_entries < 2 ^ 31)%Z)
    by (split; [lia | apply below_2_30; lia]).
  change (2 ^ 30)%Z with 1073741824%Z in *.
  destruct (launch_plan_spec BLOCK_SIZE MAX_BLOCKS n_entries HN' HB HU)
    as (Hu & Hnw & _ & Hqw & His & Htl & Htn & Hu1 & Hw1 & Hq1 & Hqu & _ & _).
  destruct (launch_plan_blocks BLOCK_SIZE MAX_BLOCKS n_entries HN' HB HU)
    as (HW & Hb).
  fold p in Hu, Hnw, Hqw, His, Htl, Htn, Hu1, Hw1, Hq1, Hqu, Hb.
  rewrite His. change (2 ^ 31)%Z with 2147483648%Z in *.
  set (u := num_units p) in *. set (nw := num_warps p) in *.
  set (q := num_iters p) in *. set (nb := num_blocks p) in *.
  set (U := (BLOCK_SIZE / 32 * MAX_BLOCKS)%Z) in *.
  set (W := (BLOCK_SIZE / 32)%Z) in *.
  assert (Hbound : (nb * W * q <= u + 31 \/ nb * W * q <= 2 * u - 1)%Z).
  { destruct (Z.min_spec u U) as [[Hlt Hmin]|[Hge Hmin]]; rewrite Hmin in Hnw.
    - left. assert (q = 1)%Z by nia. nia.
    - right. assert (nb * W = nw)%Z.
      { assert (nb = MAX_BLOCKS) by (unfold U in *; nia). subst nb. lia. }
      nia. }
  replace (nb * W * (32 * q))%Z with (32 * (nb * W * q))%Z by ring.
  clear -Hbound Htl Htn HN Hb Hw1 Hq1 Hnw Hu1. lia.
Qed.

Lemma fits_IndexType_plan BLOCK_SIZE n_blocks n_tail n_interval :
  (0 <= n_tail < 2 ^ 30)%Z -> (32 <= n_interval)%Z ->
  (1 <= n_blocks * (Z.of_nat BLOCK_SIZE / 32))%Z ->
  (n_blocks * (Z.of_nat BLOCK_SIZE / 32) * 32 < 2 ^ 31)%Z ->
  (n_blocks * (Z.of_nat BLOCK_SIZE / 32) * n_interval + 31 < 2 ^ 31)%Z ->
  BLOCK_SIZE = 32 * (BLOCK_SIZE / 32) ->
  fits_IndexType BLOCK_SIZE (Z.to_nat n_blocks) (Z.to_nat n_tail)
    (Z.to_nat n_interval) = true.
Proof.
  intros Ht Hi Hg Hg32 Hmax HB.
  assert (HW : (Z.of_nat BLOCK_SIZE / 32)%Z = Z.of_nat (BLOCK_SIZE / 32)).
  { rewrite (Nat2Z.inj_div BLOCK_SIZE 32). reflexivity. }
  rewrite HW in *. set (W := BLOCK_SIZE / 32) in *.
  assert (Hnb : (0 <= n_blocks)%Z) by nia.
  unfold fits_IndexType, thread_begin. fold W.
  change (2 ^ 30)%Z with 1073741824%Z in *.
  change (2 ^ 31)%Z with 2147483648%Z in *.
  rewrite !andb_true_iff, !Z.ltb_lt. split; [split|].
  - lia.
  - rewrite HB. fold W. rewrite !Nat2Z.inj_mul, Z2Nat.id by lia.
    change (Z.of_nat 32) with 32%Z. lia.
  - assert (Hone : 1 <= Z.to_nat n_blocks * W).
    { apply Nat2Z.inj_le. rewrite Nat2Z.inj_mul, Z2Nat.id by lia. exact Hg. }
    rewrite !Nat2Z.inj_add, Nat2Z.inj_mul, Nat2Z.inj_sub by exact Hone.
    rewrite Nat2Z.inj_mul, !Z2Nat.id by lia.
    change (Z.of_nat 31) with 31%Z. change (Z.of_nat 1) with 1%Z. lia.
Qed.

(** X26: the launches the two drivers make stay inside the signed 32-bit
    [IndexType].  For at least 32 and fewer than [2^30] entries, the entry
    count passed to the level-1 kernel, every thread number of the grid and
    [begin + interval_size] of every thread of the grid are below [2^31],
    in [__spmv_coo_flat] and in [__spmv_coo_flat_atomic]. *)
Theorem driver_launch_fits (MAX_THREADS n_entries : Z) :
  (32 <= n_entries < 2 ^ 30)%Z ->
  (512 <= MAX_THREADS < 2 ^ 30)%Z ->
  let p := launch_plan 256 (u32 MAX_THREADS / u32 (2 * 256)) n_entries in
  let pa := launch_plan 128 (u32 (4 * MAX_THREADS) / 128) n_entries in
  fits_IndexType 256 (Z.to_nat (num_blocks p)) (Z.to_nat (tail p))
    (Z.to_nat (interval_size p)) = true
  /\ fits_IndexType 128 (Z.to_nat (num_blocks pa)) (Z.to_nat (tail pa))
       (Z.to_nat (interval_size pa)) = true.
Proof.
  intros HN HMT.
  assert (HMT' : (512 <= MAX_THREADS < 1073741824)%Z) by exact HMT.
  assert (HMB : (u32 MAX_THREADS / u32 (2 * 256) = MAX_THREADS / 512)%Z).
  { rewrite !u32_small by (change (2 ^ 32)%Z with 4294967296%Z; lia).
    reflexivity. }
  assert (HMBa : (u32 (4 * MAX_THREADS) / 128 = 4 * MAX_THREADS / 128)%Z).
  { rewrite !u32_small by (change (2 ^ 32)%Z with 4294967296%Z; lia).
    reflexivity. }
  rewrite HMB, HMBa.
  assert (HU : (1 <= 256 / 32 * (MAX_THREADS / 512) < 2 ^ 31)%Z).
  { change (256 / 32)%Z with 8%Z. change (2 ^ 31)%Z with 2147483648%Z.
    pose proof (Z.div_le_lower_bound MAX_THREADS 512 1 ltac:(lia) ltac:(lia)).
    pose proof (Z.div_le_upper_bound MAX_THREADS 512 2097152 ltac:(lia) ltac:(lia)).
    lia. }
  assert (HUa : (1 <= 128 / 32 * (4 * MAX_THREADS / 128) < 2 ^ 31)%Z).
  { change (128 / 32)%Z with 4%Z. change (2 ^ 31)%Z with 2147483648%Z.
    pose proof (Z.div_le_lower_bound (4 * MAX_THREADS) 128 1 ltac:(lia) ltac:(lia)).
    pose proof (Z.div_le_upper_bound (4 * MAX_THREADS) 128 33554432
                  ltac:(lia) ltac:(lia)).
    lia. }
  destruct (plan_index_bound 256 (MAX_THREADS / 512) n_entries HN ltac:(lia) HU)
    as (Ht & Hi & Hg & Hg32 & Hmax).
  destruct (plan_index_bound 128 (4 * MAX_THREADS / 128) n_entries HN ltac:(lia) HUa)
    as (Hta & Hia & Hga & Hg32a & Hmaxa).
  cbv zeta. split.
  - apply fits_IndexType_plan; try assumption. reflexivity.
  - apply fits_IndexType_plan; try assumption. reflexivity.
Qed.

Lemma driver_launch_fits_witness :
  fits_IndexType 256 (Z.to_nat (num_blocks (launch_plan 256
                        (u32 30720 / u32 (2 * 256)) 100000)))
    (Z.to_nat (tail (launch_plan 256 (u32 30720 / u32 (2 * 256)) 100000)))
    (Z.to_nat (interval_size (launch_plan 256 (u32 30720 / u32 (2 * 256)) 100000)))
  = true.
Proof.
  exact (proj1 (driver_launch_fits 30720 100000 ltac:(lia) ltac:(lia))).
Defined.

(** X27: in a launch that fits, the natural numbers of the embedding are the
    numbers of the source.  For every thread of the grid, [begin] and [end]
    computed in the signed 32-bit [IndexType], wrap-around included, are
    [thread_begin] and [thread_end]. *)
Theorem index_arithmetic_exact (BLOCK_SIZE num_blocks num_entries interval_size
    warp_id thread_lane : nat) :
  fits_IndexType BLOCK_SIZE num_blocks num_entries interval_size = true ->
  warp_id < num_blocks * (BLOCK_SIZE / 32) ->
  thread_lane < 32 ->
  thread_begin32 (Z.of_nat warp_id) (Z.of_nat interval_size) (Z.of_nat thread_lane)
  = Z.of_nat (thread_begin warp_id interval_size thread_lane)
  /\ thread_end32
       (thread_begin32 (Z.of_nat warp_id) (Z.of_nat interval_size)
          (Z.of_nat thread_lane))
       (Z.of_nat interval_size) (Z.of_nat num_entries)
     = Z.of_nat (thread_end (thread_begin warp_id interval_size thread_lane)
                   interval_size num_entries).
Proof.
  intros Hfit Hw Hl. unfold fits_IndexType, thread_begin in Hfit.
  rewrite !andb_true_iff, !Z.ltb_lt in Hfit. destruct Hfit as [[Hn Hid] Hmax].
  assert (Hle : warp_id * interval_size
                <= (num_blocks * (BLOCK_SIZE / 32) - 1) * interval_size).
  { apply Nat.mul_le_mono_r. lia. }
  unfold thread_begin32, thread_end32, thread_end, thread_begin.
  rewrite <- Nat2Z.inj_mul.
  set (a := warp_id * interval_size) in *.
  set (b := (num_blocks * (BLOCK_SIZE / 32) - 1) * interval_size) in *.
  clearbody a b. clear Hw Hid.
  change (2 ^ 31)%Z with 2147483648%Z in *.
  rewrite (s32_small (Z.of_nat a))
    by (change (2 ^ 31)%Z with 2147483648%Z; lia).
  rewrite <- Nat2Z.inj_add.
  rewrite (s32_small (Z.of_nat (a + thread_lane)))
    by (change (2 ^ 31)%Z with 2147483648%Z; lia).
  split; [reflexivity|].
  rewrite <- Nat2Z.inj_add.
  rewrite s32_small by (change (2 ^ 31)%Z with 2147483648%Z; lia).
  rewrite Nat2Z.inj_min. reflexivity.
Qed.

Lemma index_arithmetic_exact_witness :
  thread_begin32 (Z.of_nat 1) (Z.of_nat 32) (Z.of_nat 17)
  = Z.of_nat (thread_begin 1 32 17).
Proof.
  exact (proj1 (index_arithmetic_exact 256 1 64 32 1 17
                  ltac:(vm_compute; reflexivity) ltac:(vm_compute; lia)
                  ltac:(lia))).
Defined.

(** Past the range the two part.  At [2^31 - 1] entries and [MAX_THREADS =
    30720] the deferred driver launches 480 warps with intervals of 4473952
    entries; the last warp begins below the tail, its [begin +
    interval_size] wraps around to a negative number, and the warp takes the
    early return with its interval unread. *)
Lemma index_overflow_example :
  let p := launch_plan 256 (u32 30720 / u32 (2 * 256)) (2 ^ 31 - 1) in
  (thread_begin32 479 (interval_size p) 0 < tail p
   /\ thread_end32 (thread_begin32 479 (interval_size p) 0) (interval_size p)
        (tail p)
      <= thread_begin32 479 (interval_size p) 0)%Z.
Proof. vm_compute. split; [reflexivity | discriminate]. Qed.

(** * The host-side merge of the carries *)

Lemma host_merge_rows {T} `{ValueOps T} active_warps h_rows (h_vals : list T) :
  1 <= active_warps -> active_warps <= length h_rows ->
  (forall i j, i <= j -> j < active_warps -> (ldi h_rows i <= ldi h_rows j)%Z) ->
  let m := host_merge active_warps h_rows h_vals in
  m.2 <= active_warps
  /\ length m.1.1 = length h_rows
  /\ ldi m.1.1 (m.2 - 1) = ldi h_rows (active_warps - 1)
  /\ forall j, S j < m.2 -> (ldi m.1.1 j < ldi m.1.1 (S j))%Z.
Proof.
  intros Hnw Hlr Hs. unfold host_merge.
  set (step := fun (st : list Z * list T * nat) (start : nat) => _).
  assert (Hinv : forall k, S k <= active_warps ->
    let st := foldl step (h_rows, h_vals, 0) (seq 1 k) in
    st.2 <= k
    /\ length st.1.1 = length h_rows
    /\ (forall j, S k <= j -> ldi st.1.1 j = ldi h_rows j)
    /\ ldi st.1.1 st.2 = ldi h_rows k
    /\ forall j, j < st.2 -> (ldi st.1.1 j < ldi st.1.1 (S j))%Z).
  { induction k as [|k IH]; intros Hk.
    - cbn. split; [lia|]. split; [reflexivity|]. split; [reflexivity|].
      split; [reflexivity | intros; lia].
    - rewrite seq_S, foldl_app. cbn [foldl].
      specialize (IH ltac:(lia)). cbv zeta in IH.
      destruct (foldl step (h_rows, h_vals, 0) (seq 1 k)) as [[r v] u].
      cbn [fst snd] in IH. destruct IH as (Hu & Hl1 & Hrest & Hcur & Hinc).
      replace (1 + k) with (S k) by lia.
      pose proof (Hrest (S k) ltac:(lia)) as Hrk.
      destruct (decide (ldi r u = ldi r (S k))) as [Heq|Hne].
      + assert (Hst : step (r, v, u) (S k)
                      = (r, <[u := vadd (ld v u) (ld v (S k))]> v, u)).
        { unfold step. cbn [fst snd].
          rewrite (bool_decide_eq_true_2 _ Heq). reflexivity. }
        rewrite Hst. cbn [fst snd].
        split; [lia|]. split; [exact Hl1|]. split.
        * intros j Hj. apply Hrest. lia.
        * split; [congruence | exact Hinc].
      + assert (Hst : step (r, v, u) (S k)
                      = (<[S u := ldi r (S k)]> r, <[S u := ld v (S k)]> v, S u)).
        { unfold step. cbn [fst snd].
          rewrite (bool_decide_eq_false_2 _ Hne). reflexivity. }
        rewrite Hst. cbn [fst snd]. rewrite length_insert.
        split; [lia|]. split; [exact Hl1|]. split.
        * intros j Hj. rewrite ldi_insert_ne by lia. apply Hrest. lia.
        * split; [rewrite ldi_insert_eq by lia; exact Hrk|].
          intros j Hj. destruct (decide (j = u)) as [->|Hju].
          -- rewrite ldi_insert_ne, ldi_insert_eq by lia.
             pose proof (Hs k (S k) ltac:(lia) ltac:(lia)). lia.
          -- rewrite !ldi_insert_ne by lia. apply Hinc. lia. }
  specialize (Hinv (active_warps - 1) ltac:(lia)). cbv zeta in Hinv.
  destruct (foldl step (h_rows, h_vals, 0) (seq 1 (active_warps - 1)))
    as [[r v] u].
  cbn [fst snd] in *. destruct Hinv as (Hu & Hlen & _ & Hcur & Hinc).
  split; [lia|]. split; [exact Hlen|]. split.
  - replace (S u - 1) with u by lia. exact Hcur.
  - intros j Hj. apply Hinc. lia.
Qed.

(** X13: the merge loop of the [host_method] branch of [__spmv_coo_flat], on
    carries with non-decreasing rows, leaves between one and [active_warps]
    merged carries, with strictly increasing rows, the last of them for the
    row of the last carry; so the scatter kernel that this branch launches
    on them adds to every row of [y] at most once. *)
Theorem host_merge_compacts {T} `{ValueOps T} (active_warps : nat)
    (temp_rows : list Z) (temp_vals : list T) :
  1 <= active_warps -> active_warps <= length temp_rows ->
  nondecreasing (take active_warps temp_rows) = true ->
  let m := host_merge active_warps temp_rows temp_vals in
  1 <= m.2 <= active_warps
  /\ ldi m.1.1 (m.2 - 1) = ldi temp_rows (active_warps - 1)
  /\ (forall i j, i < j -> j < m.2 -> (ldi m.1.1 i < ldi m.1.1 j)%Z)
  /\ rows_increasing (level2_host active_warps temp_rows temp_vals).
Proof.
  intros Hnw Hlr Hs.
  pose proof (host_merge_rows active_warps temp_rows temp_vals Hnw Hlr
    ltac:(intros i j Hij Hj; apply (sorted_prefix_le temp_rows active_warps);
          assumption)) as Hm.
  cbv zeta in Hm. unfold level2_host.
  assert (H1 : 1 <= (host_merge active_warps temp_rows temp_vals).2)
    by (unfold host_merge; cbn [snd]; lia).
  destruct (host_merge active_warps temp_rows temp_vals) as [[hr hv] u].
  cbn [fst snd] in *. destruct Hm as (Hu & Hlen & Hlast & Hinc).
  assert (Hpair : forall i j, i < j -> j < u -> (ldi hr i < ldi hr j)%Z).
  { intros i j Hij. induction Hij as [|j Hij IH]; intros Hj.
    - apply Hinc. lia.
    - etrans; [apply IH; lia | apply Hinc; lia]. }
  split; [lia|]. split; [exact Hlast|]. split; [exact Hpair|].
  intros i j e1 e2 Hij Hi Hj. unfold spmv_coo_scatter_update_kernel in Hi, Hj.
  assert (Hju : j < u).
  { apply lookup_lt_Some in Hj. rewrite length_tab in Hj. exact Hj. }
  rewrite lookup_tab in Hi by lia. rewrite lookup_tab in Hj by lia.
  apply (inj Some) in Hi. apply (inj Some) in Hj. subst e1 e2. cbn [ev_row].
  assert (Hcp : forall t, t < u ->
            ldi (memcpy_to_device temp_rows hr u) t = ldi hr t).
  { intros t Ht. unfold memcpy_to_device, ldi.
    rewrite lookup_app_l by (rewrite length_take; lia).
    rewrite lookup_take_lt by lia. reflexivity. }
  rewrite !Hcp by lia. apply Hpair; lia.
Qed.

Lemma host_merge_compacts_witness :
  1 <= (host_merge 5 (row_indices example_coo) (values example_coo)).2 <= 5
  /\ rows_increasing (level2_host 5 (row_indices example_coo) (values example_coo)).
Proof.
  pose proof (host_merge_compacts 5 (row_indices example_coo) (values example_coo)
    ltac:(lia) ltac:(vm_compute; lia) ltac:(vm_compute; reflexivity))
    as (Hu & _ & _ & Hinc).
  split; [exact Hu | exact Hinc].
Defined.

(** * Properties of the test assertions *)

(** ** [abs] and [almost_equal] on binary64 numbers *)

Lemma abs_sf x : Prim2SF (unittest.abs x) = sf_abs (Prim2SF x).
Proof.
  unfold unittest.abs. rewrite ltb_spec.
  change (Prim2SF 0) with (S754_zero false).
  destruct (Prim2SF x) as [s|s| |s m e] eqn:Hx; cbn.
  - rewrite opp_spec, Hx. reflexivity.
  - destruct s; cbn; [rewrite opp_spec, Hx; reflexivity | exact Hx].
  - rewrite opp_spec, Hx. reflexivity.
  - destruct s; cbn; [rewrite opp_spec, Hx; reflexivity | exact Hx].
Qed.

Lemma sf_nonneg_abs f : sf_nonneg (sf_abs f) = true.
Proof. destruct f; reflexivity. Qed.

Lemma SFltb_zero_r f s : SFltb f (S754_zero s) = negb (sf_nonneg f).
Proof. destruct f as [s'|s'| |s' m e]; try destruct s'; reflexivity. Qed.

Lemma SFltb_nan_r f : SFltb f S754_nan = false.
Proof. destruct f; reflexivity. Qed.

Lemma ltb_zero_nonneg x : (x <? 0)%float = negb (sf_nonneg (Prim2SF x)).
Proof. rewrite ltb_spec. apply SFltb_zero_r. Qed.

(** Rounding keeps the sign. *)
Lemma binary_round_aux_nonneg m e l :
  sf_nonneg (binary_round_aux prec emax false m e l) = true.
Proof.
  unfold binary_round_aux.
  destruct (shr_fexp prec emax m e l) as [mrs' e'].
  destruct (shr_fexp prec emax _ e' loc_Exact) as [mrs'' e''].
  destruct (shr_m mrs''); [reflexivity | | reflexivity].
  destruct (e'' <=? emax - prec)%Z; reflexivity.
Qed.

Lemma SFadd_nonneg x y :
  sf_nonneg x = true -> sf_nonneg y = true -> sf_nonneg (SF64add x y) = true.
Proof.
  destruct x as [sx|sx| |sx mx ex], y as [sy|sy| |sy my ey]; cbn [sf_nonneg];
    intros Hx Hy; try reflexivity;
    try (apply negb_true_iff in Hx; subst sx);
    try (apply negb_true_iff in Hy; subst sy); try reflexivity.
  - destruct sx, sy; reflexivity.
  - unfold SF64add, SFadd, binary_normalize. cbn [cond_Zopp].
    change (Z.pos ?a + Z.pos ?b)%Z with (Z.pos (a + b)).
    unfold binary_round.
    destruct (shl_align _ _ _) as [mz ez]. apply binary_round_aux_nonneg.
Qed.

Lemma SFmul_nonneg x y :
  sf_nonneg x = true -> sf_nonneg y = true -> sf_nonneg (SF64mul x y) = true.
Proof.
  destruct x as [sx|sx| |sx mx ex], y as [sy|sy| |sy my ey]; cbn [sf_nonneg];
    intros Hx Hy; try reflexivity;
    try (apply negb_true_iff in Hx; subst sx);
    try (apply negb_true_iff in Hy; subst sy); try reflexivity.
  unfold SF64mul, SFmul. cbn [xorb]. apply binary_round_aux_nonneg.
Qed.

(** [almost_equal] in terms of the specification of the operations. *)
Lemma almost_equal_sf a b a_tol r_tol :
  unittest.almost_equal a b a_tol r_tol
  = negb (SFltb (SF64add (SF64mul (Prim2SF r_tol)
                            (SF64add (sf_abs (Prim2SF a)) (sf_abs (Prim2SF b))))
                   (Prim2SF a_tol))
            (sf_abs (SF64sub (Prim2SF a) (Prim2SF b)))).
Proof.
  unfold unittest.almost_equal.
  rewrite ltb_spec, add_spec, mul_spec, add_spec, !abs_sf, sub_spec.
  destruct (SFltb _ _); reflexivity.
Qed.

Lemma SFsub_diag f :
  SF64sub f f = S754_zero false \/ SF64sub f f = S754_nan.
Proof.
  destruct f as [s|s| |s m e]; cbn.
  - left. destruct s; reflexivity.
  - right. destruct s; reflexivity.
  - right. reflexivity.
  - left. unfold SF64sub, SFsub. rewrite Z.sub_diag. reflexivity.
Qed.

Lemma SFltb_top_l f g : sf_top f = true -> SFltb f g = false.
Proof.
  destruct f as [s|s| |s m e]; try discriminate.
  - destruct s; [discriminate|]. intros _.
    destruct g as [s'|s'| |s' m' e']; try destruct s'; reflexivity.
  - reflexivity.
Qed.

Lemma SFadd_top_l x y :
  sf_top x = true -> sf_nonneg y = true -> sf_top (SF64add x y) = true.
Proof.
  destruct x as [sx|sx| |sx mx ex]; try discriminate.
  - destruct sx; [discriminate|]. intros _.
    destruct y as [sy|sy| |sy my ey]; try destruct sy; try discriminate; reflexivity.
  - reflexivity.
Qed.

Lemma SFadd_top_r x y :
  sf_nonneg x = true -> sf_top y = true -> sf_top (SF64add x y) = true.
Proof.
  intros Hx Hy. destruct y as [sy|sy| |sy my ey]; try discriminate.
  - destruct sy; [discriminate|].
    destruct x as [sx|sx| |sx mx ex]; try destruct sx; try discriminate; reflexivity.
  - destruct x; reflexivity.
Qed.

Lemma SFmul_top_r x y :
  sf_nonneg x = true -> sf_top y = true -> sf_top (SF64mul x y) = true.
Proof.
  intros Hx Hy. destruct y as [sy|sy| |sy my ey]; try discriminate.
  - destruct sy; [discriminate|].
    destruct x as [sx|sx| |sx mx ex]; try destruct sx; try discriminate; reflexivity.
  - destruct x; reflexivity.
Qed.

Lemma SFcompare_refl f : f <> S754_nan -> SFcompare f f = Some Eq.
Proof.
  destruct f as [s|s| |s m e]; intros Hf.
  - reflexivity.
  - destruct s; reflexivity.
  - contradiction.
  - cbn. rewrite Z.compare_refl.
    assert (Hm : PosDef.Pos.compare_cont Eq m m = Eq).
    { change (PosDef.Pos.compare_cont Eq m m) with (Pos.compare m m).
      apply Pos.compare_refl. }
    rewrite Hm. destruct s; reflexivity.
Qed.

Lemma is_nan_sf x : is_nan x = true <-> Prim2SF x = S754_nan.
Proof.
  unfold is_nan. rewrite eqb_spec, negb_true_iff. unfold SFeqb. split.
  - intros Hc. destruct (Prim2SF x) as [s|s| |s m e] eqn:Hx; [| |reflexivity|];
      rewrite SFcompare_refl in Hc by discriminate; discriminate.
  - intros ->. reflexivity.
Qed.

Lemma is_infinity_sf x :
  is_infinity x = true <-> exists s, Prim2SF x = S754_infinity s.
Proof.
  unfold is_infinity. rewrite eqb_spec, abs_spec.
  change (Prim2SF infinity) with (S754_infinity false).
  destruct (Prim2SF x) as [s|s| |s m e]; cbn; split;
    try discriminate; try (intros [s' Hs]; discriminate); eauto.
Qed.

Lemma SFsub_nan a b :
  a = S754_nan \/ b = S754_nan -> SF64sub a b = S754_nan.
Proof.
  intros [-> | ->]; [reflexivity|]. destruct a; reflexivity.
Qed.

(** A NaN on either side, or an infinity with tolerances that are not
    negative, and the test passes. *)
Lemma almost_equal_not_finite a b a_tol r_tol :
  (is_nan a || is_nan b = true
   \/ ((a_tol <? 0)%float = false /\ (r_tol <? 0)%float = false
       /\ is_infinity a || is_infinity b = true)) ->
  unittest.almost_equal a b a_tol r_tol = true.
Proof.
  rewrite almost_equal_sf. intros [Hn | (Ha & Hr & Hi)].
  - rewrite SFsub_nan.
    + cbn [sf_abs]. rewrite SFltb_nan_r. reflexivity.
    + apply orb_true_iff in Hn as [Hn|Hn]; apply is_nan_sf in Hn; auto.
  - rewrite ltb_zero_nonneg, negb_false_iff in Ha, Hr.
    assert (Hsum : sf_top (SF64add (sf_abs (Prim2SF a)) (sf_abs (Prim2SF b)))
                   = true).
    { apply orb_true_iff in Hi as [Hi|Hi]; apply is_infinity_sf in Hi as [s Hs];
        rewrite Hs; cbn [sf_abs].
      - apply SFadd_top_l; [reflexivity | apply sf_nonneg_abs].
      - apply SFadd_top_r; [apply sf_nonneg_abs | reflexivity]. }
    rewrite SFltb_top_l; [reflexivity|].
    apply SFadd_top_l; [|exact Ha]. apply SFmul_top_r; [exact Hr | exact Hsum].
Qed.

(** X14: [abs] never returns a negative number: for every [double] [x], a
    NaN included, [abs(x) < 0] is false. *)
Theorem abs_not_negative (x : float) : (unittest.abs x <? 0)%float = false.
Proof. rewrite ltb_zero_nonneg, abs_sf, sf_nonneg_abs. reflexivity. Qed.

(** X15: [almost_equal] holds of every [double] and itself, an infinity
    and a NaN included, whenever neither tolerance is negative. *)
Theorem almost_equal_refl (a a_tol r_tol : float) :
  (a_tol <? 0)%float = false -> (r_tol <? 0)%float = false ->
  unittest.almost_equal a a a_tol r_tol = true.
Proof.
  rewrite !ltb_zero_nonneg, !negb_false_iff. intros Ha Hr.
  rewrite almost_equal_sf.
  pose proof (SFadd_nonneg _ _
    (SFmul_nonneg _ _ Hr
       (SFadd_nonneg _ _ (sf_nonneg_abs (Prim2SF a)) (sf_nonneg_abs (Prim2SF a))))
    Ha) as Hthr.
  destruct (SFsub_diag (Prim2SF a)) as [-> | ->]; cbn [sf_abs].
  - rewrite SFltb_zero_r, Hthr. reflexivity.
  - rewrite SFltb_nan_r. reflexivity.
Qed.

Lemma almost_equal_refl_witness :
  unittest.almost_equal infinity infinity unittest.DEFAULT_ABSOLUTE_TOL
    unittest.DEFAULT_RELATIVE_TOL = true.
Proof.
  exact (almost_equal_refl infinity unittest.DEFAULT_ABSOLUTE_TOL
           unittest.DEFAULT_RELATIVE_TOL ltac:(vm_compute; reflexivity)
           ltac:(vm_compute; reflexivity)).
Defined.

(** X16: [almost_equal] cannot tell a NaN from anything: when one of the
    two numbers is a NaN it returns [true], whatever the other number and
    the tolerances are. *)
Theorem almost_equal_nan (a b a_tol r_tol : float) :
  is_nan a || is_nan b = true ->
  unittest.almost_equal a b a_tol r_tol = true.
Proof. intros Hn. apply almost_equal_not_finite. left. exact Hn. Qed.

Lemma almost_equal_nan_witness :
  unittest.almost_equal nan 1 unittest.DEFAULT_ABSOLUTE_TOL
    unittest.DEFAULT_RELATIVE_TOL = true.
Proof.
  exact (almost_equal_nan nan 1 unittest.DEFAULT_ABSOLUTE_TOL
           unittest.DEFAULT_RELATIVE_TOL ltac:(vm_compute; reflexivity)).
Defined.

(** X17: with tolerances that are not negative, [almost_equal] returns
    [true] as soon as one of the two numbers is an infinity, of either sign,
    whatever the other number is. *)
Theorem almost_equal_infinity (a b a_tol r_tol : float) :
  (a_tol <? 0)%float = false -> (r_tol <? 0)%float = false ->
  is_infinity a || is_infinity b = true ->
  unittest.almost_equal a b a_tol r_tol = true.
Proof. intros Ha Hr Hi. apply almost_equal_not_finite. right. auto. Qed.

Lemma almost_equal_infinity_witness :
  unittest.almost_equal neg_infinity 1 unittest.DEFAULT_ABSOLUTE_TOL
    unittest.DEFAULT_RELATIVE_TOL = true.
Proof.
  exact (almost_equal_infinity neg_infinity 1 unittest.DEFAULT_ABSOLUTE_TOL
           unittest.DEFAULT_RELATIVE_TOL ltac:(vm_compute; reflexivity)
           ltac:(vm_compute; reflexivity) ltac:(vm_compute; reflexivity)).
Defined.

(** ** The sequence assertions *)

Lemma assert_equal_loop_short {A} (op : A -> A -> bool) :
  forall l1 l2 i m f, length l2 < length l1 ->
  unittest.assert_equal_loop op l1 l2 i m f = None.
Proof.
  induction l1 as [|a l1 IH]; intros [|b l2] i m f Hl; cbn in Hl; try lia.
  - reflexivity.
  - cbn [unittest.assert_equal_loop].
    destruct (negb (op a b)); apply IH; lia.
Qed.

Lemma assert_equal_loop_spec {A} (op : A -> A -> bool) :
  forall l1 l2 i m f, length l1 <= length l2 ->
  unittest.assert_equal_loop op l1 l2 i m f
  = Some (i + length l1,
          m + length (filter (fun p => op p.2.1 p.2.2 = false)
                        (imap (fun k ab => (i + k, ab)) (zip l1 l2))),
          f ++ mjoin (mismatch_line <$>
                 take (unittest.MAX_OUTPUT_LINES - m)
                   (filter (fun p => op p.2.1 p.2.2 = false)
                      (imap (fun k ab => (i + k, ab)) (zip l1 l2))))).
Proof.
  induction l1 as [|a l1 IH]; intros [|b l2] i m f Hl; cbn in Hl; try lia.
  - cbn. rewrite take_nil. cbn. rewrite !Nat.add_0_r, app_nil_r. reflexivity.
  - cbn. rewrite take_nil. cbn. rewrite !Nat.add_0_r, app_nil_r. reflexivity.
  - cbn [unittest.assert_equal_loop].
    change (zip (a :: l1) (b :: l2)) with ((a, b) :: zip l1 l2).
    rewrite imap_cons.
    assert (Hext : imap ((fun k ab => (i + k, ab)) ∘ S) (zip l1 l2)
                   = imap (fun k ab => (S i + k, ab)) (zip l1 l2)).
    { apply imap_ext. intros k [a' b'] _. cbn. f_equal. lia. }
    rewrite Hext. replace (i + 0) with i by lia.
    replace (i + length (a :: l1)) with (S i + length l1) by (cbn; lia).
    destruct (op a b) eqn:Hop; cbn [negb].
    + rewrite list.filter_cons_False by (cbn; congruence).
      rewrite IH by lia. reflexivity.
    + rewrite list.filter_cons_True by (cbn; exact Hop).
      rewrite IH by lia. cbn [length].
      replace (m + S (length (filter (fun p => op p.2.1 p.2.2 = false)
                 (imap (fun k ab => (S i + k, ab)) (zip l1 l2)))))
        with (S m + length (filter (fun p => op p.2.1 p.2.2 = false)
                 (imap (fun k ab => (S i + k, ab)) (zip l1 l2)))) by lia.
      f_equal. f_equal.
      destruct (decide (S m <= unittest.MAX_OUTPUT_LINES)) as [Hle|Hgt].
      * rewrite bool_decide_eq_true_2 by exact Hle.
        replace (unittest.MAX_OUTPUT_LINES - m)
          with (S (unittest.MAX_OUTPUT_LINES - S m)) by lia.
        cbn [take fmap list_fmap mjoin list_join]. rewrite <- app_assoc. reflexivity.
      * rewrite bool_decide_eq_false_2 by exact Hgt.
        replace (unittest.MAX_OUTPUT_LINES - m) with 0 by lia.
        replace (unittest.MAX_OUTPUT_LINES - S m) with 0 by lia.
        reflexivity.
Qed.

Lemma mismatches_nil {A} (op : A -> A -> bool) :
  forall l1 l2 i,
  filter (fun p => op p.2.1 p.2.2 = false)
    (imap (fun k ab => (i + k, ab)) (zip l1 l2)) = []
  <-> forall k a b, l1 !! k = Some a -> l2 !! k = Some b -> op a b = true.
Proof.
  induction l1 as [|a l1 IH]; intros [|b l2] i.
  - split; [intros _ k a0 b0 Hk; destruct k; discriminate Hk | reflexivity].
  - split; [intros _ k a0 b0 Hk; destruct k; discriminate Hk | reflexivity].
  - split; [intros _ k a0 b0 _ Hk; destruct k; discriminate Hk | reflexivity].
  - change (zip (a :: l1) (b :: l2)) with ((a, b) :: zip l1 l2).
    rewrite imap_cons.
    assert (Hext : imap ((fun k ab => (i + k, ab)) ∘ S) (zip l1 l2)
                   = imap (fun k ab => (S i + k, ab)) (zip l1 l2)).
    { apply imap_ext. intros k [a' b'] _. cbn. f_equal. lia. }
    rewrite Hext. destruct (op a b) eqn:Hop.
    + rewrite list.filter_cons_False by (cbn; congruence).
      rewrite IH. split.
      * intros Hall [|k] a' b' Ha Hb; cbn in Ha, Hb.
        -- congruence.
        -- eapply Hall; eassumption.
      * intros Hall k a' b' Ha Hb. apply (Hall (S k)); assumption.
    + rewrite list.filter_cons_True by (cbn; exact Hop).
      split; [discriminate|].
      intros Hall. specialize (Hall 0 a b eq_refl eq_refl). congruence.
Qed.

Lemma assert_equal_returned {A} (op : A -> A -> bool) l1 l2 filename line
    type_name :
  length l1 <= length l2 ->
  (forall k a b, l1 !! k = Some a -> l2 !! k = Some b -> op a b = true) ->
  unittest.assert_equal op l1 l2 filename line type_name = unittest.returned.
Proof.
  intros Hl Hall. unfold unittest.assert_equal.
  rewrite assert_equal_loop_spec by exact Hl.
  rewrite (proj2 (mismatches_nil op l1 l2 0) Hall). reflexivity.
Qed.

(** X18: how the sequence [assert_equal] ends.  It reads the second
    sequence past its end exactly when that one is shorter than the first;
    it returns exactly when the second sequence is long enough and [op]
    holds at every position of the first; otherwise it throws. *)
Theorem assert_equal_outcome {A} (op : A -> A -> bool) (l1 l2 : list A)
    (filename : string) (line : Z) (type_name : string) :
  (unittest.assert_equal op l1 l2 filename line type_name = unittest.out_of_range
   <-> length l2 < length l1)
  /\ (unittest.assert_equal op l1 l2 filename line type_name = unittest.returned
      <-> length l1 <= length l2
          /\ forall k a b, l1 !! k = Some a -> l2 !! k = Some b -> op a b = true).
Proof.
  destruct (decide (length l1 <= length l2)) as [Hl|Hl].
  - unfold unittest.assert_equal.
    rewrite assert_equal_loop_spec by exact Hl.
    pose proof (mismatches_nil op l1 l2 0) as Hnil.
    destruct (filter _ _) as [|p ML].
    + cbn. split; [split; [discriminate | lia]|].
      split; [intros _; split; [exact Hl | apply Hnil; reflexivity] | reflexivity].
    + cbn [length]. rewrite bool_decide_eq_true_2 by lia.
      split; [split; [discriminate | lia]|].
      split; [discriminate|]. intros [_ Hall].
      apply Hnil in Hall. discriminate Hall.
  - unfold unittest.assert_equal.
    rewrite assert_equal_loop_short by lia.
    split; [split; [lia | reflexivity]|].
    split; [discriminate | intros [? _]; lia].
Qed.

(** X19: what the sequence [assert_equal] reports when it throws.  After the
    header come the lines of the first [MAX_OUTPUT_LINES] positions where
    [op] fails, in order, each with its index and the two elements; then
    the note that the output limit was reached, exactly when more positions
    than that differ; then the count of all differing positions and the
    length of the first sequence. *)
Theorem assert_equal_report {A} (op : A -> A -> bool) (l1 l2 : list A)
    (filename : string) (line : Z) (type_name : string) :
  length l1 <= length l2 ->
  mismatch_list op l1 l2 <> [] ->
  unittest.assert_equal op l1 l2 filename line type_name
  = unittest.thrown
      ([unittest.text "["; unittest.text filename; unittest.text ":";
        unittest.lineno line; unittest.text "] ";
        unittest.text "Sequences are not equal [type='"; unittest.text type_name;
        unittest.text ("']" +:+ unittest.nl);
        unittest.text ("--------------------------------" +:+ unittest.nl)]
       ++ mjoin (mismatch_line <$>
                   take unittest.MAX_OUTPUT_LINES (mismatch_list op l1 l2))
       ++ (if bool_decide (unittest.MAX_OUTPUT_LINES
                           < length (mismatch_list op l1 l2))
           then [unittest.text ("  (output limit reached)" +:+ unittest.nl)]
           else [])
       ++ [unittest.text ("--------------------------------" +:+ unittest.nl);
           unittest.text "Sequences differ at ";
           unittest.index (length (mismatch_list op l1 l2));
           unittest.text " of "; unittest.index (length l1);
           unittest.text " positions"; unittest.text unittest.nl]).
Proof.
  intros Hl Hne. unfold unittest.assert_equal.
  rewrite assert_equal_loop_spec by exact Hl.
  change (filter (fun p => op p.2.1 p.2.2 = false)
            (imap (fun k ab => (0 + k, ab)) (zip l1 l2)))
    with (mismatch_list op l1 l2).
  rewrite Nat.sub_0_r, !Nat.add_0_l.
  destruct (mismatch_list op l1 l2) as [|p ML] eqn:HML; [contradiction|].
  rewrite bool_decide_eq_true_2 by (cbn; lia).
  f_equal. destruct (bool_decide _);
    rewrite <- ?app_assoc; reflexivity.
Qed.

Lemma assert_equal_report_witness :
  unittest.assert_equal Z.eqb [1; 2; 3]%Z [1; 5; 3; 4]%Z "t.cu" 7 "int"
  = unittest.thrown
      ([unittest.text "["; unittest.text "t.cu"; unittest.text ":";
        unittest.lineno 7; unittest.text "] ";
        unittest.text "Sequences are not equal [type='"; unittest.text "int";
        unittest.text ("']" +:+ unittest.nl);
        unittest.text ("--------------------------------" +:+ unittest.nl)]
       ++ mjoin (mismatch_line <$>
                   take unittest.MAX_OUTPUT_LINES
                     (mismatch_list Z.eqb [1; 2; 3]%Z [1; 5; 3; 4]%Z))
       ++ (if bool_decide (unittest.MAX_OUTPUT_LINES
                           < length (mismatch_list Z.eqb [1; 2; 3]%Z [1; 5; 3; 4]%Z))
           then [unittest.text ("  (output limit reached)" +:+ unittest.nl)]
           else [])
       ++ [unittest.text ("--------------------------------" +:+ unittest.nl);
           unittest.text "Sequences differ at ";
           unittest.index (length (mismatch_list Z.eqb [1; 2; 3]%Z [1; 5; 3; 4]%Z));
           unittest.text " of "; unittest.index (length [1; 2; 3]%Z);
           unittest.text " positions"; unittest.text unittest.nl]).
Proof.
  exact (assert_equal_report Z.eqb [1; 2; 3]%Z [1; 5; 3; 4]%Z "t.cu" 7 "int"
           ltac:(cbn; lia) ltac:(vm_compute; discriminate)).
Defined.

(** X20: the sequence [assert_almost_equal] does not see a result without
    finite numbers.  With tolerances that are not negative, a first
    sequence of which every element is a NaN or an infinity passes against
    any second sequence that is long enough. *)
Theorem assert_almost_equal_not_finite (l1 l2 : list float) (filename : string)
    (line : Z) (type_name : string) (a_tol r_tol : float) :
  length l1 <= length l2 ->
  (a_tol <? 0)%float = false -> (r_tol <? 0)%float = false ->
  forallb (fun a => negb (is_finite a)) l1 = true ->
  unittest.assert_almost_equal l1 l2 filename line type_name a_tol r_tol
  = unittest.returned.
Proof.
  intros Hl Ha Hr Hnf. unfold unittest.assert_almost_equal.
  apply assert_equal_returned; [exact Hl|].
  intros k a b Hka _. rewrite forallb_forall in Hnf.
  specialize (Hnf a ltac:(apply list_elem_of_In; eapply list_elem_of_lookup_2;
                          exact Hka)).
  unfold is_finite in Hnf. rewrite negb_involutive in Hnf.
  apply orb_true_iff in Hnf as [Hn|Hi]; apply almost_equal_not_finite.
  - left. rewrite Hn. reflexivity.
  - right. split; [exact Ha|]. split; [exact Hr|]. rewrite Hi. reflexivity.
Qed.

Lemma assert_almost_equal_not_finite_witness :
  unittest.assert_almost_equal [nan; infinity; neg_infinity]%float
    [1; 2; 3]%float "t.cu" 7 "double" unittest.DEFAULT_ABSOLUTE_TOL
    unittest.DEFAULT_RELATIVE_TOL
  = unittest.returned.
Proof.
  exact (assert_almost_equal_not_finite [nan; infinity; neg_infinity]%float
           [1; 2; 3]%float "t.cu" 7 "double" unittest.DEFAULT_ABSOLUTE_TOL
           unittest.DEFAULT_RELATIVE_TOL ltac:(cbn; lia)
           ltac:(vm_compute; reflexivity) ltac:(vm_compute; reflexivity)
           ltac:(vm_compute; reflexivity)).
Defined.

(** ** The order of the two numbers *)

Lemma SFltb_sf_abs f g : SFltb f (sf_abs g) = SFltb f (SFabs g).
Proof.
  destruct g as [s|s| |s m e]; cbn [sf_abs SFabs]; rewrite ?SFltb_zero_r;
    reflexivity.
Qed.

Lemma SFadd_comm x y : SF64add x y = SF64add y x.
Proof.
  destruct x as [sx|sx| |sx mx ex], y as [sy|sy| |sy my ey];
    try reflexivity; try (destruct sx, sy; reflexivity).
  unfold SF64add, SFadd. rewrite (Z.min_comm ey ex). f_equal. apply Z.add_comm.
Qed.

Lemma SFabs_binary_round_aux s m e l :
  SFabs (binary_round_aux prec emax s m e l)
  = SFabs (binary_round_aux prec emax false m e l).
Proof.
  unfold binary_round_aux.
  destruct (shr_fexp prec emax m e l) as [mrs' e'].
  destruct (shr_fexp prec emax _ e' loc_Exact) as [mrs'' e''].
  destruct (shr_m mrs''); [reflexivity | | reflexivity].
  destruct (e'' <=? emax - prec)%Z; reflexivity.
Qed.

Lemma SFabs_binary_normalize m e :
  SFabs (binary_normalize prec emax (- m) e false)
  = SFabs (binary_normalize prec emax m e false).
Proof.
  destruct m as [|m|m]; [reflexivity| |];
    [change (- Z.pos m)%Z with (Z.neg m) | change (- Z.neg m)%Z with (Z.pos m)];
    unfold binary_normalize, binary_round;
    destruct (shl_align _ _ _) as [mz ez];
    rewrite (SFabs_binary_round_aux true); reflexivity.
Qed.

Lemma SFabs_sub_swap x y : SFabs (SF64sub x y) = SFabs (SF64sub y x).
Proof.
  destruct x as [sx|sx| |sx mx ex], y as [sy|sy| |sy my ey];
    try reflexivity; try (destruct sx, sy; reflexivity).
  unfold SF64sub, SFsub. rewrite (Z.min_comm ey ex).
  rewrite <- SFabs_binary_normalize. f_equal. f_equal. lia.
Qed.

(** X25: [almost_equal] does not depend on the order of the two numbers:
    for all [double]s and tolerances, [almost_equal(a, b)] and
    [almost_equal(b, a)] return the same. *)
Theorem almost_equal_sym (a b a_tol r_tol : float) :
  unittest.almost_equal a b a_tol r_tol = unittest.almost_equal b a a_tol r_tol.
Proof.
  rewrite !almost_equal_sf, !SFltb_sf_abs.
  rewrite (SFabs_sub_swap (Prim2SF a) (Prim2SF b)).
  rewrite (SFadd_comm (sf_abs (Prim2SF a)) (sf_abs (Prim2SF b))).
  reflexivity.
Qed.
